(** * Job_map link checker: a shallow embedding of [link_checker.py]

    The script reads [index.html], finds the JavaScript arrays [institutes]
    and [jobBoards] with a regular expression, turns each one into JSON text
    by textual substitution, decodes it, collects the [url] and [homepageUrl]
    values in a set, probes every collected URL with a HEAD request and exits
    with status 1 when a link is broken.

    The development follows the script top to bottom:
    - Python strings are lists of code points;
    - [re] is a small backtracking matcher, and the three patterns of the
      script are written as regular-expression terms;
    - [json.loads] is a tokenizer followed by a recursive-descent decoder that
      produces Python values;
    - printing, exceptions and [sys.exit] live in a small monad; a [print]
      fails with [UnicodeEncodeError] when the console cannot encode a
      character of the line;
    - the console, the network and the iteration order of a Python [set] are
      parameters of the run.

    Outside the model: the limits of the interpreter (inside [json.loads]
    the recursion depth, which ends a deeply nested text in [RecursionError],
    and the digit limit of [int], which ends a very long integer in
    [ValueError]; memory), interrupts of the process, an input file that
    exists but cannot be read (a directory, a missing permission, bytes
    that are not UTF-8), and a console that stops taking output.  The
    theorems below speak of runs in which none of these occurs.

    The definitions come first: the script, then the vocabulary in which its
    properties are stated, then the example worlds; the lemmas and theorems
    follow. *)

From Stdlib Require Import Ascii String DecimalString.
From Stdlib Require Import List NArith ZArith Bool Lia Permutation.
Import ListNotations.

Set Implicit Arguments.

(* ================================================================== *)
(** ** Python text *)

Module Text.

(** A Python [str] is a sequence of Unicode code points. *)
Definition char := N.
Definition pystr := list char.

Definition ch (a : ascii) : char := N_of_ascii a.

(** [u "..."] is the [str] of an ASCII literal of the script. *)
Definition u (s : string) : pystr := map ch (list_ascii_of_string s).

Definition char_eqb (a b : char) : bool := N.eqb a b.

(** The double quote and the backslash. *)
Definition dquote : char := 34%N.
Definition backslash : char := 92%N.

Definition pystr_eq_dec : forall a b : pystr, {a = b} + {a <> b} :=
  list_eq_dec N.eq_dec.

Definition pystr_eqb (a b : pystr) : bool :=
  if pystr_eq_dec a b then true else false.

(** [s.startswith(p)], returning what follows the prefix. *)
Fixpoint strip_prefix (p s : pystr) : option pystr :=
  match p, s with
  | [], _ => Some s
  | a :: p', b :: s' => if char_eqb a b then strip_prefix p' s' else None
  | _ :: _, [] => None
  end.

(** [sub in s] on two strings. *)
Fixpoint str_contains (sub s : pystr) : bool :=
  match strip_prefix sub s with
  | Some _ => true
  | None => match s with
            | [] => false
            | _ :: s' => str_contains sub s'
            end
  end.

(** [s.replace(old, new)] for a one-character [old]. *)
Definition replace_char (old : char) (new : pystr) (s : pystr) : pystr :=
  flat_map (fun c => if char_eqb c old then new else [c]) s.

(** The characters [\s] matches in a [str] pattern (Unicode whitespace). *)
Definition isspace (c : char) : bool :=
  ((9 <=? c) && (c <=? 13) || (28 <=? c) && (c <=? 32)
   || (c =? 133) || (c =? 160) || (c =? 5760)
   || (8192 <=? c) && (c <=? 8202)
   || (c =? 8232) || (c =? 8233) || (c =? 8239) || (c =? 8287)
   || (c =? 12288))%N.

(** [str(n)] for an [int]. *)
Definition str_of_Z (z : Z) : pystr := u (NilZero.string_of_int (Z.to_int z)).
Definition str_of_nat (n : nat) : pystr := str_of_Z (Z.of_nat n).

End Text.
Import Text.

(* ================================================================== *)
(** ** The [re] module *)

Module Re.

(** Character classes and the constructs the three patterns use.  Repetition
    is only ever applied to a character class in the script, so [Star] and
    [LazyStar] carry a class. *)
Inductive cclass :=
| CChar (c : char)       (* a literal character *)
| CSpace                 (* \s *)
| CAny.                  (* .  under re.DOTALL *)

Inductive regex :=
| Lit (s : pystr)            (* a literal string *)
| Cls (c : cclass)           (* one character of a class *)
| Seq (a b : regex)
| Alt (a b : regex)          (* a|b, tried left to right *)
| Star (c : cclass)          (* c*   greedy *)
| LazyStar (c : cclass)      (* c*?  non-greedy *)
| Group (a : regex).         (* ( a ) *)

Definition Plus (c : cclass) : regex := Seq (Cls c) (Star c).

Definition in_class (c : cclass) (x : char) : bool :=
  match c with
  | CChar y => char_eqb x y
  | CSpace => isspace x
  | CAny => true
  end.

Definition or_else {R} (a b : option R) : option R :=
  match a with Some x => Some x | None => b end.

(** Backtracking matcher in continuation-passing style: [k] receives the
    unread input and the groups captured so far and decides whether the rest
    of the pattern matches; a [None] makes the matcher try its next
    alternative, as the [re] engine does. *)
Fixpoint re_match {R} (r : regex) (k : pystr -> list pystr -> option R)
         (s : pystr) (caps : list pystr) {struct r} : option R :=
  match r with
  | Lit l =>
      match strip_prefix l s with
      | Some rest => k rest caps
      | None => None
      end
  | Cls c =>
      match s with
      | x :: s' => if in_class c x then k s' caps else None
      | [] => None
      end
  | Seq a b => re_match a (fun s' caps' => re_match b k s' caps') s caps
  | Alt a b => or_else (re_match a k s caps) (re_match b k s caps)
  | Star c =>
      (fix loop (t : pystr) : option R :=
         match t with
         | x :: t' =>
             if in_class c x then or_else (loop t') (k t caps) else k t caps
         | [] => k t caps
         end) s
  | LazyStar c =>
      (fix loop (t : pystr) : option R :=
         or_else (k t caps)
                 match t with
                 | x :: t' => if in_class c x then loop t' else None
                 | [] => None
                 end) s
  | Group a =>
      re_match a
        (fun s' caps' =>
           k s' (caps' ++ [firstn (length s - length s') s])) s caps
  end.

(** [pattern.match(s)]: the groups and the unread input of the match that
    starts at the beginning of [s]. *)
Definition match_at (r : regex) (s : pystr) : option (list pystr * pystr) :=
  re_match r (fun rest caps => Some (caps, rest)) s [].

(** Left-to-right scan for non-overlapping matches.  [skip] counts the
    characters of the current match that are still to be stepped over.  None
    of the script's patterns matches the empty string. *)
Fixpoint findall_from (r : regex) (skip : nat) (s : pystr)
  : list (list pystr) :=
  match s with
  | [] => []
  | _ :: s' =>
      match skip with
      | S n => findall_from r n s'
      | O =>
          match match_at r s with
          | Some (caps, rest) =>
              caps :: findall_from r (length s - length rest - 1) s'
          | None => findall_from r 0 s'
          end
      end
  end.

(** [pattern.findall(s)]: the list of group tuples. *)
Definition findall (r : regex) (s : pystr) : list (list pystr) :=
  findall_from r 0 s.

Fixpoint sub_from (r : regex) (repl : pystr) (skip : nat) (s : pystr)
  : pystr :=
  match s with
  | [] => []
  | x :: s' =>
      match skip with
      | S n => sub_from r repl n s'
      | O =>
          match match_at r s with
          | Some (_, rest) =>
              repl ++ sub_from r repl (length s - length rest - 1) s'
          | None => x :: sub_from r repl 0 s'
          end
      end
  end.

(** [re.sub(pattern, repl, s)] for a replacement without group references. *)
Definition sub (r : regex) (repl : pystr) (s : pystr) : pystr :=
  sub_from r repl 0 s.

End Re.
Import Re.

(** [r'const\s+(institutes|jobBoards)\s*=\s*(\[.*?\]);'] with
    [re.DOTALL | re.MULTILINE]. *)
Definition js_array_pattern : regex :=
  Seq (Lit (u "const"))
 (Seq (Plus CSpace)
 (Seq (Group (Alt (Lit (u "institutes")) (Lit (u "jobBoards"))))
 (Seq (Star CSpace)
 (Seq (Lit (u "="))
 (Seq (Star CSpace)
 (Seq (Group (Seq (Lit (u "[")) (Seq (LazyStar CAny) (Lit (u "]")))))
      (Lit (u ";")))))))).

(** [r',\s*}'] and [r',\s*\]']. *)
Definition trailing_comma (close : char) : regex :=
  Seq (Lit (u ",")) (Seq (Star CSpace) (Lit [close])).

Definition rbrace : char := ch "}".
Definition rbracket : char := ch "]".

(* ================================================================== *)
(** ** Python values *)

Module Py.

(** A Python [float] (IEEE binary64): a finite float is [m * 2^e] with [m]
    odd, or zero with [m = 0] and [e = 0]. *)
Inductive pyfloat :=
| FNaN
| FInf (neg : bool)
| FFin (neg : bool) (m : N) (e : Z).

(** The objects [json.loads] can build. *)
#[warnings="-register-all"]
Inductive value :=
| VNone
| VBool (b : bool)
| VInt (z : Z)
| VFloat (f : pyfloat)
| VStr (s : pystr)
| VList (l : list value)
| VDict (d : list (pystr * value)).

Definition round_half_even (num den : Z) : Z :=
  let q := (num / den)%Z in
  let r := (num mod den)%Z in
  if (2 * r <? den)%Z then q
  else if (2 * r =? den)%Z then (if Z.even q then q else q + 1)%Z
  else (q + 1)%Z.

Fixpoint strip_zero_bits (p : positive) (e : Z) : positive * Z :=
  match p with
  | xO p' => strip_zero_bits p' (e + 1)
  | _ => (p, e)
  end.

Definition dyadic (neg : bool) (q k : Z) : pyfloat :=
  match q with
  | Zpos p => let '(m, e) := strip_zero_bits p k in FFin neg (Npos m) e
  | _ => FFin neg 0 0
  end.

(** [float(s)] for the decimal literal [d * 10^x]: the nearest binary64,
    ties to even, with gradual underflow and overflow to infinity. *)
Definition float_of_decimal (neg : bool) (d : N) (x : Z) : pyfloat :=
  if (d =? 0)%N then FFin neg 0 0
  else
    let n := (Z.of_N d * 10 ^ Z.max x 0)%Z in
    let den := (10 ^ Z.max (- x) 0)%Z in
    let l0 := (Z.log2 n - Z.log2 den)%Z in
    let l := if (den * 2 ^ Z.max l0 0 <=? n * 2 ^ Z.max (- l0) 0)%Z
             then l0 else (l0 - 1)%Z in
    let k := Z.max (l - 52) (-1074) in
    let q := round_half_even (n * 2 ^ Z.max (- k) 0) (den * 2 ^ Z.max k 0) in
    if (q =? 0)%Z then FFin neg 0 0
    else if (1024 <=? Z.log2 q + k)%Z then FInf neg
    else dyadic neg q k.

(** [bool(v)]. *)
Definition truthy (v : value) : bool :=
  match v with
  | VNone => false
  | VBool b => b
  | VInt z => negb (z =? 0)%Z
  | VFloat (FFin _ m _) => negb (m =? 0)%N
  | VFloat _ => true
  | VStr s => match s with [] => false | _ => true end
  | VList l => match l with [] => false | _ => true end
  | VDict d => match d with [] => false | _ => true end
  end.

(** What [hash] and [==] distinguish among hashable values: [True == 1 ==
    1.0] are one key, a string is only equal to the same string.  The [nan]
    of [json] is a single object, found in a set by identity. *)
Inductive key :=
| KNone
| KStr (s : pystr)
| KNaN
| KInf (neg : bool)
| KNum (neg : bool) (m : N) (e : Z).

Definition key_of_Z (z : Z) : key :=
  match z with
  | Z0 => KNum false 0 0
  | Zpos p => let '(m, e) := strip_zero_bits p 0 in KNum false (Npos m) e
  | Zneg p => let '(m, e) := strip_zero_bits p 0 in KNum true (Npos m) e
  end.

(** [None] for the unhashable [list] and [dict]. *)
Definition hash_key (v : value) : option key :=
  match v with
  | VNone => Some KNone
  | VBool b => Some (key_of_Z (if b then 1 else 0))
  | VInt z => Some (key_of_Z z)
  | VFloat FNaN => Some KNaN
  | VFloat (FInf neg) => Some (KInf neg)
  | VFloat (FFin neg m e) =>
      Some (if (m =? 0)%N then KNum false 0 0 else KNum neg m e)
  | VStr s => Some (KStr s)
  | VList _ | VDict _ => None
  end.

Definition key_eq_dec : forall a b : key, {a = b} + {a <> b}.
Proof.
  decide equality;
    try apply pystr_eq_dec; try apply Bool.bool_dec;
    try apply Z.eq_dec; try apply N.eq_dec.
Defined.

Definition key_eqb (a b : key) : bool :=
  if key_eq_dec a b then true else false.

(** A [set]: its elements in insertion order, pairwise different keys. *)
Definition pyset := list value.

Definition set_mem (k : key) (s : pyset) : bool :=
  existsb (fun w => match hash_key w with
                    | Some k' => key_eqb k' k
                    | None => false
                    end) s.

(** [dict] lookup and update; a [dict] keeps one entry per key. *)
Fixpoint dict_get (k : pystr) (d : list (pystr * value)) : option value :=
  match d with
  | [] => None
  | (k', v) :: d' => if pystr_eqb k' k then Some v else dict_get k d'
  end.

Fixpoint dict_set (k : pystr) (v : value) (d : list (pystr * value))
  : list (pystr * value) :=
  match d with
  | [] => [(k, v)]
  | (k', v') :: d' =>
      if pystr_eqb k' k then (k', v) :: d' else (k', v') :: dict_set k v d'
  end.

End Py.
Import Py.

(* ================================================================== *)
(** ** The [json] module *)

Module Json.

Inductive token :=
| TLBrace | TRBrace | TLBracket | TRBracket | TColon | TComma
| TStr (s : pystr)
| TAtom (v : value).       (* a number, true, false, null, NaN, Infinity *)

(** *** Numbers and literals *)

Definition digit_val (c : char) : option N :=
  if ((48 <=? c) && (c <=? 57))%N then Some (c - 48)%N else None.

Definition hex_val (c : char) : option N :=
  if ((48 <=? c) && (c <=? 57))%N then Some (c - 48)%N
  else if ((97 <=? c) && (c <=? 102))%N then Some (c - 87)%N
  else if ((65 <=? c) && (c <=? 70))%N then Some (c - 55)%N
  else None.

(** The leading digits of [s] (as the number they spell and their count) and
    what follows them. *)
Fixpoint take_digits (acc : N) (cnt : nat) (s : pystr) : N * nat * pystr :=
  match s with
  | c :: s' =>
      match digit_val c with
      | Some d => take_digits (10 * acc + d)%N (S cnt) s'
      | None => (acc, cnt, s)
      end
  | [] => (acc, cnt, s)
  end.

Definition signed (neg : bool) (n : N) : Z :=
  if neg then (- Z.of_N n)%Z else Z.of_N n.

(** The exponent part ([e] or [E], an optional sign, digits) followed by the
    end of the lexeme; [Some None] when the lexeme has ended already. *)
Definition number_exp (s : pystr) : option (option Z) :=
  match s with
  | [] => Some None
  | c :: s1 =>
      if (char_eqb c (ch "e") || char_eqb c (ch "E"))%bool then
        let '(eneg, s2) :=
          match s1 with
          | d :: s2 =>
              if char_eqb d (ch "-") then (true, s2)
              else if char_eqb d (ch "+") then (false, s2)
              else (false, s1)
          | [] => (false, s1)
          end in
        match take_digits 0 0 s2 with
        | (_, O, _) => None
        | (e, S _, []) => Some (Some (signed eneg e))
        | (_, S _, _ :: _) => None
        end
      else None
  end.

(** The number grammar of [json.scanner] on a whole lexeme: an optional
    minus sign, an integer part without superfluous leading zero, an optional
    fraction [.digits] and an optional exponent.  The result is an [int] when
    there is neither fraction nor exponent, else a [float]. *)
Definition number_of (s : pystr) : option value :=
  let '(neg, s0) :=
    match s with
    | c :: s' => if char_eqb c (ch "-") then (true, s') else (false, s)
    | [] => (false, s)
    end in
  match take_digits 0 0 s0 with
  | (_, O, _) => None
  | (i, S cnt, s1) =>
      let leading_zero :=
        match s0 with
        | c :: _ => char_eqb c (ch "0")
        | [] => false
        end in
      if (leading_zero && negb (Nat.eqb cnt 0))%bool then None
      else
        match s1 with
        | [] => Some (VInt (signed neg i))
        | c :: s2 =>
            if char_eqb c (ch ".") then
              match take_digits i 0 s2 with
              | (_, O, _) => None
              | (m, S fcnt, s3) =>
                  match number_exp s3 with
                  | Some e =>
                      let x := match e with Some x => x | None => 0%Z end in
                      Some (VFloat (float_of_decimal neg m
                                      (x - Z.of_nat (S fcnt))))
                  | None => None
                  end
              end
            else
              match number_exp s1 with
              | Some (Some x) => Some (VFloat (float_of_decimal neg i x))
              | _ => None
              end
        end
  end.

(** The value of a lexeme made of letters, digits, [+], [-] and [.]. *)
Definition atom_of (s : pystr) : option value :=
  if pystr_eqb s (u "null") then Some VNone
  else if pystr_eqb s (u "true") then Some (VBool true)
  else if pystr_eqb s (u "false") then Some (VBool false)
  else if pystr_eqb s (u "NaN") then Some (VFloat FNaN)
  else if pystr_eqb s (u "Infinity") then Some (VFloat (FInf false))
  else if pystr_eqb s (u "-Infinity") then Some (VFloat (FInf true))
  else number_of s.

(** *** Tokens

    The tokenizer reads one character at a time.  A lexeme of letters, digits
    and signs runs up to the first character that cannot continue it; a
    decoder that succeeds has a delimiter there, so the lexeme is the whole
    number or literal. *)

Inductive mode :=
| Top                                                (* between tokens *)
| InAtom (acc : pystr)                               (* in a number or literal *)
| InStr (acc : pystr) (hi : option char)             (* in a string *)
| InEsc (acc : pystr) (hi : option char)             (* after a backslash *)
| InHex (acc : pystr) (hi : option char) (code : N) (cnt : nat).
                                                     (* in the digits of \u *)
(** [acc] holds the characters read so far, last first; [hi] is a high
    surrogate decoded from a [\u] escape that waits for its low half. *)

Definition json_ws (c : char) : bool :=
  ((c =? 32) || (c =? 9) || (c =? 10) || (c =? 13))%N.

Definition atom_char (c : char) : bool :=
  ((48 <=? c) && (c <=? 57) || (97 <=? c) && (c <=? 122)
   || (65 <=? c) && (c <=? 90)
   || (c =? 43) || (c =? 45) || (c =? 46))%N.

Definition flush (acc : pystr) (hi : option char) : pystr :=
  match hi with Some h => h :: acc | None => acc end.

Definition is_high (c : N) : bool := ((55296 <=? c) && (c <=? 56319))%N.
Definition is_low (c : N) : bool := ((56320 <=? c) && (c <=? 57343))%N.

Definition join_surrogates (h l : N) : char :=
  (65536 + ((h - 55296) * 1024 + (l - 56320)))%N.

Definition escape_char (c : char) : option char :=
  if char_eqb c dquote then Some dquote
  else if char_eqb c backslash then Some backslash
  else if char_eqb c (ch "/") then Some (ch "/")
  else if char_eqb c (ch "b") then Some 8%N
  else if char_eqb c (ch "f") then Some 12%N
  else if char_eqb c (ch "n") then Some 10%N
  else if char_eqb c (ch "r") then Some 13%N
  else if char_eqb c (ch "t") then Some 9%N
  else None.

(** The string state after a [\u] escape decoded to [code]. *)
Definition fresh (acc : pystr) (code : N) : mode :=
  if is_high code then InStr acc (Some code) else InStr (code :: acc) None.

Definition decoded (acc : pystr) (hi : option char) (code : N) : mode :=
  match hi with
  | Some h =>
      if is_low code then InStr (join_surrogates h code :: acc) None
      else fresh (h :: acc) code
  | None => fresh acc code
  end.

(** A character met between tokens. *)
Definition start (c : char) : option (list token * mode) :=
  if json_ws c then Some ([], Top)
  else if char_eqb c (ch "{") then Some ([TLBrace], Top)
  else if char_eqb c (ch "}") then Some ([TRBrace], Top)
  else if char_eqb c (ch "[") then Some ([TLBracket], Top)
  else if char_eqb c (ch "]") then Some ([TRBracket], Top)
  else if char_eqb c (ch ":") then Some ([TColon], Top)
  else if char_eqb c (ch ",") then Some ([TComma], Top)
  else if char_eqb c dquote then Some ([], InStr [] None)
  else if atom_char c then Some ([], InAtom [c])
  else None.

Definition lex_step (m : mode) (c : char) : option (list token * mode) :=
  match m with
  | Top => start c
  | InAtom acc =>
      if atom_char c then Some ([], InAtom (c :: acc))
      else
        match atom_of (rev acc), start c with
        | Some v, Some (ts, m') => Some (TAtom v :: ts, m')
        | _, _ => None
        end
  | InStr acc hi =>
      if char_eqb c dquote then Some ([TStr (rev (flush acc hi))], Top)
      else if char_eqb c backslash then Some ([], InEsc acc hi)
      else if (c <? 32)%N then None          (* control character, strict *)
      else Some ([], InStr (c :: flush acc hi) None)
  | InEsc acc hi =>
      if char_eqb c (ch "u") then Some ([], InHex acc hi 0 0)
      else
        match escape_char c with
        | Some e => Some ([], InStr (e :: flush acc hi) None)
        | None => None
        end
  | InHex acc hi code cnt =>
      match hex_val c with
      | Some d =>
          let code' := (16 * code + d)%N in
          if Nat.eqb cnt 3 then Some ([], decoded acc hi code')
          else Some ([], InHex acc hi code' (S cnt))
      | None => None
      end
  end.

(** The end of the text. *)
Definition lex_end (m : mode) : option (list token) :=
  match m with
  | Top => Some []
  | InAtom acc => option_map (fun v => [TAtom v]) (atom_of (rev acc))
  | _ => None                                (* unterminated string *)
  end.

Fixpoint lex (m : mode) (s : pystr) : option (list token) :=
  match s with
  | [] => lex_end m
  | c :: s' =>
      match lex_step m c with
      | Some (ts, m') => option_map (app ts) (lex m' s')
      | None => None
      end
  end.

Definition tokenize (s : pystr) : option (list token) := lex Top s.

(** *** Decoding *)

Inductive presult (A : Type) :=
| POk (a : A)
| PErr            (* the text is not JSON *)
| PFuel.          (* the recursion bound was reached *)
Arguments PErr {A}.
Arguments PFuel {A}.

Fixpoint parse_value (n : nat) (ts : list token)
  : presult (value * list token) :=
  match n with
  | O => PFuel
  | S n' =>
      match ts with
      | TAtom v :: r => POk (v, r)
      | TStr s :: r => POk (VStr s, r)
      | TLBracket :: TRBracket :: r => POk (VList [], r)
      | TLBracket :: r => parse_elems n' r []
      | TLBrace :: TRBrace :: r => POk (VDict [], r)
      | TLBrace :: r => parse_members n' r []
      | _ => PErr
      end
  end
with parse_elems (n : nat) (ts : list token) (acc : list value)
  : presult (value * list token) :=
  match n with
  | O => PFuel
  | S n' =>
      match parse_value n' ts with
      | POk (v, TComma :: r) => parse_elems n' r (v :: acc)
      | POk (v, TRBracket :: r) => POk (VList (rev (v :: acc)), r)
      | POk _ => PErr
      | PErr => PErr
      | PFuel => PFuel
      end
  end
with parse_members (n : nat) (ts : list token) (acc : list (pystr * value))
  : presult (value * list token) :=
  match n with
  | O => PFuel
  | S n' =>
      match ts with
      | TStr k :: TColon :: r =>
          match parse_value n' r with
          | POk (v, TComma :: r') => parse_members n' r' (dict_set k v acc)
          | POk (v, TRBrace :: r') => POk (VDict (dict_set k v acc), r')
          | POk _ => PErr
          | PErr => PErr
          | PFuel => PFuel
          end
      | _ => PErr
      end
  end.

(** [json.loads(s)]: [None] stands for [json.JSONDecodeError].  The bound
    [2 * length ts + 1] is never reached (lemma [parse_value_fuel]). *)
Definition loads (s : pystr) : option value :=
  match tokenize s with
  | Some ts =>
      match parse_value (2 * length ts + 1) ts with
      | POk (v, []) => Some v
      | _ => None
      end
  | None => None
  end.

End Json.

(* ================================================================== *)
(** ** Exceptions, output and the monad of the script *)

Module Run.

(** The exception classes that matter to the handlers of the script.  Every
    class here derives from [Exception]; [SystemExit], which does not, is the
    separate outcome [Exit], and a [KeyboardInterrupt] is no outcome of the
    model. *)
Inductive exn_class :=
| FileNotFoundError
| JSONDecodeError
| TypeError
| KeyError
| UnicodeEncodeError
| RequestException (name : pystr)   (* RequestException or a subclass of it,
                                       with its [__name__] *)
| OtherException (name : pystr).    (* any other subclass of [Exception] *)

(** An exception object: its class and [str(e)]. *)
Record exn := Exn { exn_class_of : exn_class; exn_str : pystr }.

Definition class_name (e : exn) : pystr :=
  match exn_class_of e with
  | FileNotFoundError => u "FileNotFoundError"
  | JSONDecodeError => u "JSONDecodeError"
  | TypeError => u "TypeError"
  | KeyError => u "KeyError"
  | UnicodeEncodeError => u "UnicodeEncodeError"
  | RequestException n => n
  | OtherException n => n
  end.

Definition is_FileNotFoundError (e : exn) : bool :=
  match exn_class_of e with FileNotFoundError => true | _ => false end.
Definition is_JSONDecodeError (e : exn) : bool :=
  match exn_class_of e with JSONDecodeError => true | _ => false end.
Definition is_RequestException (e : exn) : bool :=
  match exn_class_of e with RequestException _ => true | _ => false end.
Definition is_Exception (e : exn) : bool := true.

(** How a computation ends: with a value, with an exception on its way up,
    or in [sys.exit(code)]. *)
Inductive result (A : Type) :=
| Ret (a : A)
| Raise (e : exn)
| Exit (code : Z).
Arguments Raise {A}.
Arguments Exit {A}.

(** One constructor per [print] call of the script, with the values it
    interpolates. *)
Inductive event :=
| SayParsing (file_path : pystr)
| SayFileNotFound (file_path : pystr)
| SayNoArrays
| SayFoundArrays (n : nat)
| SayWarning (array_name : pystr)
| SayErrorDetails (e : exn)
| SayFoundUrls (n : nat)
| SayNoUrls
| SayChecking (i n : nat) (url : value)
| SayStatus (status : pystr)         (* "  -> {status}" *)
| SayOK                              (* "  -> OK" *)
| SayComplete
| SayAllWorking
| SayFoundBroken (n : nat)
| SayBroken (url : value) (reason : pystr).

(** What the script mutates: the console and the set [urls]. *)
Record state := State { stdout : list event; urls : pyset }.

Definition M (A : Type) : Type := state -> result A * state.

Definition ret {A} (a : A) : M A := fun st => (Ret a, st).

Definition bind {A B} (m : M A) (f : A -> M B) : M B :=
  fun st =>
    match m st with
    | (Ret a, st') => f a st'
    | (Raise e, st') => (Raise e, st')
    | (Exit c, st') => (Exit c, st')
    end.

Definition raise {A} (e : exn) : M A := fun st => (Raise e, st).
Definition sys_exit {A} (code : Z) : M A := fun st => (Exit code, st).

(** The console: the characters the encoding of [sys.stdout] can write.
    Every encoding a console uses can write ASCII. *)
Record console := Console {
  encodes : char -> bool;
  encodes_ascii : forall c, (c < 128)%N -> encodes c = true
}.

(** The characters of [str(v)] that may lie outside ASCII: those of a
    string.  A number, a bool and [None] are written in ASCII; a list or a
    dict cannot be a set element, so none is ever printed by the script. *)
Definition str_chars (v : value) : pystr :=
  match v with
  | VStr s => s
  | _ => []
  end.

(** The characters of a line that may lie outside ASCII: the ones the text
    of the script holds (lines 109 and 111 begin with the characters U+00E2
    U+0153 U+2026 and U+00F0 U+0178 U+0161 U+00A8) and the ones the line
    takes from the data.  The text of a decode error is ASCII. *)
Definition beyond_ascii (ev : event) : pystr :=
  match ev with
  | SayParsing file_path => file_path
  | SayFileNotFound file_path => file_path
  | SayWarning array_name => array_name
  | SayErrorDetails e => exn_str e
  | SayChecking _ _ url => str_chars url
  | SayStatus status => status
  | SayAllWorking => [226; 339; 8230]%N
  | SayFoundBroken _ => [240; 376; 353; 168]%N
  | SayBroken url reason => str_chars url ++ reason
  | _ => []
  end.

Definition printable (con : console) (ev : event) : bool :=
  forallb (encodes con) (beyond_ascii ev).

(** [print(...)]: the line is encoded as a whole before any of it is
    written, so a line the console cannot encode leaves no trace but the
    exception.  The text of that exception is not modelled. *)
Definition print (con : console) (ev : event) : M unit :=
  fun st =>
    if printable con ev
    then (Ret tt, State (stdout st ++ [ev]) (urls st))
    else (Raise (Exn UnicodeEncodeError []), st).

(** [try: body] followed by [except C as e: handler] clauses; the first
    clause whose class the exception is an instance of handles it. *)
Definition clause (A : Type) : Type := (exn -> bool) * (exn -> M A).

Fixpoint select_clause {A} (clauses : list (clause A)) (e : exn)
  : option (M A) :=
  match clauses with
  | [] => None
  | (catches, handler) :: rest =>
      if catches e then Some (handler e) else select_clause rest e
  end.

Definition try_except {A} (body : M A) (clauses : list (clause A)) : M A :=
  fun st =>
    match body st with
    | (Raise e, st') =>
        match select_clause clauses e with
        | Some handler => handler st'
        | None => (Raise e, st')
        end
    | r => r
    end.

Fixpoint for_each {A} (l : list A) (body : A -> M unit) : M unit :=
  match l with
  | [] => ret tt
  | x :: l' => bind (body x) (fun _ => for_each l' body)
  end.

(** A loop that threads a local variable. *)
Fixpoint for_fold {A B} (l : list A) (acc : B) (body : A -> B -> M B) : M B :=
  match l with
  | [] => ret acc
  | x :: l' => bind (body x acc) (fun acc' => for_fold l' acc' body)
  end.

Definition set_new : M unit :=
  fun st => (Ret tt, State (stdout st) []).

Definition set_get : M pyset := fun st => (Ret (urls st), st).

End Run.
Import Run.

Declare Scope py_scope.
Delimit Scope py_scope with py.
Notation "x <- m ;; k" := (bind m (fun x => k))
  (at level 61, m at next level, right associativity) : py_scope.
Notation "m ;; k" := (bind m (fun _ => k))
  (at level 61, right associativity) : py_scope.
Open Scope py_scope.

(* ================================================================== *)
(** ** The operators the script applies to decoded values *)

Module Ops.

Definition type_name (v : value) : pystr :=
  match v with
  | VNone => u "NoneType"
  | VBool _ => u "bool"
  | VInt _ => u "int"
  | VFloat _ => u "float"
  | VStr _ => u "str"
  | VList _ => u "list"
  | VDict _ => u "dict"
  end.

Definition type_error {A} (msg : pystr) : M A := raise (Exn TypeError msg).

Definition is_str (k : pystr) (v : value) : bool :=
  match v with VStr s => pystr_eqb s k | _ => false end.

(** [k in item] for a string [k]: a key test on a [dict], a substring test on
    a [str], an element test on a [list]; the other types are not
    containers. *)
Definition py_in (k : pystr) (item : value) : M bool :=
  match item with
  | VDict d => ret (match dict_get k d with Some _ => true | None => false end)
  | VStr s => ret (str_contains k s)
  | VList l => ret (existsb (is_str k) l)
  | _ => type_error (u "argument of type '" ++ type_name item
                       ++ u "' is not iterable")
  end.

(** [item[k]] for a string [k]. *)
Definition py_getitem (item : value) (k : pystr) : M value :=
  match item with
  | VDict d =>
      match dict_get k d with
      | Some v => ret v
      | None => raise (Exn KeyError (u "'" ++ k ++ u "'"))
      end
  | VStr _ => type_error (u "string indices must be integers, not 'str'")
  | VList _ =>
      type_error (u "list indices must be integers or slices, not str")
  | _ => type_error (u "'" ++ type_name item
                       ++ u "' object is not subscriptable")
  end.

(** The elements [for item in data] runs through: the members of a [list],
    the characters of a [str], the keys of a [dict]. *)
Definition elements (data : value) : option (list value) :=
  match data with
  | VList l => Some l
  | VStr s => Some (map (fun c => VStr [c]) s)
  | VDict d => Some (map (fun kv => VStr (fst kv)) d)
  | _ => None
  end.

Definition py_iter (data : value) : M (list value) :=
  match elements data with
  | Some l => ret l
  | None => type_error (u "'" ++ type_name data ++ u "' object is not iterable")
  end.

(** [urls.add(v)]. *)
Definition urls_add (v : value) : M unit :=
  fun st =>
    match hash_key v with
    | Some k =>
        if set_mem k (urls st) then (Ret tt, st)
        else (Ret tt, State (stdout st) (urls st ++ [v]))
    | None =>
        (Raise (Exn TypeError (u "unhashable type: '" ++ type_name v ++ u "'")),
         st)
    end.

(** [json.loads] as a statement of the script.  The text of a decode error
    (reason and position) is not modelled. *)
Definition json_loads (s : pystr) : M value :=
  match Json.loads s with
  | Some v => ret v
  | None => raise (Exn JSONDecodeError [])
  end.

End Ops.
Import Ops.

(* ================================================================== *)
(** ** [link_checker.py] *)

(** The world around one run: the console, the files, the order in which a
    [set] hands out its elements (it depends on the hash seed of the
    process), and the network. *)
Definition filesystem := pystr -> option pystr.

Record set_order := SetOrder {
  iter_set : pyset -> list value;
  iter_set_perm : forall s, Permutation (iter_set s) s
}.

Record response := Response { status_code : Z }.

(** [session.head(url, ...)] either returns a response or raises.  Within
    one run every URL is probed once, so the answer is a function of the
    URL. *)
Record session := Session { head : value -> response + exn }.

Definition session_head (s : session) (url : value) : M response :=
  match head s url with
  | inl r => ret r
  | inr e => raise e
  end.

Definition open_read (fs : filesystem) (file_path : pystr) : M pystr :=
  match fs file_path with
  | Some content => ret content
  | None => raise (Exn FileNotFoundError file_path)
  end.

Definition HTML_FILE_PATH : pystr := u "index.html".

(** Lines 43 to 47: the JSON text made from the JavaScript array. *)
Definition json_str_of (array_content : pystr) : pystr :=
  let json_str :=
    replace_char (ch "`") [dquote]
      (replace_char (ch "'") [dquote] array_content) in
  let json_str := sub (trailing_comma rbrace) [rbrace] json_str in
  sub (trailing_comma rbracket) [rbracket] json_str.

(** Lines 52 to 55, for one of the two field names. *)
Definition add_field (item : value) (field : pystr) : M unit :=
  present <- py_in field item ;;
  if present then
    v <- py_getitem item field ;;
    if truthy v then urls_add v else ret tt
  else ret tt.

(** Lines 43 to 55: the body of the [try]. *)
Definition try_body (array_content : pystr) : M unit :=
  data <- json_loads (json_str_of array_content) ;;
  items <- py_iter data ;;
  for_each items (fun item =>
    add_field item (u "url") ;;
    add_field item (u "homepageUrl")).

(** Lines 39 to 59: one round of the loop over the arrays found. *)
Definition process_array (con : console) (found : list pystr) : M unit :=
  match found with
  | [array_name; array_content] =>
      try_except (try_body array_content)
        [(is_JSONDecodeError,
          fun e => print con (SayWarning array_name) ;;
                   print con (SayErrorDetails e))]
  | _ => raise (Exn (OtherException (u "ValueError")) [])
  end.

Definition extract_urls_from_js (con : console) (fs : filesystem)
           (order : set_order) (file_path : pystr) : M (list value) :=
  print con (SayParsing file_path) ;;
  html_content <-
    try_except (open_read fs file_path)
      [(is_FileNotFoundError,
        fun _ => print con (SayFileNotFound file_path) ;; sys_exit 1)] ;;
  set_new ;;
  let found_arrays := findall js_array_pattern html_content in
  match found_arrays with
  | [] => print con SayNoArrays ;; sys_exit 1
  | _ :: _ =>
      print con (SayFoundArrays (length found_arrays)) ;;
      for_each found_arrays (process_array con) ;;
      s <- set_get ;;
      print con (SayFoundUrls (length s)) ;;
      ret (iter_set order s)
  end.

Definition OK : pystr := u "OK".

Definition check_link (url : value) (session : session) : M pystr :=
  try_except
    (response <- session_head session url ;;
     if (400 <=? status_code response)%Z
     then ret (u "FAILED: Status " ++ str_of_Z (status_code response))
     else ret OK)
    [(is_RequestException,
      fun e => ret (u "FAILED: Request Error (" ++ class_name e ++ u ")"));
     (is_Exception,
      fun e => ret (u "FAILED: An unexpected error occurred ("
                      ++ exn_str e ++ u ")"))].

(** [enumerate]. *)
Definition enumerate {A} (l : list A) : list (nat * A) :=
  combine (seq 0 (length l)) l.

Definition main (con : console) (fs : filesystem) (order : set_order)
           (session : session) : M unit :=
  urls_to_check <- extract_urls_from_js con fs order HTML_FILE_PATH ;;
  match urls_to_check with
  | [] => print con SayNoUrls
  | _ :: _ =>
      broken_links <-
        for_fold (enumerate urls_to_check) []
          (fun '(i, url) broken_links =>
             print con (SayChecking (i + 1) (length urls_to_check) url) ;;
             status <- check_link url session ;;
             if negb (pystr_eqb status OK) then
               print con (SayStatus status) ;;
               ret (broken_links ++ [(url, status)])
             else
               print con SayOK ;; ret broken_links) ;;
      print con SayComplete ;;
      match broken_links with
      | [] => print con SayAllWorking
      | _ :: _ =>
          print con (SayFoundBroken (length broken_links)) ;;
          for_each broken_links
            (fun '(url, reason) => print con (SayBroken url reason)) ;;
          sys_exit 1
      end
  end.

(** The exit status of the process that runs [main()]: an uncaught exception
    ends the interpreter with status 1. *)
Definition exit_status {A} (r : result A) : Z :=
  match r with
  | Ret _ => 0
  | Raise _ => 1
  | Exit code => code
  end.

Definition initial : state := State [] [].

Definition run_main (con : console) (fs : filesystem) (order : set_order)
           (s : session) : result unit * state :=
  main con fs order s initial.

Unset Implicit Arguments.

(* ================================================================== *)
(** ** Vocabulary of the specification *)

(** [check_link] reads and writes nothing of the state; [link_status] is the
    string it returns. *)
Definition link_status (s : session) (url : value) : pystr :=
  match fst (check_link url s initial) with
  | Ret status => status
  | _ => []
  end.

Definition starts_with (p s : pystr) : Prop := exists rest, s = p ++ rest.
Definition contains (p s : pystr) : Prop :=
  exists before after, s = before ++ p ++ after.

(** The value a record has under a field name; an item that is not a [dict]
    has no fields. *)
Definition field_of (item : value) (field : pystr) : option value :=
  match item with
  | VDict d => dict_get field d
  | _ => None
  end.

Definition url_fields : list pystr := [u "url"; u "homepageUrl"].

(** [contributes content v]: the array text [content] decodes, and [v] is the
    non-empty (true) value of [url] or [homepageUrl] in one of its records. *)
Definition contributes (array_content : pystr) (v : value) : Prop :=
  exists data items item field,
    Json.loads (json_str_of array_content) = Some data /\
    elements data = Some items /\
    In item items /\ In field url_fields /\
    field_of item field = Some v /\ truthy v = true.

Definition contributed (found_arrays : list (list pystr)) (v : value) : Prop :=
  exists array_name array_content,
    In [array_name; array_content] found_arrays /\
    contributes array_content v.

(** [v] is in the set, up to the equality of the set. *)
Definition represented (v : value) (st : state) : Prop :=
  exists w, In w (urls st) /\ hash_key w = hash_key v.

Definition item_body (item : value) : M unit :=
  add_field item (u "url") ;; add_field item (u "homepageUrl").

Definition is_broken (s : session) (url : value) : bool :=
  negb (pystr_eqb (link_status s url) OK).

(** The two lines a URL gets on the console. *)
Definition check_lines (s : session) (n : nat) (p : nat * value)
  : list event :=
  [SayChecking (fst p + 1) n (snd p);
   if is_broken s (snd p) then SayStatus (link_status s (snd p)) else SayOK].

Definition broken_of (s : session) (l : list value) : list (value * pystr) :=
  flat_map (fun url => if is_broken s url then [(url, link_status s url)]
                       else []) l.

Definition summary (broken_links : list (value * pystr)) : list event :=
  SayComplete ::
  match broken_links with
  | [] => [SayAllWorking]
  | _ :: _ =>
      SayFoundBroken (length broken_links) ::
      map (fun p => SayBroken (fst p) (snd p)) broken_links
  end.

(** The report of a run, read off the console: every "Checking" line with the
    status line printed after it. *)
Fixpoint report (log : list event) : list (value * pystr) :=
  match log with
  | [] => []
  | SayChecking _ _ url :: rest =>
      match rest with
      | SayStatus status :: _ => (url, status) :: report rest
      | SayOK :: _ => (url, OK) :: report rest
      | _ => report rest
      end
  | _ :: rest => report rest
  end.

(* ================================================================== *)
(** ** What a piece of the extraction may do to the state *)

Definition is_checking (ev : event) : bool :=
  match ev with SayChecking _ _ _ => true | _ => false end.

(** [step P st st']: from [st] to [st'] the console only grew, by lines other
    than "Checking ...", and the set only grew, by values that satisfy [P];
    keys that were pairwise different still are. *)
Record step (P : value -> Prop) (st st' : state) : Prop := Step {
  step_out : exists evs, stdout st' = stdout st ++ evs /\
                         Forall (fun ev => is_checking ev = false) evs;
  step_urls : exists more, urls st' = urls st ++ more /\ Forall P more;
  step_nodup : NoDup (map hash_key (urls st)) ->
               NoDup (map hash_key (urls st'))
}.

(** [steps P m]: [m] only makes such steps and never ends in [sys.exit]. *)
Definition steps {A} (P : value -> Prop) (m : M A) : Prop :=
  forall st r st', m st = (r, st') ->
                   step P st st' /\ forall c, r <> Exit c.

(* ================================================================== *)
(** ** Trailing commas: the substitutions and the tokenizer, written out *)

Fixpoint skip_space (s : pystr) : pystr :=
  match s with
  | x :: t => if isspace x then skip_space t else s
  | [] => []
  end.

(** [s] ends in a comma followed by nothing but white space. *)
Fixpoint dangling (s : pystr) : bool :=
  match s with
  | [] => false
  | x :: t => (char_eqb x (ch ",") && forallb isspace t) || dangling t
  end.

(** What follows the white space at the head of [s] is not [close]. *)
Definition blocked (close : char) (s : pystr) : Prop :=
  match skip_space s with
  | [] => True
  | y :: _ => char_eqb close y = false
  end.

(** The pattern [,\s*close] at the head of [s], written out: what follows the
    match, if there is one. *)
Definition trailing_at (close : char) (s : pystr) : option pystr :=
  match s with
  | x :: t =>
      if char_eqb (ch ",") x then
        match skip_space t with
        | y :: rest => if char_eqb close y then Some rest else None
        | [] => None
        end
      else None
  | [] => None
  end.

(** [re.sub] with the pattern [,\s*close] and the replacement [close], from
    the middle of a scan. *)
Definition strip (close : char) (k : nat) (s : pystr) : pystr :=
  sub_from (trailing_comma close) [close] k s.

(** The quote replacement of lines 43. *)
Definition requote (s : pystr) : pystr :=
  replace_char (ch "`") [dquote] (replace_char (ch "'") [dquote] s).

Definition is_closer (c : char) : Prop := c = rbrace \/ c = rbracket.

(** The tokenizer run over a prefix of the text: the tokens completed and the
    state reached. *)
Fixpoint lex_prefix (m : Json.mode) (s : pystr)
  : option (list Json.token * Json.mode) :=
  match s with
  | [] => Some ([], m)
  | c :: s' =>
      match Json.lex_step m c with
      | Some (ts, m') =>
          match lex_prefix m' s' with
          | Some (ts', m'') => Some (ts ++ ts', m'')
          | None => None
          end
      | None => None
      end
  end.

(** The state is between tokens or in a number or literal, not in a
    string. *)
Definition outside_string (m : Json.mode) : bool :=
  match m with
  | Json.Top | Json.InAtom _ => true
  | _ => false
  end.

(** Reading [s] from the start of a JSON text ends inside a string. *)
Definition ends_in_string (s : pystr) : bool :=
  match lex_prefix Json.Top s with
  | Some (_, m) => negb (outside_string m)
  | None => false
  end.

(* ================================================================== *)
(** ** Where the characters of decoded strings come from *)

(** The characters of all strings in a value, keys included. *)
Fixpoint value_chars (v : value) : list char :=
  match v with
  | VStr s => s
  | VList l => flat_map value_chars l
  | VDict d => flat_map (fun kv => fst kv ++ value_chars (snd kv)) d
  | _ => []
  end.

Definition tok_chars (t : Json.token) : list char :=
  match t with
  | Json.TStr s => s
  | Json.TAtom v => value_chars v
  | _ => []
  end.

Definition toks_chars (ts : list Json.token) : list char :=
  flat_map tok_chars ts.

(** What a successful decoding step returns: fewer tokens than it got, all
    of them tokens it got, and a value whose characters stood in the tokens
    (or in the elements read before). *)
Definition decoded_from (extra : list char) (ts : list Json.token)
           (v : value) (r : list Json.token) : Prop :=
  length r < length ts /\
  (forall x, In x (toks_chars r) -> In x (toks_chars ts)) /\
  (forall x, In x (value_chars v) -> In x (toks_chars ts) \/ In x extra).

Definition plain (m : Json.mode) : bool :=
  match m with
  | Json.Top | Json.InAtom _ | Json.InStr _ None => true
  | _ => false
  end.

Definition pending (m : Json.mode) : list char :=
  match m with
  | Json.InStr acc _ => acc
  | _ => []
  end.

(* ================================================================== *)
(** ** Example worlds and documents *)

Definition single_file (html_content : pystr) : filesystem :=
  fun file_path =>
    if pystr_eqb file_path HTML_FILE_PATH then Some html_content else None.


(** A process whose sets iterate in insertion order. *)
Definition insertion_order : set_order :=
  SetOrder (fun s => s) (@Permutation_refl value).

(** A process whose sets iterate in reverse insertion order. *)
Definition reverse_order : set_order :=
  SetOrder (@rev value) (fun s => Permutation_sym (Permutation_rev s)).

(** A network where [good.example] answers 200, [bad.example] answers 404 and
    every other host times out. *)
Definition example_session : session :=
  Session (fun url =>
    match url with
    | VStr s =>
        if str_contains (u "good.example") s then inl (Response 200)
        else if str_contains (u "bad.example") s then inl (Response 404)
        else inr (Exn (RequestException (u "ConnectTimeout")) (u "timed out"))
    | _ => inr (Exn (OtherException (u "MissingSchema")) (u "Invalid URL"))
    end).

(** The example document of the specification, in the quoting style of the
    page (the script turns the single quotes into double quotes). *)
Definition example_doc : pystr :=
  u "<script>const institutes = [{'name':'A','url':'https://good.example'},{'name':'B','url':'https://bad.example'}];</script>".

Definition example_urls : list value :=
  [VStr (u "https://good.example"); VStr (u "https://bad.example")].

(** A page whose second array is cut short by a stray bracket. *)
Definition half_broken_doc : pystr :=
  u "const institutes = [{'url':'https://good.example'}]; const jobBoards = [{'url':'https://bad.example'}, ]]; const institutes = [{'homepageUrl':'https://slow.example'}];".

(** The JSON string literal of an ASCII text. *)
Definition quoted (s : string) : pystr := dquote :: u s ++ [dquote].

Definition declared (array_content : pystr) : pystr :=
  u "const institutes = " ++ array_content ++ u ";".

(** The example of the specification with a comma before the last brace. *)
Definition example_array_start : pystr :=
  u "[{'name':'A','url':'https://good.example'},{'name':'B','url':'https://bad.example'".

(** A strictly valid JSON array in which two strings hold single quotes. *)
Definition quote_shift_strict : pystr :=
  u "[{" ++ quoted "a" ++ u ":" ++ quoted "b','url':" ++ u " }, {"
    ++ quoted ",'z" ++ u ":1}]".

(** The same array with a comma before the first closing brace. *)
Definition quote_shift_lenient : pystr :=
  u "[{" ++ quoted "a" ++ u ":" ++ quoted "b','url':" ++ u ", }, {"
    ++ quoted ",'z" ++ u ":1}]".

(* ================================================================== *)
(** ** Vocabulary of the further properties *)

(** [keeps I m]: whatever way [m] ends, it keeps the property [I] of the
    state. *)
Definition keeps {A} (I : state -> Prop) (m : M A) : Prop :=
  forall st r st', m st = (r, st') -> I st -> I st'.

(** [raises_only C m]: an exception that leaves [m] satisfies [C]. *)
Definition raises_only {A} (C : exn -> Prop) (m : M A) : Prop :=
  forall st e st', m st = (Raise e, st') -> C e.

Definition is_TypeError (e : exn) : Prop := exn_class_of e = TypeError.

Definition hashable (v : value) : Prop := exists k, hash_key v = Some k.

(** What a pattern matches: [matches r s groups] when [r] matches the whole
    of [s] and its groups capture [groups], in the order they close. *)
Inductive matches : regex -> pystr -> list pystr -> Prop :=
| M_Lit (l : pystr) : matches (Lit l) l []
| M_Cls (c : cclass) (x : char) :
    in_class c x = true -> matches (Cls c) [x] []
| M_Seq (a b : regex) (s1 s2 : pystr) (g1 g2 : list pystr) :
    matches a s1 g1 -> matches b s2 g2 ->
    matches (Seq a b) (s1 ++ s2) (g1 ++ g2)
| M_AltL (a b : regex) (s : pystr) (g : list pystr) :
    matches a s g -> matches (Alt a b) s g
| M_AltR (a b : regex) (s : pystr) (g : list pystr) :
    matches b s g -> matches (Alt a b) s g
| M_Star (c : cclass) (s : pystr) :
    forallb (in_class c) s = true -> matches (Star c) s []
| M_LazyStar (c : cclass) (s : pystr) :
    forallb (in_class c) s = true -> matches (LazyStar c) s []
| M_Group (a : regex) (s : pystr) (g : list pystr) :
    matches a s g -> matches (Group a) s (g ++ [s]).

(** [s] begins with the two characters that end an array declaration. *)
Definition at_terminator (s : pystr) : bool :=
  match strip_prefix (u "];") s with
  | Some _ => true
  | None => false
  end.

(** The text of one array declaration, as the pattern of line 29 describes
    it: the word const, white space, one of the two names, an equals sign
    with optional white space around it, and a bracketed text followed by a
    semicolon. *)
Definition declaration (name text decl : pystr) : Prop :=
  exists ws1 ws2 ws3 mid,
    decl = u "const" ++ ws1 ++ name ++ ws2 ++ u "=" ++ ws3 ++ text ++ u ";" /\
    text = u "[" ++ mid ++ u "]" /\
    (name = u "institutes" \/ name = u "jobBoards") /\
    ws1 <> [] /\
    forallb isspace ws1 = true /\ forallb isspace ws2 = true /\
    forallb isspace ws3 = true.

(** The page holds a declaration somewhere. *)
Definition declares (html_content : pystr) : Prop :=
  exists before name text decl after,
    html_content = before ++ decl ++ after /\ declaration name text decl.

(** No closing bracket inside [text] is followed by a semicolon: the
    bracket that ends [text] is the first one that a semicolon can follow. *)
Definition ends_at_first_terminator (text : pystr) : Prop :=
  forall mid m1 m2,
    text = u "[" ++ mid ++ u "]" -> mid = m1 ++ m2 -> m2 <> [] ->
    at_terminator (m2 ++ u "];") = false.

(** What lines 52 to 55 need of an element for one field name: in a record
    the value of the field, when it is there and true, can be put in a set;
    a string does not hold the field name as a substring, nor a list as an
    element (the subscript with a string fails on both); nothing else
    supports [in]. *)
Definition field_ok (item : value) (field : pystr) : Prop :=
  match item with
  | VDict d =>
      forall v, dict_get field d = Some v -> truthy v = true -> hashable v
  | VStr s => str_contains field s = false
  | VList l => existsb (is_str field) l = false
  | _ => False
  end.

Definition accepted (item : value) : Prop :=
  field_ok item (u "url") /\ field_ok item (u "homepageUrl").

(** The two lines that line 57 and 58 print for an array whose text does
    not decode. *)
Definition warning_lines (found : list pystr) : list event :=
  match found with
  | [array_name; array_content] =>
      match Json.loads (json_str_of array_content) with
      | None => [SayWarning array_name;
                 SayErrorDetails (Exn JSONDecodeError [])]
      | Some _ => []
      end
  | _ => []
  end.

(** [m] prints nothing. *)
Definition silent {A} (m : M A) : Prop :=
  forall st r st', m st = (r, st') -> stdout st' = stdout st.

(** The failing entries of a report. *)
Definition failures (report : list (value * pystr)) : list (value * pystr) :=
  filter (fun p => negb (pystr_eqb (snd p) OK)) report.

(** The progress shown on the console: for every "Checking" line its number,
    the total it announces and its URL. *)
Fixpoint progress (log : list event) : list (nat * nat * value) :=
  match log with
  | [] => []
  | SayChecking i n url :: rest => (i, n, url) :: progress rest
  | _ :: rest => progress rest
  end.

(** Somewhere in [s] a comma is followed, after optional white space, by
    [close]. *)
Definition comma_before (close : char) (s : pystr) : Prop :=
  exists before ws after,
    s = before ++ ch "," :: ws ++ close :: after /\
    forallb isspace ws = true.

(** Nothing in [s] for lines 43 to 47 to change. *)
Definition clean (s : pystr) : Prop :=
  ~ In (ch "'") s /\ ~ In (ch "`") s /\
  ~ comma_before rbrace s /\ ~ comma_before rbracket s.

(** The array of the example document and the value it decodes to. *)
Definition example_array : pystr :=
  u "[{'name':'A','url':'https://good.example'},{'name':'B','url':'https://bad.example'}]".

Definition example_data : value :=
  VList [VDict [(u "name", VStr (u "A"));
                (u "url", VStr (u "https://good.example"))];
         VDict [(u "name", VStr (u "B"));
                (u "url", VStr (u "https://bad.example"))]].

(* ================================================================== *)
(** ** Consoles and what they show *)

Definition is_surrogate (c : char) : bool :=
  ((55296 <=? c) && (c <=? 57343))%N.

(** A console in UTF-8: every character but a lone surrogate. *)
Definition utf8_console : console :=
  Console (fun c => negb (is_surrogate c))
          (fun c H =>
             proj2 (negb_true_iff _)
               (proj2 (andb_false_iff _ _)
                  (or_introl (proj2 (N.leb_gt _ _)
                                (N.lt_trans _ _ _ H
                                   (eq_refl : (128 < 55296)%N)))))).


(** The lines of [lines] that reach the console when they are printed one
    after the other: those before the first one the console cannot
    encode. *)
Fixpoint shown (con : console) (lines : list event) : list event :=
  match lines with
  | ev :: rest => if printable con ev then ev :: shown con rest else []
  | [] => []
  end.

(** What [main] prints after the extraction has returned the list [l] when
    no line fails: two lines per URL and the closing block. *)
Definition run_lines (s : session) (l : list value) : list event :=
  match l with
  | [] => [SayNoUrls]
  | _ :: _ =>
      flat_map (check_lines s (length l)) (enumerate l)
        ++ summary (broken_of s l)
  end.




(** A page whose only link works. *)
Definition good_doc : pystr :=
  declared (u "[{'url':'https://good.example'}]").

(* ================================================================== *)
(** ** Escapes that spell a character *)

(** The number a run of hexadecimal digits spells, as the decoder reads it
    digit by digit. *)
Fixpoint hex_code_from (acc : N) (ds : pystr) : option N :=
  match ds with
  | [] => Some acc
  | d :: rest =>
      match Json.hex_val d with
      | Some v => hex_code_from (16 * acc + v) rest
      | None => None
      end
  end.

Definition hex_code (ds : pystr) : option N := hex_code_from 0 ds.

(** [s] spells the character [x] as an escape: a backslash, the letter u
    and four hexadecimal digits that are the code of [x] (for the single
    quote the digits 0027, for the backtick 0060). *)
Definition spelled (x : char) (s : pystr) : Prop :=
  exists before ds after,
    s = before ++ backslash :: ch "u" :: ds ++ after /\
    length ds = 4 /\ hex_code ds = Some x.

(** The characters a string under construction holds came from the text
    [full], literally or spelled as an escape. *)
Definition carries (x : char) (full acc : pystr) (hi : option char)
  : Prop :=
  In x (Json.flush acc hi) -> In x full \/ spelled x full.

(** The state of the tokenizer after the prefix [pre] of [full], for the
    character [x]: what the string under construction holds, and where an
    escape under way began. *)
Definition tracked (x : char) (full pre : pystr) (m : Json.mode) : Prop :=
  match m with
  | Json.Top | Json.InAtom _ => True
  | Json.InStr acc hi => carries x full acc hi
  | Json.InEsc acc hi =>
      carries x full acc hi /\ exists p0, pre = p0 ++ [backslash]
  | Json.InHex acc hi code cnt =>
      carries x full acc hi /\
      exists p0 ds,
        pre = p0 ++ backslash :: ch "u" :: ds /\
        length ds = cnt /\ hex_code ds = Some code
  end.

(** A page whose URL spells a single quote as an escape. *)
Definition escaped_quote_array : pystr :=
  u "[{'url':'https://good.example/a" ++ backslash :: u "u0027b'}]".

Definition escaped_quote_doc : pystr := declared escaped_quote_array.

(* ================================================================== *)
(** ** Reasoning about runs *)

Section MonadLaws.

Context {A B : Type}.

Lemma bind_ret_inv (m : M A) (f : A -> M B) st b st' :
  bind m f st = (Ret b, st') ->
  exists a st1, m st = (Ret a, st1) /\ f a st1 = (Ret b, st').
Proof.
  unfold bind. destruct (m st) as [[a | e | c] st1]; intros H;
    try discriminate. eauto.
Qed.

Lemma bind_of_ret (m : M A) (f : A -> M B) st a st1 :
  m st = (Ret a, st1) -> bind m f st = f a st1.
Proof. unfold bind. intros ->. reflexivity. Qed.

Lemma bind_of_raise (m : M A) (f : A -> M B) st e st1 :
  m st = (Raise e, st1) -> bind m f st = (Raise e, st1).
Proof. unfold bind. intros ->. reflexivity. Qed.

Lemma bind_of_exit (m : M A) (f : A -> M B) st c st1 :
  m st = (Exit c, st1) -> bind m f st = (Exit c, st1).
Proof. unfold bind. intros ->. reflexivity. Qed.

End MonadLaws.

Lemma for_each_app {A} (l1 l2 : list A) (body : A -> M unit) st :
  for_each (l1 ++ l2) body st =
  bind (for_each l1 body) (fun _ => for_each l2 body) st.
Proof.
  revert st. induction l1 as [| x l1 IH]; intros st; simpl.
  - reflexivity.
  - unfold bind. destruct (body x st) as [[[] | e | c] st1];
      try reflexivity. rewrite IH. reflexivity.
Qed.

(** A property of the state that every round of a loop keeps is kept by the
    loop, however it ends. *)
Lemma for_each_invariant {A} (I : state -> Prop) (l : list A)
      (body : A -> M unit) :
  (forall x st r st', In x l -> body x st = (r, st') -> I st -> I st') ->
  forall st r st', for_each l body st = (r, st') -> I st -> I st'.
Proof.
  induction l as [| x l IH]; intros Hbody st r st' Hrun HI; simpl in Hrun.
  - inversion Hrun; subst; assumption.
  - unfold bind in Hrun. destruct (body x st) as [[[] | e | c] st1] eqn:Hx.
    + eapply IH; eauto.
      * intros y s r0 s' Hy. apply Hbody. now right.
      * eapply Hbody; eauto. now left.
    + inversion Hrun; subst. eapply Hbody; eauto. now left.
    + inversion Hrun; subst. eapply Hbody; eauto. now left.
Qed.

(** What a round establishes when it returns, and later rounds do not
    destroy, holds for every element once the loop has returned. *)
Lemma for_each_establishes {A} (Q : A -> state -> Prop) (l : list A)
      (body : A -> M unit) :
  (forall x st st', In x l -> body x st = (Ret tt, st') -> Q x st') ->
  (forall x y st r st', In y l -> body y st = (r, st') -> Q x st -> Q x st') ->
  forall st st', for_each l body st = (Ret tt, st') ->
                 forall x, In x l -> Q x st'.
Proof.
  induction l as [| y l IH]; intros Hest Hkeep st st' Hrun x Hx.
  - destruct Hx.
  - simpl in Hrun. apply bind_ret_inv in Hrun as ([] & st1 & Hy & Hrest).
    destruct Hx as [<- | Hx].
    + assert (Q y st1) as HQ by (eapply Hest; eauto; now left).
      eapply (for_each_invariant (Q y)); [| exact Hrest | exact HQ].
      intros z s r s' Hz. apply Hkeep. now right.
    + eapply IH; eauto.
      * intros z s s' Hz. apply Hest. now right.
      * intros z w s r s' Hw. apply Hkeep. now right.
Qed.

(* ================================================================== *)
(** ** Printing *)

Lemma print_shown (con : console) (ev : event) (st : state) :
  printable con ev = true ->
  print con ev st = (Ret tt, State (stdout st ++ [ev]) (urls st)).
Proof. unfold print. now intros ->. Qed.

Lemma print_refused (con : console) (ev : event) (st : state) :
  printable con ev = false ->
  print con ev st = (Raise (Exn UnicodeEncodeError []), st).
Proof. unfold print. now intros ->. Qed.

(** A line whose data is ASCII is shown on every console. *)
Lemma printable_ascii (con : console) (ev : event) :
  Forall (fun c => (c < 128)%N) (beyond_ascii ev) -> printable con ev = true.
Proof.
  intros H. unfold printable. apply forallb_forall. intros c Hc.
  rewrite Forall_forall in H. apply encodes_ascii. now apply H.
Qed.

Lemma html_path_printable (con : console) :
  printable con (SayParsing HTML_FILE_PATH) = true.
Proof.
  apply printable_ascii. cbn [beyond_ascii].
  repeat (constructor; [reflexivity |]). constructor.
Qed.

Lemma array_name_printable (con : console) (array_name : pystr) :
  array_name = u "institutes" \/ array_name = u "jobBoards" ->
  printable con (SayWarning array_name) = true.
Proof.
  intros [-> | ->]; apply printable_ascii; cbn [beyond_ascii];
    repeat (constructor; [reflexivity |]); constructor.
Qed.

Lemma shown_app (con : console) (l1 l2 : list event) :
  forallb (printable con) l1 = true ->
  shown con (l1 ++ l2) = l1 ++ shown con l2.
Proof.
  induction l1 as [| ev l1 IH]; [reflexivity |]. cbn [forallb app shown].
  intros H. apply andb_prop in H as [-> H]. now rewrite IH.
Qed.

Lemma shown_all (con : console) (l : list event) :
  forallb (printable con) l = true -> shown con l = l.
Proof.
  intros H. rewrite <- (app_nil_r l) at 1. rewrite shown_app by assumption.
  apply app_nil_r.
Qed.

Lemma shown_prefix (con : console) (l : list event) :
  exists rest, l = shown con l ++ rest.
Proof.
  induction l as [| ev l [rest IH]]; [now exists [] |]. cbn [shown].
  destruct (printable con ev); [| now exists (ev :: l)].
  exists rest. cbn [app]. now f_equal.
Qed.

Lemma shown_all_iff (con : console) (l : list event) :
  shown con l = l <-> forallb (printable con) l = true.
Proof.
  split; [| apply shown_all].
  induction l as [| ev l IH]; [reflexivity |]. cbn [shown forallb].
  destruct (printable con ev); [| discriminate].
  intros H. injection H as H. now apply IH.
Qed.

(* ================================================================== *)
(** ** The link check *)

Lemma check_link_cases (url : value) (s : session) (st : state) :
  check_link url s st =
  (Ret match head s url with
       | inl r =>
           if (400 <=? status_code r)%Z
           then u "FAILED: Status " ++ str_of_Z (status_code r)
           else OK
       | inr e =>
           if is_RequestException e
           then u "FAILED: Request Error (" ++ class_name e ++ u ")"
           else u "FAILED: An unexpected error occurred ("
                  ++ exn_str e ++ u ")"
       end, st).
Proof.
  unfold check_link, try_except, bind, session_head.
  destruct (head s url) as [r | e]; simpl.
  - destruct (400 <=? status_code r)%Z; reflexivity.
  - destruct (is_RequestException e); reflexivity.
Qed.

Lemma check_link_status (url : value) (s : session) (st : state) :
  check_link url s st = (Ret (link_status s url), st).
Proof.
  unfold link_status. rewrite (check_link_cases url s initial). simpl.
  apply check_link_cases.
Qed.

(** C2.  [check_link] never raises: whatever [session.head] does with the
    URL (answer with any status code, raise a [RequestException], raise any
    other exception), the call returns a status string and leaves the state
    of the run alone. *)
Theorem check_link_never_raises (url : value) (s : session) (st : state) :
  exists status : pystr, check_link url s st = (Ret status, st).
Proof.
  exists (link_status s url). apply check_link_status.
Qed.

(** C3.  Classification of the probe: a response with a status code below
    400 gives "OK"; a response with a status code of 400 or more gives
    "FAILED: Status {code}", so that 404 gives a string containing "404" and
    200 gives "OK"; a [RequestException] (timeout, DNS failure, refused
    connection, TLS failure are subclasses) gives
    "FAILED: Request Error ({class name})", which begins with "FAILED". *)
Theorem check_link_classification (url : value) (s : session) (st : state) :
  (forall r, head s url = inl r -> (status_code r < 400)%Z ->
             check_link url s st = (Ret (u "OK"), st)) /\
  (forall r, head s url = inl r -> (400 <= status_code r)%Z ->
             check_link url s st =
             (Ret (u "FAILED: Status " ++ str_of_Z (status_code r)), st)) /\
  (head s url = inl (Response 404) ->
   exists status, check_link url s st = (Ret status, st) /\
                  contains (u "404") status) /\
  (head s url = inl (Response 200) ->
   check_link url s st = (Ret (u "OK"), st)) /\
  (forall e, head s url = inr e -> is_RequestException e = true ->
             check_link url s st =
             (Ret (u "FAILED: Request Error (" ++ class_name e ++ u ")"), st)
             /\ starts_with (u "FAILED")
                  (u "FAILED: Request Error (" ++ class_name e ++ u ")")).
Proof.
  rewrite check_link_cases. split; [| split; [| split; [| split]]].
  - intros r -> Hlt. destruct (Z.leb_spec 400 (status_code r)); [lia |].
    reflexivity.
  - intros r -> Hge. destruct (Z.leb_spec 400 (status_code r)); [| lia].
    reflexivity.
  - intros ->. eexists. split; [reflexivity |].
    exists (u "FAILED: Status "), []. reflexivity.
  - intros ->. reflexivity.
  - intros e -> Hreq. rewrite Hreq. split; [reflexivity |].
    exists (u ": Request Error (" ++ class_name e ++ u ")"). reflexivity.
Qed.

(* ================================================================== *)
(** ** Steps compose *)

Lemma step_refl P st : step P st st.
Proof.
  split.
  - exists []. now rewrite app_nil_r.
  - exists []. now rewrite app_nil_r.
  - auto.
Qed.

Lemma step_trans P st1 st2 st3 :
  step P st1 st2 -> step P st2 st3 -> step P st1 st3.
Proof.
  intros [(e1 & Ho1 & Hq1) (m1 & Hu1 & Hp1) Hn1]
         [(e2 & Ho2 & Hq2) (m2 & Hu2 & Hp2) Hn2].
  split.
  - exists (e1 ++ e2). rewrite Ho2, Ho1, app_assoc. split; [reflexivity |].
    apply Forall_app; auto.
  - exists (m1 ++ m2). rewrite Hu2, Hu1, app_assoc. split; [reflexivity |].
    apply Forall_app; auto.
  - auto.
Qed.

Lemma step_weaken (P Q : value -> Prop) st st' :
  (forall v, P v -> Q v) -> step P st st' -> step Q st st'.
Proof.
  intros HPQ [Ho (m & Hu & Hp) Hn]. split; auto.
  exists m. split; [assumption |]. eapply Forall_impl; eauto.
Qed.

Section Steps.

Variable P : value -> Prop.

Lemma steps_ret {A} (a : A) : steps P (ret a).
Proof.
  intros st r st' H. inversion H; subst. split; [apply step_refl |].
  discriminate.
Qed.

Lemma steps_raise {A} (e : exn) : steps P (@raise A e).
Proof.
  intros st r st' H. inversion H; subst. split; [apply step_refl |].
  discriminate.
Qed.

Lemma steps_bind_dep {A B} (m : M A) (f : A -> M B) :
  steps P m ->
  (forall a st st1, m st = (Ret a, st1) -> steps P (f a)) ->
  steps P (bind m f).
Proof.
  intros Hm Hf st r st' H. unfold bind in H.
  destruct (m st) as [[a | e | c] st1] eqn:E; destruct (Hm _ _ _ E) as [S1 N1].
  - destruct (Hf a _ _ E _ _ _ H) as [S2 N2]. split; [| assumption].
    eapply step_trans; eauto.
  - inversion H; subst. split; [assumption | discriminate].
  - exfalso. now apply (N1 c).
Qed.

Lemma steps_bind {A B} (m : M A) (f : A -> M B) :
  steps P m -> (forall a, steps P (f a)) -> steps P (bind m f).
Proof. intros Hm Hf. apply steps_bind_dep; auto. Qed.

Lemma steps_print (con : console) (ev : event) :
  is_checking ev = false -> steps P (print con ev).
Proof.
  intros Hq st r st' H. unfold print in H.
  destruct (printable con ev); inversion H; subst;
    (split; [| discriminate]); [| apply step_refl].
  split; simpl; auto.
  - exists [ev]. auto.
  - exists []. now rewrite app_nil_r.
Qed.

Lemma steps_try_except {A} (body : M A) (clauses : list (clause A)) :
  steps P body ->
  (forall c e, In c clauses -> steps P (snd c e)) ->
  steps P (try_except body clauses).
Proof.
  intros Hb Hc st r st' H. unfold try_except in H.
  destruct (body st) as [[a | e | c] st1] eqn:E; destruct (Hb _ _ _ E) as [S1 N1].
  - inversion H; subst. split; [assumption | discriminate].
  - destruct (select_clause clauses e) as [h |] eqn:Es.
    + assert (steps P h) as Hh.
      { clear - Hc Es. induction clauses as [| [cat hd] cl IH]; simpl in Es.
        - discriminate.
        - destruct (cat e).
          + inversion Es; subst. apply (Hc (cat, hd) e). now left.
          + apply IH; auto. intros c0 e0 Hin. apply Hc. now right. }
      destruct (Hh _ _ _ H) as [S2 N2]. split; [| assumption].
      eapply step_trans; eauto.
    + inversion H; subst. split; [assumption | discriminate].
  - exfalso. now apply (N1 c).
Qed.

Lemma steps_for_each {A} (l : list A) (body : A -> M unit) :
  (forall x, In x l -> steps P (body x)) -> steps P (for_each l body).
Proof.
  induction l as [| x l IH]; intros Hb; simpl.
  - apply steps_ret.
  - apply steps_bind.
    + apply Hb. now left.
    + intros _. apply IH. intros y Hy. apply Hb. now right.
Qed.

Lemma steps_json_loads (s : pystr) : steps P (json_loads s).
Proof.
  unfold json_loads. destruct (Json.loads s); [apply steps_ret |].
  apply steps_raise.
Qed.

Lemma steps_py_iter (data : value) : steps P (py_iter data).
Proof.
  unfold py_iter. destruct (elements data); [apply steps_ret |].
  apply steps_raise.
Qed.

Lemma steps_py_in (k : pystr) (item : value) : steps P (py_in k item).
Proof.
  destruct item; simpl; try apply steps_ret; apply steps_raise.
Qed.

Lemma steps_py_getitem (item : value) (k : pystr) :
  steps P (py_getitem item k).
Proof.
  destruct item; simpl; try apply steps_raise.
  destruct (dict_get k d); [apply steps_ret | apply steps_raise].
Qed.

End Steps.

Lemma set_mem_false (k : key) (s : pyset) :
  set_mem k s = false -> ~ In (Some k) (map hash_key s).
Proof.
  unfold set_mem. induction s as [| w s IH]; simpl; intros H Hin.
  - destruct Hin.
  - apply orb_false_iff in H as [Hw H]. destruct Hin as [E | Hin].
    + rewrite E in Hw. unfold key_eqb in Hw.
      destruct (key_eq_dec k k); [discriminate | congruence].
    + now apply IH.
Qed.

Lemma set_mem_true (k : key) (s : pyset) :
  set_mem k s = true -> exists w, In w s /\ hash_key w = Some k.
Proof.
  unfold set_mem. intros H. apply existsb_exists in H as (w & Hin & Hw).
  exists w. split; [assumption |]. destruct (hash_key w) as [k' |];
    [| discriminate]. unfold key_eqb in Hw.
  destruct (key_eq_dec k' k); [congruence | discriminate].
Qed.

Lemma steps_urls_add (P : value -> Prop) (v : value) :
  P v -> steps P (urls_add v).
Proof.
  intros Hv st r st' H. unfold urls_add in H.
  destruct (hash_key v) as [k |] eqn:Ek.
  - destruct (set_mem k (urls st)) eqn:Em; inversion H; subst;
      (split; [| discriminate]); [apply step_refl |].
    split; simpl.
    + exists []. now rewrite app_nil_r.
    + exists [v]. auto.
    + intros Hn. rewrite map_app. simpl. rewrite Ek.
      apply set_mem_false in Em. apply NoDup_app; auto.
      * constructor; [intros [] | constructor].
      * intros a Ha [<- | []]. contradiction.
  - inversion H; subst. split; [apply step_refl | discriminate].
Qed.

(* ================================================================== *)
(** ** The records of a document and what they contribute *)

Lemma represented_step P v st st' :
  step P st st' -> represented v st -> represented v st'.
Proof.
  intros [_ (more & Hu & _) _] (w & Hin & Hk). exists w. split; [| assumption].
  rewrite Hu. apply in_or_app. now left.
Qed.

Lemma py_in_field (k : pystr) (item : value) st st1 :
  py_in k item st = (Ret true, st1) ->
  forall v st2 st3, py_getitem item k st2 = (Ret v, st3) ->
                    field_of item k = Some v.
Proof.
  intros _ v st2 st3 H. destruct item; simpl in *; try discriminate.
  destruct (dict_get k d); inversion H; subst. reflexivity.
Qed.

Lemma add_field_steps (item : value) (field : pystr) :
  steps (fun v => field_of item field = Some v /\ truthy v = true)
        (add_field item field).
Proof.
  unfold add_field. apply steps_bind_dep; [apply steps_py_in |].
  intros [] st st1 Hin; [| apply steps_ret].
  apply steps_bind_dep; [apply steps_py_getitem |].
  intros v st2 st3 Hget. destruct (truthy v) eqn:Ht; [| apply steps_ret].
  apply steps_urls_add. split; [| assumption].
  eapply py_in_field; eauto.
Qed.

Lemma add_field_complete (item : value) (field : pystr) st st' :
  add_field item field st = (Ret tt, st') ->
  forall v, field_of item field = Some v -> truthy v = true ->
            represented v st'.
Proof.
  intros H v Hf Ht. destruct item; simpl in Hf; try discriminate.
  unfold add_field, bind in H. simpl in H. unfold ret in H. rewrite Hf in H.
  rewrite Ht in H. unfold urls_add in H.
  destruct (hash_key v) as [k |] eqn:Ek; [| discriminate].
  destruct (set_mem k (urls st)) eqn:Em; inversion H; subst.
  - apply set_mem_true in Em as (w & Hin & Hw). exists w. split; congruence.
  - exists v. simpl. split; [| reflexivity]. apply in_or_app. right. now left.
Qed.

Lemma item_body_steps (item : value) :
  steps (fun v => exists field, In field url_fields /\
                                field_of item field = Some v /\
                                truthy v = true)
        (item_body item).
Proof.
  unfold item_body. apply steps_bind; [| intros _];
    (intros st r st' H; destruct (add_field_steps _ _ _ _ _ H) as [S N];
     split; [| assumption]; eapply step_weaken; [| exact S]);
    intros v [Hf Ht]; eexists; (split; [| split; eassumption]);
    simpl; auto.
Qed.

Lemma item_body_complete (item : value) st st' :
  item_body item st = (Ret tt, st') ->
  forall field v, In field url_fields -> field_of item field = Some v ->
                  truthy v = true -> represented v st'.
Proof.
  intros H field v Hin Hf Ht. unfold item_body in H.
  apply bind_ret_inv in H as ([] & st1 & H1 & H2).
  destruct Hin as [<- | [<- | []]].
  - eapply represented_step.
    + exact (proj1 (add_field_steps _ _ _ _ _ H2)).
    + eapply add_field_complete; eauto.
  - eapply add_field_complete; eauto.
Qed.

Lemma try_body_unfold (array_content : pystr) :
  try_body array_content =
  (data <- json_loads (json_str_of array_content) ;;
   items <- py_iter data ;;
   for_each items item_body).
Proof. reflexivity. Qed.

Lemma try_body_steps (array_content : pystr) :
  steps (contributes array_content) (try_body array_content).
Proof.
  rewrite try_body_unfold.
  apply steps_bind_dep; [apply steps_json_loads |]. intros data st st1 Hd.
  apply steps_bind_dep; [apply steps_py_iter |]. intros items st2 st3 Hi.
  apply steps_for_each. intros item Hitem st4 r st5 H.
  destruct (item_body_steps _ _ _ _ H) as [S N]. split; [| assumption].
  eapply step_weaken; [| exact S].
  intros v (field & Hfield & Hf & Ht).
  exists data, items, item, field. repeat split; auto.
  - unfold json_loads in Hd.
    destruct (Json.loads (json_str_of array_content)); inversion Hd.
    reflexivity.
  - unfold py_iter in Hi. destruct (elements data); inversion Hi.
    reflexivity.
Qed.

Lemma try_body_complete (array_content : pystr) st st' :
  try_body array_content st = (Ret tt, st') ->
  forall v, contributes array_content v -> represented v st'.
Proof.
  rewrite try_body_unfold.
  intros H v (data & items & item & field & Hd & He & Hitem & Hfield & Hf & Ht).
  unfold json_loads, py_iter in H. rewrite Hd in H.
  unfold bind at 1 in H. simpl in H. rewrite He in H.
  unfold bind at 1 in H. simpl in H.
  set (Q := fun (item : value) (st : state) =>
              forall field v, In field url_fields ->
                field_of item field = Some v -> truthy v = true ->
                represented v st).
  assert (Q item st') as HQ; [| now apply (HQ field v)].
  apply (@for_each_establishes _ Q items item_body) with (st := st); auto.
  - intros x s s' _ Hx f w Hfw Hw Htw. eapply item_body_complete; eauto.
  - intros x y s r s' _ Hy Hx f w Hfw Hw Htw.
    eapply represented_step;
      [exact (proj1 (item_body_steps _ _ _ _ Hy)) | now apply (Hx f w)].
Qed.

(** One round of the loop over the arrays: a decode error is reported and the
    round ends normally with the set as it was. *)
Lemma process_array_decode_error (con : console)
      (array_name array_content : pystr) st :
  printable con (SayWarning array_name) = true ->
  Json.loads (json_str_of array_content) = None ->
  process_array con [array_name; array_content] st =
  (Ret tt,
   State (stdout st ++ [SayWarning array_name;
                        SayErrorDetails (Exn JSONDecodeError [])])
         (urls st)).
Proof.
  intros Hp Hd. unfold process_array, try_except, try_body, json_loads.
  rewrite Hd. unfold bind at 1. simpl.
  unfold bind. rewrite (print_shown _ _ _ Hp).
  rewrite print_shown by reflexivity. cbn [stdout urls].
  now rewrite <- app_assoc.
Qed.

(** When the console cannot write the name of the array, the warning is
    the end of the round. *)
Lemma process_array_warning_refused (con : console)
      (array_name array_content : pystr) st :
  printable con (SayWarning array_name) = false ->
  Json.loads (json_str_of array_content) = None ->
  process_array con [array_name; array_content] st =
  (Raise (Exn UnicodeEncodeError []), st).
Proof.
  intros Hp Hd. unfold process_array, try_except, try_body, json_loads.
  rewrite Hd. unfold bind at 1. simpl.
  unfold bind. now rewrite (print_refused _ _ _ Hp).
Qed.

Lemma process_array_decoded
      (con : console) (array_name array_content : pystr) data st :
  Json.loads (json_str_of array_content) = Some data ->
  process_array con [array_name; array_content] st =
  (items <- py_iter data ;; for_each items item_body) st.
Proof.
  intros Hd. unfold process_array, try_except. rewrite try_body_unfold.
  unfold json_loads. rewrite Hd. unfold bind at 1. simpl.
  assert (steps (fun _ => True) (items <- py_iter data;; for_each items item_body))
    as Hs.
  { apply steps_bind; [apply steps_py_iter |]. intros items.
    apply steps_for_each. intros item _ s r s' H.
    destruct (item_body_steps _ _ _ _ H) as [S N]. split; [| assumption].
    eapply step_weaken; [| exact S]. auto. }
  destruct ((items <- py_iter data;; for_each items item_body) st)
    as [[[] | e | c] st1] eqn:E; try reflexivity.
  assert (is_JSONDecodeError e = false) as ->; [| reflexivity].
  clear Hs. unfold bind, py_iter in E.
  destruct (elements data) as [items |]; simpl in E.
  - revert st E. induction items as [| item items IH]; intros st E;
      simpl in E; [discriminate |].
    unfold bind in E.
    destruct (item_body item st) as [[[] | e1 | c1] st2] eqn:E1;
      try discriminate; [eapply IH; eauto |].
    inversion E; subst. clear - E1. unfold item_body, bind in E1.
    assert (forall f s e s', add_field item f s = (Raise e, s') ->
                             is_JSONDecodeError e = false) as Hadd.
    { clear. intros f s e s' H. unfold add_field, bind in H.
      destruct item; simpl in H; inversion H; try reflexivity.
      - destruct (str_contains f s0); inversion H; reflexivity.
      - destruct (existsb (is_str f) l); inversion H; reflexivity.
      - destruct (dict_get f d) as [v |]; simpl in H; [| discriminate].
        destruct (truthy v); [| discriminate]. unfold urls_add in H.
        destruct (hash_key v); [destruct (set_mem k (urls s)) |];
          inversion H; reflexivity. }
    destruct (add_field item (u "url") st) as [[[] | e2 | c2] st3] eqn:E2.
    + eapply Hadd; eauto.
    + inversion E1; subst. eapply Hadd; eauto.
    + discriminate.
  - inversion E; subst. reflexivity.
Qed.

Lemma process_array_steps
      (con : console) (found : list (list pystr)) (b : list pystr) :
  In b found -> steps (contributed found) (process_array con b).
Proof.
  intros Hb. unfold process_array.
  destruct b as [| name [| content [| x b]]]; try apply steps_raise.
  apply steps_try_except.
  - intros st r st' H. destruct (try_body_steps _ _ _ _ H) as [S N].
    split; [| assumption]. eapply step_weaken; [| exact S].
    intros v Hv. exists name, content. auto.
  - intros c e [<- | []]. simpl.
    apply steps_bind; [| intros _]; now apply steps_print.
Qed.

Lemma process_array_complete
      (con : console) (array_name array_content : pystr) st st' :
  process_array con [array_name; array_content] st = (Ret tt, st') ->
  forall v, contributes array_content v -> represented v st'.
Proof.
  intros H v Hv. pose proof Hv as (data & _ & _ & _ & Hd & _).
  rewrite (process_array_decoded _ _ _ _ _ Hd) in H.
  apply try_body_complete with (array_content := array_content) (st := st);
    [| assumption].
  rewrite try_body_unfold. unfold json_loads. rewrite Hd.
  unfold bind at 1. exact H.
Qed.

Lemma found_arrays_steps (con : console) (found : list (list pystr)) :
  steps (contributed found) (for_each found (process_array con)).
Proof.
  apply steps_for_each. intros b Hb. now apply process_array_steps.
Qed.

Lemma found_arrays_complete (con : console) (found : list (list pystr)) st st' :
  for_each found (process_array con) st = (Ret tt, st') ->
  forall v, contributed found v -> represented v st'.
Proof.
  intros H v (name & content & Hin & Hv).
  set (Q := fun (b : list pystr) (st : state) =>
              forall name content, b = [name; content] ->
                forall v, contributes content v -> represented v st).
  assert (Q [name; content] st') as HQ; [| now apply (HQ name content)].
  apply (@for_each_establishes _ Q found (process_array con))
    with (st := st);
    auto.
  - intros x s s' _ Hx n c -> w Hw. eapply process_array_complete; eauto.
  - intros x y s r s' Hy Hrun Hx n c -> w Hw.
    eapply represented_step;
      [exact (proj1 (process_array_steps _ _ _ Hy _ _ _ Hrun))
      | now apply (Hx n c)].
Qed.

(** The extraction, case by case. *)
Lemma extract_cases (con : console) (fs : filesystem) (order : set_order)
      (file_path : pystr) (st : state) :
  extract_urls_from_js con fs order file_path st =
  if printable con (SayParsing file_path) then
    let out := stdout st ++ [SayParsing file_path] in
    match fs file_path with
    | None => (Exit 1, State (out ++ [SayFileNotFound file_path]) (urls st))
    | Some html_content =>
        match findall js_array_pattern html_content with
        | [] => (Exit 1, State (out ++ [SayNoArrays]) [])
        | b :: bs =>
            match for_each (b :: bs) (process_array con)
                    (State (out ++ [SayFoundArrays (length (b :: bs))]) [])
            with
            | (Ret _, st1) =>
                (Ret (iter_set order (urls st1)),
                 State (stdout st1 ++ [SayFoundUrls (length (urls st1))])
                       (urls st1))
            | (Raise e, st1) => (Raise e, st1)
            | (Exit c, st1) => (Exit c, st1)
            end
        end
    end
  else (Raise (Exn UnicodeEncodeError []), st).
Proof.
  unfold extract_urls_from_js. unfold bind at 1.
  destruct (printable con (SayParsing file_path)) eqn:Hp;
    [rewrite (print_shown _ _ _ Hp) | now rewrite (print_refused _ _ _ Hp)].
  unfold bind at 1. unfold try_except, open_read.
  destruct (fs file_path) as [html_content |].
  - cbv [ret]. unfold bind at 1. cbv [set_new stdout urls].
    destruct (findall js_array_pattern html_content) as [| b bs].
    + unfold bind. rewrite print_shown by reflexivity. reflexivity.
    + unfold bind at 1. rewrite print_shown by reflexivity.
      unfold bind at 1. cbn [stdout urls].
      destruct (for_each (b :: bs) (process_array con) _)
        as [[[] | e | c] st1]; reflexivity.
  - cbv [raise select_clause is_FileNotFoundError exn_class_of]. unfold bind.
    rewrite (print_shown con (SayFileNotFound file_path) _ Hp). reflexivity.
Qed.

(** On a console that cannot write the name of the file, the first line is
    the end of the extraction. *)
Lemma extract_refused (con : console) (fs : filesystem) (order : set_order)
      (file_path : pystr) (st : state) :
  printable con (SayParsing file_path) = false ->
  extract_urls_from_js con fs order file_path st
  = (Raise (Exn UnicodeEncodeError []), st).
Proof. intros Hp. now rewrite extract_cases, Hp. Qed.

Lemma extract_ret_inv (con : console) (fs : filesystem) (order : set_order)
      (file_path : pystr) (st : state) (found_urls : list value) (st' : state) :
  extract_urls_from_js con fs order file_path st = (Ret found_urls, st') ->
  exists html_content st1,
    fs file_path = Some html_content /\
    findall js_array_pattern html_content <> [] /\
    for_each (findall js_array_pattern html_content) (process_array con)
      (State ((stdout st ++ [SayParsing file_path]) ++
              [SayFoundArrays
                 (length (findall js_array_pattern html_content))]) [])
    = (Ret tt, st1) /\
    found_urls = iter_set order (urls st1) /\
    st' = State (stdout st1 ++ [SayFoundUrls (length (urls st1))]) (urls st1).
Proof.
  rewrite extract_cases.
  destruct (printable con (SayParsing file_path)); [| discriminate].
  cbv zeta.
  destruct (fs file_path) as [html_content |]; [| discriminate].
  destruct (findall js_array_pattern html_content) as [| b bs] eqn:Ef;
    [discriminate |].
  destruct (for_each (b :: bs) (process_array con) _)
    as [[[] | e | c] st1] eqn:E;
    intros H; inversion H; subst.
  exists html_content, st1. rewrite Ef. repeat split; auto. discriminate.
Qed.

Lemma hash_key_str (w : value) (s : pystr) :
  hash_key w = Some (KStr s) -> w = VStr s.
Proof.
  assert (forall z, key_of_Z z <> KStr s) as HZ.
  { intros [| p | p]; simpl; try discriminate;
      destruct (strip_zero_bits p 0); discriminate. }
  destruct w as [| b | z | [| neg | neg m e] | t | l | d]; simpl;
    intros H; inversion H; try reflexivity;
    try (exfalso; eapply HZ; eassumption).
  destruct (m =? 0)%N; discriminate.
Qed.

(** The list the extraction returns holds no duplicates and only values that
    records of the document contribute. *)
Lemma extract_sound (con : console) (fs : filesystem) (order : set_order)
      (file_path : pystr) (st : state)
      (urls_to_check : list value) (st' : state) :
  extract_urls_from_js con fs order file_path st = (Ret urls_to_check, st') ->
  exists html_content,
    fs file_path = Some html_content /\
    NoDup urls_to_check /\
    (forall v, In v urls_to_check ->
               contributed (findall js_array_pattern html_content) v).
Proof.
  intros H.
  apply extract_ret_inv in H as (doc & st1 & Hfs & _ & Hrun & -> & _).
  exists doc. split; [assumption |].
  destruct (found_arrays_steps _ _ _ _ _ Hrun) as [[_ (more & Hu & Hc) Hn] _].
  simpl in Hu, Hn. subst more.
  pose proof (iter_set_perm order (urls st1)) as Hperm. split.
  - eapply Permutation_NoDup; [apply Permutation_sym; exact Hperm |].
    eapply NoDup_map_inv. apply Hn. constructor.
  - intros v Hv. rewrite Forall_forall in Hc. apply Hc.
    eapply Permutation_in; eauto.
Qed.

(** C6.  The list the extraction returns has no duplicates; each of its
    elements is the non-empty value of [url] or [homepageUrl] in a record of an
    array that decoded (non-empty as the script tests it: a value Python
    counts as true, for a string any but the empty one); every such value is
    in the list (as a member equal to it for the set; for strings that is
    string equality).  Hence a string
    is in the list exactly when it is not empty and is the value of one of
    the two fields in some decoded record, however many records, fields or
    arrays carry it; a record without the two fields adds nothing. *)
Theorem extracted_urls_exact
      (con : console) (fs : filesystem) (order : set_order)
        (file_path : pystr) (st : state)
        (urls_to_check : list value) (st' : state) :
  extract_urls_from_js con fs order file_path st = (Ret urls_to_check, st') ->
  exists html_content,
    fs file_path = Some html_content /\
    NoDup urls_to_check /\
    (forall v, In v urls_to_check ->
               contributed (findall js_array_pattern html_content) v) /\
    (forall v, contributed (findall js_array_pattern html_content) v ->
               exists w, In w urls_to_check /\ hash_key w = hash_key v) /\
    (forall s, In (VStr s) urls_to_check <->
               s <> [] /\
               contributed (findall js_array_pattern html_content) (VStr s)).
Proof.
  intros H.
  apply extract_ret_inv in H as (doc & st1 & Hfs & _ & Hrun & -> & _).
  exists doc. split; [assumption |].
  destruct (found_arrays_steps _ _ _ _ _ Hrun) as [[_ (more & Hu & Hc) Hn] _].
  simpl in Hu, Hn. subst more.
  pose proof (iter_set_perm order (urls st1)) as Hperm.
  assert (forall v, In v (iter_set order (urls st1)) ->
                    contributed (findall js_array_pattern doc) v) as Hsound.
  { intros v Hv. rewrite Forall_forall in Hc. apply Hc.
    eapply Permutation_in; eauto. }
  assert (forall v, contributed (findall js_array_pattern doc) v ->
                    exists w, In w (iter_set order (urls st1)) /\
                              hash_key w = hash_key v) as Hcomplete.
  { intros v Hv.
    destruct (found_arrays_complete _ _ _ _ Hrun v Hv) as (w & Hw & Hk).
    exists w. split; [| assumption].
    eapply Permutation_in; [apply Permutation_sym |]; eauto. }
  split; [| split; [assumption | split; [assumption |]]].
  - eapply Permutation_NoDup; [apply Permutation_sym; exact Hperm |].
    eapply NoDup_map_inv. apply Hn. constructor.
  - intros s. split.
    + intros Hin. split; [| now apply Hsound].
      intros ->. apply Hsound in Hin
        as (n & c & _ & data & items & item & field & _ & _ & _ & _ & _ & Ht).
      discriminate.
    + intros [_ Hs]. destruct (Hcomplete _ Hs) as (w & Hw & Hk).
      simpl in Hk. apply hash_key_str in Hk. now subst.
Qed.

(** C8.  Two extractions of the same files return the same set: whatever
    order the two processes iterate their sets in, the second run ends as the
    first does, with the same console output, and the two lists are
    permutations of each other. *)
Theorem extraction_deterministic
      (con : console) (fs : filesystem) (order1 order2 : set_order)
        (file_path : pystr) (st : state) :
  match extract_urls_from_js con fs order1 file_path st,
        extract_urls_from_js con fs order2 file_path st with
  | (Ret urls1, st1), (Ret urls2, st2) =>
      Permutation urls1 urls2 /\ (forall v, In v urls1 <-> In v urls2) /\
      st1 = st2
  | (Raise e1, st1), (Raise e2, st2) => e1 = e2 /\ st1 = st2
  | (Exit c1, st1), (Exit c2, st2) => c1 = c2 /\ st1 = st2
  | _, _ => False
  end.
Proof.
  rewrite !extract_cases.
  destruct (printable con (SayParsing file_path)); [| auto]. cbv zeta.
  destruct (fs file_path) as [html_content |]; [| auto].
  destruct (findall js_array_pattern html_content) as [| b bs]; [auto |].
  destruct (for_each (b :: bs) (process_array con) _) as [[[] | e | c] st1]; auto.
  assert (Permutation (iter_set order1 (urls st1))
                      (iter_set order2 (urls st1))) as Hp.
  { eapply Permutation_trans; [apply iter_set_perm |].
    apply Permutation_sym, iter_set_perm. }
  split; [assumption | split; [| reflexivity]].
  intros v. split; intros Hv.
  - eapply Permutation_in; eauto.
  - eapply Permutation_in; [apply Permutation_sym |]; eauto.
Qed.

(* ================================================================== *)
(** ** The run of [main] *)

(** One round of the checking loop: the "Checking" line, the probe, the
    status line.  Either line can be refused by the console. *)
Lemma check_round (con : console) (s : session) (n i : nat) (url : value)
      (broken_links : list (value * pystr)) (st : state) :
  (print con (SayChecking (i + 1) n url) ;;
   status <- check_link url s ;;
   if negb (pystr_eqb status OK) then
     print con (SayStatus status) ;;
     ret (broken_links ++ [(url, status)])
   else
     print con SayOK ;; ret broken_links) st
  = let answer := if is_broken s url then SayStatus (link_status s url)
                  else SayOK in
    if printable con (SayChecking (i + 1) n url) then
      if printable con answer then
        (Ret (broken_links ++ broken_of s [url]),
         State (stdout st ++ [SayChecking (i + 1) n url; answer]) (urls st))
      else
        (Raise (Exn UnicodeEncodeError []),
         State (stdout st ++ [SayChecking (i + 1) n url]) (urls st))
    else (Raise (Exn UnicodeEncodeError []), st).
Proof.
  cbv zeta. unfold bind at 1.
  destruct (printable con (SayChecking (i + 1) n url)) eqn:Hc;
    [rewrite (print_shown _ _ _ Hc) | now rewrite (print_refused _ _ _ Hc)].
  unfold bind at 1. rewrite check_link_status.
  unfold broken_of. cbn [flat_map]. rewrite app_nil_r.
  fold (is_broken s url). destruct (is_broken s url); unfold bind.
  - destruct (printable con (SayStatus (link_status s url))) eqn:Hs;
      [rewrite (print_shown _ _ _ Hs) | rewrite (print_refused _ _ _ Hs)];
      cbn [stdout urls]; [| reflexivity].
    unfold ret. now rewrite <- app_assoc.
  - rewrite print_shown by reflexivity. cbn [stdout urls]. unfold ret.
    now rewrite <- app_assoc, app_nil_r.
Qed.

Lemma state_eta (st : state) : State (stdout st ++ []) (urls st) = st.
Proof. destruct st. cbn [stdout urls]. now rewrite app_nil_r. Qed.

Lemma broken_of_cons (s : session) (url : value) (l : list value) :
  broken_of s (url :: l) = broken_of s [url] ++ broken_of s l.
Proof. unfold broken_of. cbn [flat_map]. now rewrite app_nil_r. Qed.

(** The checking loop: it shows its lines up to the first one the console
    refuses, and returns the broken links when none is refused. *)
Lemma check_loop (con : console) (s : session) (n : nat) (l : list value) :
  forall (k : nat) (acc : list (value * pystr)) (st : state),
    for_fold (combine (seq k (length l)) l) acc
      (fun '(i, url) broken_links =>
         print con (SayChecking (i + 1) n url) ;;
         status <- check_link url s ;;
         if negb (pystr_eqb status OK) then
           print con (SayStatus status) ;;
           ret (broken_links ++ [(url, status)])
         else
           print con SayOK ;; ret broken_links) st
    = let lines := flat_map (check_lines s n) (combine (seq k (length l)) l) in
      (if forallb (printable con) lines
       then Ret (acc ++ broken_of s l)
       else Raise (Exn UnicodeEncodeError []),
       State (stdout st ++ shown con lines) (urls st)).
Proof.
  induction l as [| url l IH]; intros k acc st; cbv zeta.
  - cbn. now rewrite app_nil_r, state_eta.
  - cbn [length seq combine for_fold flat_map check_lines fst snd app
         forallb shown].
    unfold bind at 1. rewrite check_round. cbv zeta.
    destruct (printable con (SayChecking (k + 1) n url));
      [| now rewrite state_eta].
    destruct (printable con (if is_broken s url
                             then SayStatus (link_status s url) else SayOK));
      [| reflexivity].
    rewrite IH. cbv zeta. cbn [stdout urls andb].
    rewrite (broken_of_cons s url l), <- !app_assoc. reflexivity.
Qed.

Lemma print_broken_loop (con : console) (l : list (value * pystr)) :
  forall st,
    for_each l (fun '(url, reason) => print con (SayBroken url reason)) st
    = let lines := map (fun p => SayBroken (fst p) (snd p)) l in
      (if forallb (printable con) lines
       then Ret tt else Raise (Exn UnicodeEncodeError []),
       State (stdout st ++ shown con lines) (urls st)).
Proof.
  induction l as [| [url reason] l IH]; intros st; cbv zeta.
  - cbn. now rewrite state_eta.
  - cbn [for_each map fst snd forallb shown]. unfold bind.
    destruct (printable con (SayBroken url reason)) eqn:Hb;
      [rewrite (print_shown _ _ _ Hb) | rewrite (print_refused _ _ _ Hb)].
    + rewrite IH. cbv zeta. cbn [stdout urls andb].
      now rewrite <- app_assoc.
    + now rewrite state_eta.
Qed.

(** The closing block, from line 107 on. *)
Lemma closing_block (con : console) (broken_links : list (value * pystr))
      (st : state) :
  (print con SayComplete ;;
   match broken_links with
   | [] => print con SayAllWorking
   | _ :: _ =>
       print con (SayFoundBroken (length broken_links)) ;;
       for_each broken_links
         (fun '(url, reason) => print con (SayBroken url reason)) ;;
       sys_exit 1
   end) st
  = (if forallb (printable con) (summary broken_links)
     then match broken_links with [] => Ret tt | _ :: _ => Exit 1 end
     else Raise (Exn UnicodeEncodeError []),
     State (stdout st ++ shown con (summary broken_links)) (urls st)).
Proof.
  unfold bind at 1. rewrite print_shown by reflexivity.
  unfold summary. cbn [forallb shown]. cbn [stdout urls].
  replace (printable con SayComplete) with true by reflexivity.
  cbn [andb].
  destruct broken_links as [| b bl].
  - cbn [forallb shown].
    destruct (printable con SayAllWorking) eqn:Ha;
      [rewrite (print_shown _ _ _ Ha) | rewrite (print_refused _ _ _ Ha)];
      cbn [stdout urls andb]; now rewrite <- ?app_assoc.
  - remember (b :: bl) as broken eqn:Eb. cbn [forallb shown].
    unfold bind at 1.
    destruct (printable con (SayFoundBroken (length broken))) eqn:Hf;
      [rewrite (print_shown _ _ _ Hf) | rewrite (print_refused _ _ _ Hf)];
      cbn [andb]; [| now rewrite <- ?app_assoc].
    unfold bind at 1. rewrite print_broken_loop. cbv zeta.
    cbn [stdout urls].
    destruct (forallb (printable con)
                (map (fun p => SayBroken (fst p) (snd p)) broken));
      unfold sys_exit; now rewrite <- !app_assoc.
Qed.

(** [main], case by case on how the extraction ends.  After the extraction
    the console shows the lines of the run up to the first one it refuses;
    when it refuses none, the run ends by the broken links. *)
Lemma main_cases (con : console) (fs : filesystem) (order : set_order)
      (s : session) (st : state) :
  main con fs order s st =
  match extract_urls_from_js con fs order HTML_FILE_PATH st with
  | (Ret l, st1) =>
      (if forallb (printable con) (run_lines s l)
       then match broken_of s l with [] => Ret tt | _ :: _ => Exit 1 end
       else Raise (Exn UnicodeEncodeError []),
       State (stdout st1 ++ shown con (run_lines s l)) (urls st1))
  | (Raise e, st1) => (Raise e, st1)
  | (Exit c, st1) => (Exit c, st1)
  end.
Proof.
  unfold main. unfold bind at 1.
  destruct (extract_urls_from_js con fs order HTML_FILE_PATH st)
    as [[[| url rest] | e | c] st1]; try reflexivity.
  unfold bind at 1. unfold enumerate. rewrite check_loop. cbv zeta.
  unfold run_lines, enumerate.
  remember (broken_of s (url :: rest)) as broken eqn:Eb.
  remember (flat_map (check_lines s (length (url :: rest)))
              (combine (seq 0 (length (url :: rest))) (url :: rest)))
    as lines eqn:El.
  clear Eb El. rewrite app_nil_l, forallb_app.
  destruct (forallb (printable con) lines) eqn:Hl; cbn [andb].
  - rewrite closing_block, (shown_app _ _ _ Hl). cbn [stdout urls].
    now rewrite (shown_all _ _ Hl), <- app_assoc.
  - f_equal. f_equal. f_equal. clear - Hl.
    induction lines as [| ev lines IH]; [discriminate |].
    cbn [forallb app shown] in *.
    destruct (printable con ev); [| reflexivity].
    f_equal. now apply IH.
Qed.

Lemma broken_of_nil_iff (s : session) (l : list value) :
  broken_of s l = [] <-> forall url, In url l -> link_status s url = OK.
Proof.
  unfold broken_of, is_broken, pystr_eqb. induction l as [| url l IH]; simpl.
  - split; [intros _ x [] | reflexivity].
  - destruct (pystr_eq_dec (link_status s url) OK) as [E | N]; simpl.
    + rewrite IH. split.
      * intros H x [<- | Hx]; auto.
      * intros H x Hx. apply H. now right.
    + split; [discriminate |]. intros H. exfalso. apply N, H. now left.
Qed.



(* ================================================================== *)
(** ** The report *)

Lemma report_quiet_app (l1 l2 : list event) :
  Forall (fun ev => is_checking ev = false) l1 ->
  report (l1 ++ l2) = report l2.
Proof.
  induction 1 as [| ev l1 Hev _ IH]; simpl; [reflexivity |].
  destruct ev; try discriminate; exact IH.
Qed.

Lemma report_quiet (l : list event) :
  Forall (fun ev => is_checking ev = false) l -> report l = [].
Proof.
  intros H. rewrite <- (app_nil_r l). now rewrite report_quiet_app.
Qed.

Lemma report_check_lines (s : session) (n : nat) (l : list value) :
  forall (k : nat) (tail : list event),
    report (flat_map (check_lines s n) (combine (seq k (length l)) l) ++ tail)
    = map (fun url => (url, link_status s url)) l ++ report tail.
Proof.
  induction l as [| url l IH]; intros k tail; simpl; [reflexivity |].
  unfold is_broken, pystr_eqb.
  destruct (pystr_eq_dec (link_status s url) OK) as [E | N]; simpl;
    rewrite IH; [rewrite E |]; reflexivity.
Qed.

Lemma summary_quiet (broken_links : list (value * pystr)) :
  Forall (fun ev => is_checking ev = false) (summary broken_links).
Proof.
  unfold summary. constructor; [reflexivity |].
  destruct broken_links as [| b bl]; [now constructor |].
  constructor; [reflexivity |]. apply Forall_forall. intros ev Hev.
  apply in_map_iff in Hev as (p & <- & _). reflexivity.
Qed.

Lemma shown_quiet (con : console) (l : list event) :
  Forall (fun ev => is_checking ev = false) l ->
  Forall (fun ev => is_checking ev = false) (shown con l).
Proof.
  induction 1 as [| ev l Hev _ IH]; cbn [shown]; [constructor |].
  destruct (printable con ev); now constructor.
Qed.


Lemma extract_quiet (con : console) (fs : filesystem) (order : set_order)
      (file_path : pystr) (l : list value) (st1 : state) :
  extract_urls_from_js con fs order file_path initial = (Ret l, st1) ->
  Forall (fun ev => is_checking ev = false) (stdout st1) /\ NoDup l.
Proof.
  intros H. pose proof (extract_sound _ _ _ _ _ _ _ H)
    as (_ & _ & Hnd & _).
  split; [| assumption].
  apply extract_ret_inv in H as (doc & st0 & _ & _ & Hrun & _ & ->).
  destruct (found_arrays_steps _ _ _ _ _ Hrun) as [[(evs & Ho & Hq) _ _] _].
  simpl in *. rewrite Ho. repeat (apply Forall_app; split; auto).
Qed.





(* ================================================================== *)
(** ** Fatal and recoverable failures of the extraction *)

Lemma found_arrays_no_exit
      (con : console) (found : list (list pystr)) st c st' :
  for_each found (process_array con) st <> (Exit c, st').
Proof.
  intros H. apply found_arrays_steps in H as [_ N]. now apply (N c).
Qed.

(** C5, as the script has it.  For a file that exists, the extraction ends in
    its own [sys.exit] exactly when the document holds none of the expected
    arrays, and [main] then stops with status 1 after the two lines of the
    diagnostic, before any link check.  When arrays were found, one that
    fails to decode is not fatal: after the arrays before it, the round
    prints the warning and the error details, leaves the set as it is, and
    the loop goes on with the arrays after it.  (The warning names the
    array: every console can write the two names the pattern admits, and
    for a name the console cannot write the warning itself ends the round
    in [UnicodeEncodeError].) *)
Theorem fatal_exit_iff_no_arrays (con : console) (fs : filesystem)
        (order : set_order) (s : session) (st : state)
        (html_content : pystr) :
  fs HTML_FILE_PATH = Some html_content ->
  ((exists c,
       fst (extract_urls_from_js con fs order HTML_FILE_PATH st) = Exit c)
   <-> findall js_array_pattern html_content = []) /\
  (findall js_array_pattern html_content = [] ->
   main con fs order s st
   = (Exit 1, State (stdout st ++ [SayParsing HTML_FILE_PATH; SayNoArrays])
                    [])) /\
  (forall before array_name array_content after st0,
      Json.loads (json_str_of array_content) = None ->
      for_each (before ++ [array_name; array_content] :: after)
               (process_array con) st0
      = match for_each before (process_array con) st0 with
        | (Ret _, st1) =>
            if printable con (SayWarning array_name)
            then for_each after (process_array con)
                   (State (stdout st1 ++
                           [SayWarning array_name;
                            SayErrorDetails (Exn JSONDecodeError [])])
                          (urls st1))
            else (Raise (Exn UnicodeEncodeError []), st1)
        | other => other
        end) /\
  (forall array_name,
      array_name = u "institutes" \/ array_name = u "jobBoards" ->
      printable con (SayWarning array_name) = true).
Proof.
  intros Hfs. split; [| split; [| split]].
  - rewrite extract_cases, html_path_printable, Hfs. cbv zeta.
    destruct (findall js_array_pattern html_content) as [| b bs].
    + split; [reflexivity | eexists; reflexivity].
    + split; [| discriminate]. intros [c H]. exfalso.
      destruct (for_each (b :: bs) (process_array con) _)
        as [[[] | e | c'] st1] eqn:E; try discriminate.
      eapply found_arrays_no_exit; eauto.
  - intros Hnone.
    rewrite main_cases, extract_cases, html_path_printable, Hfs, Hnone.
    cbv zeta. now rewrite <- app_assoc.
  - intros before name content after st0 Hd. rewrite for_each_app.
    unfold bind at 1.
    destruct (for_each before (process_array con) st0)
      as [[[] | e | c] st1]; try reflexivity.
    cbn [for_each]. unfold bind at 1.
    destruct (printable con (SayWarning name)) eqn:Hp.
    + now rewrite process_array_decode_error.
    + now rewrite process_array_warning_refused.
  - apply array_name_printable.
Qed.

(* ================================================================== *)
(** ** Example runs *)

Lemma example_extraction :
  extract_urls_from_js utf8_console (single_file example_doc) insertion_order
    HTML_FILE_PATH initial
  = (Ret example_urls,
     State [SayParsing HTML_FILE_PATH; SayFoundArrays 1; SayFoundUrls 2]
           example_urls).
Proof. vm_compute. reflexivity. Qed.

Lemma example_run :
  run_main utf8_console (single_file example_doc) insertion_order
           example_session
  = (Exit 1,
     State [SayParsing HTML_FILE_PATH; SayFoundArrays 1; SayFoundUrls 2;
            SayChecking 1 2 (VStr (u "https://good.example")); SayOK;
            SayChecking 2 2 (VStr (u "https://bad.example"));
            SayStatus (u "FAILED: Status 404");
            SayComplete; SayFoundBroken 1;
            SayBroken (VStr (u "https://bad.example"))
                      (u "FAILED: Status 404")]
           example_urls).
Proof. vm_compute. reflexivity. Qed.

(** The same document in a process whose sets iterate the other way round. *)
Lemma example_extraction_reversed :
  fst (extract_urls_from_js utf8_console (single_file example_doc)
         reverse_order HTML_FILE_PATH initial)
  = Ret (rev example_urls).
Proof. vm_compute. reflexivity. Qed.





(** C3 on the example network. *)
Lemma check_link_classification_witness :
  check_link (VStr (u "https://good.example")) example_session initial
  = (Ret (u "OK"), initial) /\
  check_link (VStr (u "https://bad.example")) example_session initial
  = (Ret (u "FAILED: Status 404"), initial) /\
  (exists status,
      check_link (VStr (u "https://bad.example")) example_session initial
      = (Ret status, initial) /\ contains (u "404") status) /\
  check_link (VStr (u "https://slow.example")) example_session initial
  = (Ret (u "FAILED: Request Error (ConnectTimeout)"), initial).
Proof.
  split; [| split; [| split]].
  - apply (proj1 (check_link_classification
                    (VStr (u "https://good.example")) example_session
                    initial) (Response 200)).
    + vm_compute. reflexivity.
    + vm_compute. reflexivity.
  - apply (proj1 (proj2 (check_link_classification
                           (VStr (u "https://bad.example")) example_session
                           initial)) (Response 404)).
    + vm_compute. reflexivity.
    + vm_compute. discriminate.
  - apply (proj1 (proj2 (proj2 (check_link_classification
                                  (VStr (u "https://bad.example"))
                                  example_session initial)))).
    vm_compute. reflexivity.
  - apply (proj2 (proj2 (proj2 (proj2 (check_link_classification
                                         (VStr (u "https://slow.example"))
                                         example_session initial))))
             (Exn (RequestException (u "ConnectTimeout")) (u "timed out"))).
    + vm_compute. reflexivity.
    + reflexivity.
Defined.



(** C6 on the example document. *)
Lemma extracted_urls_exact_witness :
  exists html_content,
    single_file example_doc HTML_FILE_PATH = Some html_content /\
    NoDup example_urls /\
    (forall v, In v example_urls ->
               contributed (findall js_array_pattern html_content) v) /\
    (forall v, contributed (findall js_array_pattern html_content) v ->
               exists w, In w example_urls /\ hash_key w = hash_key v) /\
    (forall s, In (VStr s) example_urls <->
               s <> [] /\
               contributed (findall js_array_pattern html_content) (VStr s)).
Proof.
  exact (extracted_urls_exact utf8_console (single_file example_doc)
           insertion_order HTML_FILE_PATH initial example_urls _
           example_extraction).
Defined.

(** C5 on two documents: a page without arrays, and a page whose second
    array does not decode. *)
Lemma fatal_exit_iff_no_arrays_witness :
  main utf8_console (single_file (u "<html></html>")) insertion_order
       example_session initial
  = (Exit 1, State [SayParsing HTML_FILE_PATH; SayNoArrays] []) /\
  for_each (findall js_array_pattern half_broken_doc)
           (process_array utf8_console) initial
  = (Ret tt,
     State [SayWarning (u "jobBoards");
            SayErrorDetails (Exn JSONDecodeError [])]
           [VStr (u "https://good.example");
            VStr (u "https://slow.example")]).
Proof.
  split.
  - apply (proj1 (proj2 (fatal_exit_iff_no_arrays utf8_console
                           (single_file (u "<html></html>")) insertion_order
                           example_session initial (u "<html></html>")
                           eq_refl))).
    vm_compute. reflexivity.
  - assert (findall js_array_pattern half_broken_doc
            = [[u "institutes"; u "[{'url':'https://good.example'}]"]]
              ++ [u "jobBoards"; u "[{'url':'https://bad.example'}, ]]"]
              :: [[u "institutes";
                   u "[{'homepageUrl':'https://slow.example'}]"]]) as ->
      by (vm_compute; reflexivity).
    rewrite (proj1 (proj2 (proj2 (fatal_exit_iff_no_arrays utf8_console
                             (single_file half_broken_doc) insertion_order
                             example_session initial half_broken_doc
                             eq_refl)))).
    + vm_compute. reflexivity.
    + vm_compute. reflexivity.
Defined.

(** C5 as stated fails: arrays are found in this page, yet the run ends with
    status 1 before any link is checked, because the decoded array holds
    [null], the membership test raises [TypeError], and only
    [json.JSONDecodeError] is handled. *)
Lemma fatal_although_array_found :
  findall js_array_pattern (u "const institutes = [null];")
  = [[u "institutes"; u "[null]"]] /\
  run_main utf8_console (single_file (u "const institutes = [null];"))
           insertion_order example_session
  = (Raise (Exn TypeError (u "argument of type 'NoneType' is not iterable")),
     State [SayParsing HTML_FILE_PATH; SayFoundArrays 1] []) /\
  exit_status (fst (run_main utf8_console
                      (single_file (u "const institutes = [null];"))
                      insertion_order example_session)) = 1%Z /\
  report (stdout (snd (run_main utf8_console
                         (single_file (u "const institutes = [null];"))
                         insertion_order example_session))) = [] /\
  ~ (exit_status (fst (run_main utf8_console
                         (single_file (u "const institutes = [null];"))
                         insertion_order example_session)) = 1%Z ->
     findall js_array_pattern (u "const institutes = [null];") = []).
Proof.
  split; [vm_compute; reflexivity |].
  split; [vm_compute; reflexivity |].
  split; [vm_compute; reflexivity |].
  split; [vm_compute; reflexivity |].
  intros H.
  assert (findall js_array_pattern (u "const institutes = [null];") = [])
    as E; [| vm_compute in E; discriminate].
  apply H. vm_compute. reflexivity.
Qed.

(** C9.  Only decode errors are recovered.  The array of this page decodes to
    a list of numbers; the test ['url' in item] then raises [TypeError],
    which the handler for [json.JSONDecodeError] does not catch: whatever the
    console, the state and the iteration order, the extraction ends with
    that exception and returns no list. *)
Theorem non_record_elements_not_recovered :
  exists html_content array_content,
    findall js_array_pattern html_content
    = [[u "institutes"; array_content]] /\
    Json.loads (json_str_of array_content) = Some (VList [VInt 1; VInt 2]) /\
    forall con order st,
    exists e st',
      extract_urls_from_js con (single_file html_content) order
        HTML_FILE_PATH st
      = (Raise e, st') /\
      exn_class_of e = TypeError /\ is_JSONDecodeError e = false.
Proof.
  exists (u "const institutes = [1, 2];"), (u "[1, 2]").
  split; [vm_compute; reflexivity |].
  split; [vm_compute; reflexivity |].
  intros con order st. rewrite extract_cases, html_path_printable.
  replace (single_file (u "const institutes = [1, 2];") HTML_FILE_PATH)
    with (Some (u "const institutes = [1, 2];"))
    by (vm_compute; reflexivity).
  replace (findall js_array_pattern (u "const institutes = [1, 2];"))
    with [[u "institutes"; u "[1, 2]"]] by (vm_compute; reflexivity).
  cbv zeta. cbn [for_each]. unfold bind at 1.
  erewrite process_array_decoded by (vm_compute; reflexivity).
  eexists. eexists. split; [reflexivity |]. split; reflexivity.
Qed.

(* ================================================================== *)
(** ** The two substitutions, on the two sides of a cut *)

Lemma skip_space_all (s v : pystr) :
  forallb isspace s = true ->
  skip_space s = [] /\ skip_space (s ++ v) = skip_space v.
Proof.
  induction s as [| x s IH]; simpl; [auto |].
  intros H. apply andb_true_iff in H as [Hx Hs]. rewrite Hx. auto.
Qed.

Lemma skip_space_some (s v : pystr) :
  forallb isspace s = false ->
  skip_space s <> [] /\ skip_space (s ++ v) = skip_space s ++ v.
Proof.
  induction s as [| x s IH]; simpl; [discriminate |].
  destruct (isspace x); simpl; [exact IH |]. intros _. split; [discriminate |].
  reflexivity.
Qed.

Lemma skip_space_length (s : pystr) : length (skip_space s) <= length s.
Proof.
  induction s as [| x s IH]; simpl; [lia |].
  destruct (isspace x); simpl; lia.
Qed.

Lemma re_match_Seq {R} (a b : regex) (k : pystr -> list pystr -> option R)
      (s : pystr) (caps : list pystr) :
  re_match (Seq a b) k s caps
  = re_match a (fun s' caps' => re_match b k s' caps') s caps.
Proof. reflexivity. Qed.

Lemma re_match_Lit {R} (l : pystr) (k : pystr -> list pystr -> option R)
      (s : pystr) (caps : list pystr) :
  re_match (Lit l) k s caps
  = match strip_prefix l s with
    | Some rest => k rest caps
    | None => None
    end.
Proof. reflexivity. Qed.

(** Greedy [\s*] needs no backtracking when what follows cannot start with
    white space: it stops at the first character that is not white space. *)
Lemma star_space_loop {R} (k : pystr -> list pystr -> option R)
      (caps : list pystr) (t : pystr) :
  (forall x t', isspace x = true -> k (x :: t') caps = None) ->
  re_match (Star CSpace) k t caps = k (skip_space t) caps.
Proof.
  intros Hk. cbn [re_match in_class].
  induction t as [| x t IH]; [reflexivity |].
  cbn [skip_space]. destruct (isspace x) eqn:Ex; [| reflexivity].
  rewrite IH, (Hk x t Ex). destruct (k (skip_space t) caps); reflexivity.
Qed.

Section TrailingComma.

Variable close : char.
Hypothesis close_not_space : isspace close = false.
Hypothesis close_not_comma : char_eqb close (ch ",") = false.

Lemma match_at_trailing (s : pystr) :
  match_at (trailing_comma close) s = option_map (fun rest => ([], rest)) (trailing_at close s).
Proof.
  unfold match_at, trailing_comma. rewrite re_match_Seq, re_match_Lit.
  destruct s as [| x t]; [reflexivity |].
  change (u ",") with [ch ","]. cbn [strip_prefix trailing_at].
  destruct (char_eqb (ch ",") x); [| reflexivity].
  rewrite re_match_Seq, star_space_loop.
  - rewrite re_match_Lit. destruct (skip_space t) as [| y rest];
      [reflexivity |].
    cbn [strip_prefix]. destruct (char_eqb close y); reflexivity.
  - intros y t' Hy. rewrite re_match_Lit. cbn [strip_prefix].
    replace (char_eqb close y) with false; [reflexivity |].
    symmetry. unfold char_eqb. apply N.eqb_neq. intros ->. congruence.
Qed.

Lemma trailing_at_length (s rest : pystr) :
  trailing_at close s = Some rest -> length rest + 2 <= length s.
Proof.
  destruct s as [| x t]; cbn [trailing_at]; [discriminate |].
  destruct (char_eqb (ch ",") x); [| discriminate].
  pose proof (skip_space_length t) as Hl.
  destruct (skip_space t) as [| y rest']; [discriminate |].
  destruct (char_eqb close y); [| discriminate].
  intros H. inversion H; subst. cbn [length] in *. lia.
Qed.

Lemma strip_cons (x : char) (t : pystr) :
  strip close 0 (x :: t) =
  match trailing_at close (x :: t) with
  | Some rest => close :: strip close (length t - length rest) t
  | None => x :: strip close 0 t
  end.
Proof.
  unfold strip. cbn [sub_from]. rewrite match_at_trailing.
  remember (trailing_at close (x :: t)) as o eqn:Eo.
  destruct o as [rest |]; cbn [option_map app]; [| reflexivity].
  replace (length (x :: t) - length rest - 1) with (length t - length rest)
    by (cbn [length]; lia).
  reflexivity.
Qed.

Lemma strip_skip (s t : pystr) : strip close (length s) (s ++ t) = strip close 0 t.
Proof. induction s as [| x s IH]; simpl; auto. Qed.

Lemma trailing_at_app (x : char) (a v : pystr) :
  dangling (x :: a) = false \/ blocked close v ->
  trailing_at close (x :: a ++ v)
  = option_map (fun rest => rest ++ v) (trailing_at close (x :: a)).
Proof.
  intros H. cbn [trailing_at]. destruct (char_eqb (ch ",") x) eqn:Ex;
    [| reflexivity].
  destruct (forallb isspace a) eqn:Ea.
  - destruct (skip_space_all a v Ea) as [-> ->]. cbn [option_map].
    destruct H as [H | H].
    + unfold char_eqb in Ex. apply N.eqb_eq in Ex. subst x.
      cbn [dangling] in H. rewrite Ea in H. unfold char_eqb in H.
      rewrite N.eqb_refl in H. discriminate.
    + unfold blocked in H. destruct (skip_space v) as [| y rest];
        [reflexivity |]. now rewrite H.
  - destruct (skip_space_some a v Ea) as [Hne ->].
    destruct (skip_space a) as [| y rest]; [congruence |].
    rewrite <- app_comm_cons. destruct (char_eqb close y); reflexivity.
Qed.

Lemma dangling_tail (x : char) (a : pystr) :
  dangling (x :: a) = false -> dangling a = false.
Proof. simpl. intros H. now apply orb_false_iff in H. Qed.

(** The substitution works on the two sides of a cut separately when no match
    can straddle the cut. *)
Lemma strip_app (a v : pystr) :
  dangling a = false \/ blocked close v ->
  forall k, k <= length a -> strip close k (a ++ v) = strip close k a ++ strip close 0 v.
Proof.
  induction a as [| x a IH]; intros H k Hk.
  - simpl in Hk. replace k with 0 by lia. reflexivity.
  - assert (dangling a = false \/ blocked close v) as H'.
    { destruct H as [H | H]; [left; eapply dangling_tail; eauto | now right]. }
    destruct k as [| k].
    + rewrite <- app_comm_cons, !strip_cons, trailing_at_app by assumption.
      destruct (trailing_at close (x :: a)) as [rest |] eqn:Et; simpl.
      * apply trailing_at_length in Et. simpl in Et.
        rewrite !length_app.
        replace (length a + length v - (length rest + length v))
          with (length a - length rest) by lia.
        rewrite IH by (auto; lia). reflexivity.
      * rewrite IH by (auto; lia). reflexivity.
    + simpl in Hk. unfold strip in *. simpl. apply IH; auto. lia.
Qed.

End TrailingComma.

Section TrailingCommaFacts.

Variable close : char.
Hypothesis close_not_space : isspace close = false.
Hypothesis close_not_comma : char_eqb close (ch ",") = false.

Lemma strip_cons_plain (x : char) (t : pystr) :
  char_eqb (ch ",") x = false ->
  strip close 0 (x :: t) = x :: strip close 0 t.
Proof.
  intros Hx. rewrite strip_cons by assumption. cbn [trailing_at].
  now rewrite Hx.
Qed.

Lemma space_not_comma (x : char) :
  isspace x = true -> char_eqb (ch ",") x = false.
Proof.
  intros Hx. unfold char_eqb. apply N.eqb_neq. intros <-. discriminate.
Qed.

Lemma strip_spaces (ws t : pystr) :
  forallb isspace ws = true ->
  strip close 0 (ws ++ t) = ws ++ strip close 0 t.
Proof.
  induction ws as [| w ws IH]; intros H; [reflexivity |].
  cbn [forallb] in H. apply andb_true_iff in H as [Hw Hws].
  rewrite <- !app_comm_cons, strip_cons_plain by now apply space_not_comma.
  now rewrite IH.
Qed.

Lemma skip_space_spaces (ws : pystr) (y : char) (t : pystr) :
  forallb isspace ws = true -> isspace y = false ->
  skip_space (ws ++ y :: t) = y :: t.
Proof.
  intros Hws Hy. destruct (skip_space_all ws (y :: t) Hws) as [_ ->].
  cbn [skip_space]. now rewrite Hy.
Qed.

(** A comma, white space and the closing character: the match. *)
Lemma strip_match (ws t : pystr) :
  forallb isspace ws = true ->
  strip close 0 (ch "," :: ws ++ close :: t) = close :: strip close 0 t.
Proof.
  intros Hws. rewrite strip_cons by assumption. cbn [trailing_at].
  change (char_eqb (ch ",") (ch ",")) with true. cbv iota.
  rewrite skip_space_spaces by assumption.
  unfold char_eqb. rewrite N.eqb_refl.
  replace (length (ws ++ close :: t) - length t) with (length (ws ++ [close]))
    by (rewrite !length_app; cbn [length]; lia).
  replace (ws ++ close :: t) with ((ws ++ [close]) ++ t)
    by (now rewrite <- app_assoc).
  now rewrite strip_skip.
Qed.

(** A comma, white space and another character: no match. *)
Lemma strip_no_match (ws : pystr) (y : char) (t : pystr) :
  forallb isspace ws = true -> isspace y = false ->
  char_eqb close y = false -> char_eqb (ch ",") y = false ->
  strip close 0 (ch "," :: ws ++ y :: t)
  = ch "," :: ws ++ y :: strip close 0 t.
Proof.
  intros Hws Hy Hc Hm. rewrite strip_cons by assumption. cbn [trailing_at].
  change (char_eqb (ch ",") (ch ",")) with true. cbv iota.
  rewrite skip_space_spaces by assumption. rewrite Hc.
  rewrite strip_spaces by assumption. now rewrite strip_cons_plain.
Qed.

Lemma blocked_cons (y : char) (t : pystr) :
  isspace y = false -> char_eqb close y = false -> blocked close (y :: t).
Proof. intros Hy Hc. unfold blocked. cbn [skip_space]. now rewrite Hy. Qed.

Lemma blocked_spaces (ws : pystr) (y : char) (t : pystr) :
  forallb isspace ws = true -> isspace y = false ->
  char_eqb close y = false -> blocked close (ws ++ y :: t).
Proof.
  intros Hws Hy Hc. unfold blocked. now rewrite skip_space_spaces.
Qed.

Lemma strip_all_space (s : pystr) :
  forallb isspace (strip close 0 s) = true -> strip close 0 s = s.
Proof.
  induction s as [| x s IH]; [reflexivity |].
  rewrite strip_cons by assumption.
  destruct (trailing_at close (x :: s)) as [rest |]; cbn [forallb].
  - rewrite close_not_space. discriminate.
  - intros H. apply andb_true_iff in H as [_ H]. now rewrite IH.
Qed.

Lemma dangling_cons (x : char) (t : pystr) :
  dangling (x :: t)
  = (char_eqb x (ch ",") && forallb isspace t) || dangling t.
Proof. reflexivity. Qed.

(** Removing trailing commas does not leave a comma at the end that was not
    there before. *)
Lemma dangling_strip (s : pystr) :
  forall k, k <= length s ->
            dangling (strip close k s) = true -> dangling s = true.
Proof.
  induction s as [| x s IH]; intros k Hk; [discriminate |].
  rewrite (dangling_cons x s). destruct k as [| k].
  - rewrite strip_cons by assumption.
    destruct (trailing_at close (x :: s)) as [rest |] eqn:Et;
      rewrite dangling_cons.
    + rewrite close_not_comma. cbn [andb orb]. intros H.
      apply trailing_at_length in Et. cbn [length] in Et.
      rewrite (IH _ (Nat.le_sub_l _ _) H). apply orb_true_r.
    + intros H. apply orb_true_iff in H as [H | H].
      * apply andb_true_iff in H as [Hx Hs]. rewrite Hx.
        rewrite (strip_all_space _ Hs) in Hs. now rewrite Hs.
      * rewrite (IH 0 (Nat.le_0_l _) H). apply orb_true_r.
  - cbn [length] in Hk. unfold strip. cbn [sub_from]. intros H.
    rewrite (IH k) by (auto; lia). apply orb_true_r.
Qed.

End TrailingCommaFacts.

(* ================================================================== *)
(** ** The JSON text of an array with a trailing comma *)

Lemma replace_char_app (old : char) (new a b : pystr) :
  replace_char old new (a ++ b)
  = replace_char old new a ++ replace_char old new b.
Proof. apply flat_map_app. Qed.

Lemma replace_char_cons_other (old : char) (new : pystr) (x : char)
      (t : pystr) :
  char_eqb x old = false ->
  replace_char old new (x :: t) = x :: replace_char old new t.
Proof. intros H. unfold replace_char. cbn [flat_map]. now rewrite H. Qed.

Lemma replace_char_other (old : char) (new s : pystr) :
  forallb (fun x => negb (char_eqb x old)) s = true ->
  replace_char old new s = s.
Proof.
  induction s as [| x s IH]; [reflexivity |]. cbn [forallb]. intros H.
  apply andb_true_iff in H as [Hx Hs]. apply negb_true_iff in Hx.
  rewrite replace_char_cons_other by assumption. now rewrite IH.
Qed.

Lemma dangling_replace_char (old new : char) (s : pystr) :
  char_eqb old (ch ",") = false -> isspace old = false ->
  char_eqb new (ch ",") = false -> isspace new = false ->
  dangling (replace_char old [new] s) = dangling s /\
  forallb isspace (replace_char old [new] s) = forallb isspace s.
Proof.
  intros Ho Hso Hn Hsn. induction s as [| x s [IHd IHs]]; [auto |].
  unfold replace_char in *. cbn [flat_map].
  destruct (char_eqb x old) eqn:Ex; cbn [app]; rewrite !dangling_cons;
    cbn [forallb]; rewrite IHd, IHs; [| auto].
  unfold char_eqb in Ex. apply N.eqb_eq in Ex. subst x.
  now rewrite Hn, Ho, Hsn, Hso.
Qed.

Lemma json_str_of_unfold (s : pystr) :
  json_str_of s = strip rbracket 0 (strip rbrace 0 (requote s)).
Proof. reflexivity. Qed.

Lemma json_ws_space (x : char) : Json.json_ws x = true -> isspace x = true.
Proof.
  unfold Json.json_ws. intros H.
  repeat (apply orb_true_iff in H as [H | H]);
    apply N.eqb_eq in H; subst; reflexivity.
Qed.

Lemma json_ws_requote (ws : pystr) :
  forallb Json.json_ws ws = true -> requote ws = ws /\ forallb isspace ws = true.
Proof.
  intros H. unfold requote.
  assert (forall q, isspace q = false ->
                    forallb (fun x => negb (char_eqb x q)) ws = true) as Hq.
  { intros q Hq. rewrite forallb_forall in *. intros x Hx.
    apply negb_true_iff. unfold char_eqb. apply N.eqb_neq. intros ->.
    apply H, json_ws_space in Hx. congruence. }
  rewrite (replace_char_other (ch "'")) by (apply Hq; reflexivity).
  rewrite (replace_char_other (ch "`")) by (apply Hq; reflexivity).
  split; [reflexivity |]. rewrite forallb_forall in *. intros x Hx.
  now apply json_ws_space, H.
Qed.

Lemma requote_app (a b : pystr) : requote (a ++ b) = requote a ++ requote b.
Proof. unfold requote. now rewrite !replace_char_app. Qed.

Lemma requote_cons (x : char) (t : pystr) :
  char_eqb x (ch "'") = false -> char_eqb x (ch "`") = false ->
  requote (x :: t) = x :: requote t.
Proof.
  intros H1 H2. unfold requote. now rewrite !replace_char_cons_other.
Qed.

Lemma dangling_requote (s : pystr) : dangling (requote s) = dangling s.
Proof.
  unfold requote.
  rewrite (proj1 (dangling_replace_char (ch "`") dquote _
                    eq_refl eq_refl eq_refl eq_refl)).
  apply (dangling_replace_char (ch "'") dquote _
           eq_refl eq_refl eq_refl eq_refl).
Qed.

Ltac cut_side :=
  first [ reflexivity | assumption | apply Nat.le_0_l
        | right; apply blocked_cons; reflexivity
        | right; apply blocked_spaces; [assumption | reflexivity ..]
        | left; assumption ].

(** The JSON text of an array whose text has a comma, then white space, then
    a closing brace or bracket: the comma and the white space are gone. *)
Lemma json_str_of_lenient (a ws b : pystr) (c : char) :
  is_closer c -> forallb Json.json_ws ws = true ->
  json_str_of (a ++ ch "," :: ws ++ c :: b)
  = json_str_of a ++ c :: json_str_of b.
Proof.
  intros Hc Hws. destruct (json_ws_requote ws Hws) as [Hq Hsp].
  rewrite !json_str_of_unfold, requote_app, requote_cons by reflexivity.
  rewrite requote_app, Hq.
  destruct Hc as [-> | ->]; rewrite requote_cons by reflexivity.
  - rewrite (strip_app rbrace) by cut_side.
    rewrite (strip_match rbrace) by cut_side.
    rewrite (strip_app rbracket) by cut_side.
    now rewrite (strip_cons_plain rbracket) by cut_side.
  - rewrite (strip_app rbrace) by cut_side.
    rewrite (strip_no_match rbrace) by cut_side.
    rewrite (strip_app rbracket) by cut_side.
    now rewrite (strip_match rbracket) by cut_side.
Qed.

(** The same array without the comma keeps its white space. *)
Lemma json_str_of_strict (a ws b : pystr) (c : char) :
  is_closer c -> forallb Json.json_ws ws = true -> dangling a = false ->
  json_str_of (a ++ ws ++ c :: b)
  = json_str_of a ++ ws ++ c :: json_str_of b.
Proof.
  intros Hc Hws Hd. destruct (json_ws_requote ws Hws) as [Hq Hsp].
  rewrite !json_str_of_unfold, !requote_app, Hq.
  assert (dangling (requote a) = false) as Hd0
      by now rewrite dangling_requote.
  assert (dangling (strip rbrace 0 (requote a)) = false) as Hd1.
  { destruct (dangling (strip rbrace 0 (requote a))) eqn:E; [| reflexivity].
    apply (dangling_strip rbrace) in E; try cut_side. congruence. }
  destruct Hc as [-> | ->]; rewrite requote_cons by reflexivity.
  - rewrite (strip_app rbrace) by cut_side.
    rewrite (strip_spaces rbrace) by cut_side.
    rewrite (strip_cons_plain rbrace) by cut_side.
    rewrite (strip_app rbracket) by cut_side.
    rewrite (strip_spaces rbracket) by cut_side.
    now rewrite (strip_cons_plain rbracket) by cut_side.
  - rewrite (strip_app rbrace) by cut_side.
    rewrite (strip_spaces rbrace) by cut_side.
    rewrite (strip_cons_plain rbrace) by cut_side.
    rewrite (strip_app rbracket) by cut_side.
    rewrite (strip_spaces rbracket) by cut_side.
    now rewrite (strip_cons_plain rbracket) by cut_side.
Qed.

(* ================================================================== *)
(** ** White space before a closing brace or bracket *)

Lemma option_map_app_nil {A} (o : option (list A)) :
  option_map (app []) o = o.
Proof. destruct o; reflexivity. Qed.

Lemma option_map_app_app {A} (l1 l2 : list A) (o : option (list A)) :
  option_map (app l1) (option_map (app l2) o) = option_map (app (l1 ++ l2)) o.
Proof. destruct o; simpl; [now rewrite app_assoc | reflexivity]. Qed.

Lemma lex_app (s1 s2 : pystr) :
  forall m,
    Json.lex m (s1 ++ s2)
    = match lex_prefix m s1 with
      | Some (ts, m') => option_map (app ts) (Json.lex m' s2)
      | None => None
      end.
Proof.
  induction s1 as [| c s1 IH]; intros m.
  - cbn [app lex_prefix]. now rewrite option_map_app_nil.
  - cbn [app Json.lex lex_prefix].
    destruct (Json.lex_step m c) as [[ts m'] |]; [| reflexivity].
    rewrite IH. destruct (lex_prefix m' s1) as [[ts' m''] |]; [| reflexivity].
    now rewrite option_map_app_app.
Qed.

Lemma lex_top_ws (ws t : pystr) :
  forallb Json.json_ws ws = true ->
  Json.lex Json.Top (ws ++ t) = Json.lex Json.Top t.
Proof.
  induction ws as [| w ws IH]; intros H; [reflexivity |].
  cbn [forallb] in H. apply andb_true_iff in H as [Hw Hws].
  cbn [app Json.lex Json.lex_step]. unfold Json.start. rewrite Hw.
  rewrite option_map_app_nil. now apply IH.
Qed.

Lemma json_ws_not_atom (w : char) :
  Json.json_ws w = true -> Json.atom_char w = false.
Proof.
  unfold Json.json_ws. intros H.
  repeat (apply orb_true_iff in H as [H | H]);
    apply N.eqb_eq in H; subst; reflexivity.
Qed.

Lemma closer_start (c : char) :
  is_closer c ->
  Json.atom_char c = false /\
  exists tok, Json.start c = Some ([tok], Json.Top).
Proof. intros [-> | ->]; (split; [reflexivity | eexists; reflexivity]). Qed.

(** Outside a string, JSON white space in front of a closing brace or bracket
    changes no token. *)
Lemma lex_ws_before_closer (m : Json.mode) (ws : pystr) (c : char)
      (t : pystr) :
  outside_string m = true -> forallb Json.json_ws ws = true -> is_closer c ->
  Json.lex m (ws ++ c :: t) = Json.lex m (c :: t).
Proof.
  intros Hm Hws Hc. destruct m as [| acc | | |]; try discriminate.
  - now apply lex_top_ws.
  - destruct ws as [| w ws]; [reflexivity |].
    cbn [forallb] in Hws. apply andb_true_iff in Hws as [Hw Hws].
    destruct (closer_start c Hc) as [Hca (tok & Hcs)].
    cbn [app Json.lex Json.lex_step].
    rewrite (json_ws_not_atom w Hw), Hca, Hcs. unfold Json.start at 1.
    rewrite Hw. destruct (Json.atom_of (rev acc)) as [v |]; [| reflexivity].
    rewrite (lex_top_ws ws (c :: t) Hws).
    cbn [Json.lex Json.lex_step]. rewrite Hcs.
    now rewrite option_map_app_app.
Qed.

(** The decoder reads the two texts alike. *)
Lemma loads_ws_before_closer (p ws q : pystr) (c : char) :
  ends_in_string p = false -> forallb Json.json_ws ws = true ->
  is_closer c ->
  Json.loads (p ++ c :: q) = Json.loads (p ++ ws ++ c :: q).
Proof.
  intros Hp Hws Hc. unfold Json.loads, Json.tokenize.
  rewrite !lex_app. unfold ends_in_string in Hp.
  destruct (lex_prefix Json.Top p) as [[ts m] |]; [| reflexivity].
  apply negb_false_iff in Hp. now rewrite lex_ws_before_closer.
Qed.

(** A trailing comma is tolerated: an array text with a comma in front of
    (white space and) a closing brace or bracket, outside any string and not
    after another comma, decodes exactly as the text without that comma. *)
Lemma loads_trailing_comma (a ws b : pystr) (c : char) :
  is_closer c -> forallb Json.json_ws ws = true ->
  dangling a = false -> ends_in_string (json_str_of a) = false ->
  Json.loads (json_str_of (a ++ ch "," :: ws ++ c :: b))
  = Json.loads (json_str_of (a ++ ws ++ c :: b)).
Proof.
  intros Hc Hws Hd Hs.
  rewrite json_str_of_lenient, json_str_of_strict by assumption.
  now apply loads_ws_before_closer.
Qed.

Lemma for_each_replace {A} (body : A -> M unit) (x y : A) :
  (forall st, body x st = body y st) ->
  forall (before after : list A) (st : state),
    for_each (before ++ x :: after) body st
    = for_each (before ++ y :: after) body st.
Proof.
  intros Hxy before after st. rewrite !for_each_app. unfold bind.
  destruct (for_each before body st) as [[[] | e | c] st1]; try reflexivity.
  cbn [for_each]. unfold bind. now rewrite Hxy.
Qed.

Lemma process_array_same_decoding (con : console) (array_name c1 c2 : pystr) :
  Json.loads (json_str_of c1) = Json.loads (json_str_of c2) ->
  forall st, process_array con [array_name; c1] st
             = process_array con [array_name; c2] st.
Proof.
  intros H st. unfold process_array, try_except, try_body, json_loads.
  now rewrite H.
Qed.

Lemma extract_found (con : console) (fs : filesystem) (order : set_order)
      (file_path : pystr) (st : state) (html_content : pystr)
      (found : list (list pystr)) :
  printable con (SayParsing file_path) = true ->
  fs file_path = Some html_content ->
  findall js_array_pattern html_content = found -> found <> [] ->
  extract_urls_from_js con fs order file_path st =
  match for_each found (process_array con)
          (State ((stdout st ++ [SayParsing file_path])
                  ++ [SayFoundArrays (length found)]) [])
  with
  | (Ret _, st1) =>
      (Ret (iter_set order (urls st1)),
       State (stdout st1 ++ [SayFoundUrls (length (urls st1))]) (urls st1))
  | (Raise e, st1) => (Raise e, st1)
  | (Exit c, st1) => (Exit c, st1)
  end.
Proof.
  intros Hp Hfs Hf Hne. rewrite extract_cases, Hp, Hfs, Hf. cbv zeta.
  destruct found; [congruence | reflexivity].
Qed.

(** C7, as the script has it.  Take two documents whose arrays, as the
    script finds them, are the same except that one array of the first has a
    comma where the second has none, in front of JSON white space (possibly
    none) and a closing brace or bracket; the comma does not follow another
    comma, and after the quote replacement the place is not inside a string.
    Then the two array texts decode alike (the lenient one parses whenever
    the other does, to the same records) and the two extractions end alike,
    with the same list of URLs. *)
Theorem trailing_comma_tolerated (con : console)
        (fs_lenient fs_strict : filesystem) (order : set_order)
        (file_path : pystr) (st : state) (doc_lenient doc_strict : pystr)
        (before after : list (list pystr)) (array_name a ws b : pystr)
        (c : char) :
  fs_lenient file_path = Some doc_lenient ->
  fs_strict file_path = Some doc_strict ->
  findall js_array_pattern doc_lenient
  = before ++ [array_name; a ++ ch "," :: ws ++ c :: b] :: after ->
  findall js_array_pattern doc_strict
  = before ++ [array_name; a ++ ws ++ c :: b] :: after ->
  is_closer c ->
  forallb Json.json_ws ws = true ->
  dangling a = false ->
  ends_in_string (json_str_of a) = false ->
  Json.loads (json_str_of (a ++ ch "," :: ws ++ c :: b))
  = Json.loads (json_str_of (a ++ ws ++ c :: b)) /\
  extract_urls_from_js con fs_lenient order file_path st
  = extract_urls_from_js con fs_strict order file_path st.
Proof.
  intros Hl Hs Hfl Hfs Hc Hws Hd Hin.
  pose proof (loads_trailing_comma a ws b c Hc Hws Hd Hin) as Hloads.
  split; [assumption |].
  destruct (printable con (SayParsing file_path)) eqn:Hp;
    [| now rewrite !extract_refused].
  rewrite (extract_found con _ order _ st _ _ Hp Hl Hfl)
    by (intros E; apply app_eq_nil in E as [_ E]; discriminate).
  rewrite (extract_found con _ order _ st _ _ Hp Hs Hfs)
    by (intros E; apply app_eq_nil in E as [_ E]; discriminate).
  rewrite !length_app. cbn [length].
  now rewrite (for_each_replace (process_array con) _ _
                 (process_array_same_decoding con array_name _ _ Hloads)).
Qed.

(** C7 on the example of the specification, with [, ] before the last
    brace. *)
Lemma trailing_comma_tolerated_witness :
  Json.loads (json_str_of (example_array_start ++ ch "," :: u " "
                             ++ rbrace :: u "]"))
  = Json.loads (json_str_of (example_array_start ++ u " " ++ rbrace :: u "]"))
  /\
  extract_urls_from_js utf8_console
    (single_file (declared (example_array_start ++ ch "," :: u " "
                              ++ rbrace :: u "]")))
    insertion_order HTML_FILE_PATH initial
  = extract_urls_from_js utf8_console
      (single_file (declared (example_array_start ++ u " "
                                ++ rbrace :: u "]")))
      insertion_order HTML_FILE_PATH initial.
Proof.
  apply (trailing_comma_tolerated utf8_console
           (single_file (declared (example_array_start ++ ch "," :: u " "
                                     ++ rbrace :: u "]")))
           (single_file (declared (example_array_start ++ u " "
                                     ++ rbrace :: u "]")))
           insertion_order HTML_FILE_PATH initial
           (declared (example_array_start ++ ch "," :: u " "
                        ++ rbrace :: u "]"))
           (declared (example_array_start ++ u " " ++ rbrace :: u "]"))
           [] [] (u "institutes") example_array_start (u " ") (u "]") rbrace).
  - vm_compute. reflexivity.
  - vm_compute. reflexivity.
  - vm_compute. reflexivity.
  - vm_compute. reflexivity.
  - left. reflexivity.
  - vm_compute. reflexivity.
  - vm_compute. reflexivity.
  - vm_compute. reflexivity.
Defined.

(** C7 as stated fails.  [quote_shift_strict] is valid JSON as it stands (two
    records), and [quote_shift_lenient] differs from it by one comma before a
    closing brace.  The script finds and decodes both arrays, but the quote
    replacement has turned the text around that brace into a string, the
    value of [url]: the comma and the space are cut out of it in one document
    and the space stays in the other, so the two lists of URLs differ. *)
Lemma trailing_comma_changes_urls :
  Json.loads quote_shift_strict
  = Some (VList [VDict [(u "a", VStr (u "b','url':"))];
                 VDict [(u ",'z", VInt 1)]]) /\
  findall js_array_pattern (declared quote_shift_strict)
  = [[u "institutes"; quote_shift_strict]] /\
  findall js_array_pattern (declared quote_shift_lenient)
  = [[u "institutes"; quote_shift_lenient]] /\
  fst (extract_urls_from_js utf8_console
         (single_file (declared quote_shift_strict))
         insertion_order HTML_FILE_PATH initial)
  = Ret [VStr (u " }, {")] /\
  fst (extract_urls_from_js utf8_console
         (single_file (declared quote_shift_lenient))
         insertion_order HTML_FILE_PATH initial)
  = Ret [VStr (u "}, {")] /\
  fst (extract_urls_from_js utf8_console
         (single_file (declared quote_shift_lenient))
         insertion_order HTML_FILE_PATH initial)
  <> fst (extract_urls_from_js utf8_console
            (single_file (declared quote_shift_strict))
            insertion_order HTML_FILE_PATH initial).
Proof.
  repeat split; try (vm_compute; reflexivity).
  vm_compute. discriminate.
Qed.

(** The simpler failure: a valid JSON array with an apostrophe in a name is
    not decoded by the script, with or without a trailing comma. *)
Lemma apostrophe_breaks_decoding :
  Json.loads (u "[{" ++ quoted "name" ++ u ":" ++ quoted "O'Neil" ++ u ","
                ++ quoted "url" ++ u ":" ++ quoted "https://good.example"
                ++ u "}]")
  = Some (VList [VDict [(u "name", VStr (u "O'Neil"));
                        (u "url", VStr (u "https://good.example"))]]) /\
  Json.loads (json_str_of
                (u "[{" ++ quoted "name" ++ u ":" ++ quoted "O'Neil" ++ u ","
                   ++ quoted "url" ++ u ":" ++ quoted "https://good.example"
                   ++ u ",}]"))
  = None.
Proof. split; vm_compute; reflexivity. Qed.

(* ================================================================== *)
(** ** The characters of decoded strings are characters of the text *)

Lemma dict_set_chars (k : pystr) (v : value) (d : list (pystr * value))
      (x : char) :
  In x (value_chars (VDict (dict_set k v d))) ->
  In x k \/ In x (value_chars v) \/ In x (value_chars (VDict d)).
Proof.
  induction d as [| [k' v'] d IH]; cbn [dict_set value_chars flat_map fst snd].
  - rewrite app_nil_r. intros H. apply in_app_or in H. tauto.
  - destruct (pystr_eqb k' k) eqn:E;
      cbn [value_chars flat_map fst snd]; intros H;
      repeat (apply in_app_or in H as [H | H]).
    + right. right. apply in_or_app. left. apply in_or_app. now left.
    + tauto.
    + right. right. apply in_or_app. now right.
    + right. right. apply in_or_app. left. apply in_or_app. now left.
    + right. right. apply in_or_app. left. apply in_or_app. now right.
    + apply IH in H as [H | [H | H]]; auto.
      right. right. apply in_or_app. now right.
Qed.

Lemma dict_get_chars (k : pystr) (d : list (pystr * value)) (v : value)
      (x : char) :
  dict_get k d = Some v -> In x (value_chars v) ->
  In x (value_chars (VDict d)).
Proof.
  induction d as [| [k' v'] d IH]; cbn [dict_get]; [discriminate |].
  cbn [value_chars flat_map fst snd]. destruct (pystr_eqb k' k).
  - intros E Hx. inversion E; subst. apply in_or_app. left.
    apply in_or_app. now right.
  - intros E Hx. apply in_or_app. right. now apply IH.
Qed.

Lemma elements_chars (data : value) (items : list value) (item : value)
      (x : char) :
  elements data = Some items -> In item items -> In x (value_chars item) ->
  In x (value_chars data).
Proof.
  destruct data; cbn [elements]; intros E Hi Hx; inversion E; subst.
  - apply in_map_iff in Hi as (c & <- & Hc). cbn [value_chars] in *.
    destruct Hx as [<- | []]. assumption.
  - cbn [value_chars]. apply in_flat_map. eauto.
  - apply in_map_iff in Hi as ([k v] & <- & Hkv). cbn [value_chars fst] in *.
    apply in_flat_map. exists (k, v). split; [assumption |].
    apply in_or_app. now left.
Qed.

Lemma flat_map_rev_in {A B} (f : A -> list B) (l : list A) (x : B) :
  In x (flat_map f (rev l)) <-> In x (flat_map f l).
Proof.
  rewrite !in_flat_map. split; intros (a & Ha & Hx); exists a;
    (split; [| assumption]); [now apply in_rev | now apply in_rev in Ha].
Qed.

Lemma decoded_from_cons (extra : list char) (t : Json.token)
      (ts : list Json.token) (v : value) (r : list Json.token) :
  decoded_from extra ts v r -> decoded_from extra (t :: ts) v r.
Proof.
  intros (Hl & Hr & Hv). unfold toks_chars in *. repeat split.
  - cbn [length]. lia.
  - intros x Hx. cbn [flat_map]. apply in_or_app. right. now apply Hr.
  - intros x Hx. destruct (Hv x Hx) as [H | H]; [left | now right].
    cbn [flat_map]. apply in_or_app. now right.
Qed.

Lemma parse_decoded (n : nat) :
  (forall ts v r, Json.parse_value n ts = Json.POk (v, r) ->
                  decoded_from [] ts v r) /\
  (forall ts acc v r, Json.parse_elems n ts acc = Json.POk (v, r) ->
                      decoded_from (flat_map value_chars acc) ts v r) /\
  (forall ts acc v r, Json.parse_members n ts acc = Json.POk (v, r) ->
                      decoded_from (value_chars (VDict acc)) ts v r).
Proof.
  induction n as [| n (IHv & IHe & IHm)]; [repeat split; discriminate |].
  split; [| split].
  - intros ts v r H. cbn [Json.parse_value] in H.
    destruct ts as [| t ts]; [discriminate |].
    destruct t; try discriminate.
    + destruct ts as [| t' ts'].
      * apply IHm in H. now apply decoded_from_cons.
      * destruct t'; try (apply IHm in H; now apply decoded_from_cons).
        inversion H; subst. unfold decoded_from, toks_chars.
        cbn [length flat_map tok_chars value_chars app].
        repeat split; auto; intros x [].
    + destruct ts as [| t' ts'].
      * apply IHe in H. now apply decoded_from_cons.
      * destruct t'; try (apply IHe in H; now apply decoded_from_cons).
        inversion H; subst. unfold decoded_from, toks_chars.
        cbn [length flat_map tok_chars value_chars app].
        repeat split; auto; intros x [].
    + inversion H; subst. unfold decoded_from, toks_chars.
      cbn [length flat_map tok_chars value_chars]. repeat split; auto.
      * intros x Hx. apply in_or_app. now right.
      * intros x Hx. left. apply in_or_app. now left.
    + inversion H; subst. unfold decoded_from, toks_chars.
      cbn [length flat_map tok_chars]. repeat split; auto.
      * intros x Hx. apply in_or_app. now right.
      * intros x Hx. left. apply in_or_app. now left.
  - intros ts acc v r H. cbn [Json.parse_elems] in H.
    destruct (Json.parse_value n ts) as [[v1 r1] | |] eqn:E;
      try discriminate.
    apply IHv in E as (Hl & Hr & Hv).
    destruct r1 as [| t r1]; [discriminate |].
    destruct t; try discriminate.
    + inversion H; subst. unfold decoded_from, toks_chars in *.
      cbn [length flat_map tok_chars app] in *. repeat split; auto; [lia |].
      intros x Hx. cbn [value_chars rev] in Hx. rewrite flat_map_app in Hx.
      apply in_app_or in Hx as [Hx | Hx].
      * apply (proj1 (flat_map_rev_in _ _ _)) in Hx. now right.
      * cbn [flat_map] in Hx. rewrite app_nil_r in Hx.
        destruct (Hv x Hx) as [H1 | []]. now left.
    + apply IHe in H as (Hl2 & Hr2 & Hv2). unfold decoded_from, toks_chars in *.
      cbn [length flat_map tok_chars app] in *. repeat split; auto; [lia |].
      intros x Hx. destruct (Hv2 x Hx) as [H1 | H1]; [left; auto |].
      apply in_app_or in H1 as [H1 | H1]; [| now right].
      destruct (Hv x H1) as [H2 | []]. now left.
  - intros ts acc v r H. cbn [Json.parse_members] in H.
    destruct ts as [| t ts]; [discriminate |].
    destruct t; try discriminate.
    destruct ts as [| t ts]; [discriminate |].
    destruct t; try discriminate.
    destruct (Json.parse_value n ts) as [[v1 r1] | |] eqn:E;
      try discriminate.
    apply IHv in E as (Hl & Hr & Hv).
    destruct r1 as [| t r1]; [discriminate |].
    assert (forall x, In x (value_chars (VDict (dict_set s v1 acc))) ->
                      In x (toks_chars (Json.TStr s :: Json.TColon :: ts))
                      \/ In x (value_chars (VDict acc))) as Hd.
    { intros x Hx. apply dict_set_chars in Hx as [Hx | [Hx | Hx]];
        [left | | now right]; unfold toks_chars;
        cbn [flat_map tok_chars app].
      - apply in_or_app. now left.
      - destruct (Hv x Hx) as [H1 | []]. left. apply in_or_app. now right. }
    destruct t; try discriminate.
    + inversion H; subst. unfold decoded_from, toks_chars in *.
      cbn [length flat_map tok_chars app] in *. repeat split; auto; [lia |].
      intros x Hx. apply in_or_app. right. now apply Hr.
    + apply IHm in H as (Hl2 & Hr2 & Hv2). unfold decoded_from, toks_chars in *.
      cbn [length flat_map tok_chars app] in *. repeat split; auto; [lia | |].
      * intros x Hx. apply in_or_app. right. now apply Hr, Hr2.
      * intros x Hx. destruct (Hv2 x Hx) as [H1 | H1]; [| now apply Hd].
        left. apply in_or_app. right. now apply Hr.
Qed.

(** The recursion bound of [Json.loads] is never reached. *)
Lemma parse_fuel (n : nat) :
  (forall ts, 2 * length ts + 1 <= n -> Json.parse_value n ts <> Json.PFuel)
  /\
  (forall ts acc, 2 * length ts + 2 <= n ->
                  Json.parse_elems n ts acc <> Json.PFuel) /\
  (forall ts acc, 2 * length ts + 2 <= n ->
                  Json.parse_members n ts acc <> Json.PFuel).
Proof.
  induction n as [| n (IHv & IHe & IHm)]; [repeat split; intros; lia |].
  split; [| split].
  - intros ts Hn. cbn [Json.parse_value].
    destruct ts as [| t ts]; [discriminate |]. cbn [length] in Hn.
    destruct t; try discriminate.
    + destruct ts as [| t' ts']; [apply IHm; cbn [length]; lia |].
      destruct t'; try discriminate; apply IHm; cbn [length] in *; lia.
    + destruct ts as [| t' ts']; [apply IHe; cbn [length]; lia |].
      destruct t'; try discriminate; apply IHe; cbn [length] in *; lia.
  - intros ts acc Hn. cbn [Json.parse_elems].
    destruct (Json.parse_value n ts) as [[v1 r1] | |] eqn:E;
      [| discriminate | exfalso; revert E; apply IHv; lia].
    apply (proj1 (parse_decoded n)) in E as (Hl & _).
    destruct r1 as [| t r1]; [discriminate |]. cbn [length] in Hl.
    destruct t; try discriminate. apply IHe. lia.
  - intros ts acc Hn. cbn [Json.parse_members].
    destruct ts as [| t ts]; [discriminate |].
    destruct t; try discriminate.
    destruct ts as [| t ts]; [discriminate |].
    destruct t; try discriminate. cbn [length] in Hn.
    destruct (Json.parse_value n ts) as [[v1 r1] | |] eqn:E;
      [| discriminate | exfalso; revert E; apply IHv; lia].
    apply (proj1 (parse_decoded n)) in E as (Hl & _).
    destruct r1 as [| t r1]; [discriminate |]. cbn [length] in Hl.
    destruct t; try discriminate. apply IHm. lia.
Qed.

Lemma parse_value_fuel (ts : list Json.token) :
  Json.parse_value (2 * length ts + 1) ts <> Json.PFuel.
Proof. apply (proj1 (parse_fuel _)). lia. Qed.

(** So a [None] of [Json.loads] is always a refusal of the text: the
    tokenizer stopped, the decoder met a token it cannot accept, or text was
    left over. *)
Lemma loads_none (s : pystr) :
  Json.loads s = None ->
  Json.tokenize s = None \/
  exists ts, Json.tokenize s = Some ts /\
             (Json.parse_value (2 * length ts + 1) ts = Json.PErr \/
              exists v t r, Json.parse_value (2 * length ts + 1) ts
                            = Json.POk (v, t :: r)).
Proof.
  unfold Json.loads. destruct (Json.tokenize s) as [ts |]; [| now left].
  intros H. right. exists ts. split; [reflexivity |].
  pose proof (parse_value_fuel ts) as Hf.
  destruct (Json.parse_value (2 * length ts + 1) ts) as [[v [| t r]] | |];
    [discriminate | right; eauto | now left | congruence].
Qed.

Lemma number_of_chars (s : pystr) (v : value) :
  Json.number_of s = Some v -> value_chars v = [].
Proof.
  unfold Json.number_of.
  repeat match goal with
         | |- context [match ?x with _ => _ end] => destruct x
         | |- context [if ?x then _ else _] => destruct x
         end;
    intros H; inversion H; reflexivity.
Qed.

Lemma atom_of_chars (s : pystr) (v : value) :
  Json.atom_of s = Some v -> value_chars v = [].
Proof.
  unfold Json.atom_of.
  repeat match goal with
         | |- context [if ?x then _ else _] => destruct x
         end;
    try (intros H; inversion H; reflexivity).
  apply number_of_chars.
Qed.

Lemma start_plain (c : char) (ts : list Json.token) (m : Json.mode) :
  Json.start c = Some (ts, m) ->
  plain m = true /\ toks_chars ts = [] /\
  forall x, In x (pending m) -> x = c.
Proof.
  unfold Json.start.
  repeat match goal with
         | |- context [if ?x then _ else _] => destruct x
         end;
    intros H; inversion H; subst; repeat split; auto; intros x [].
Qed.

Lemma lex_step_plain (m : Json.mode) (c : char) (ts : list Json.token)
      (m' : Json.mode) :
  c <> backslash -> plain m = true -> Json.lex_step m c = Some (ts, m') ->
  plain m' = true /\
  (forall x, In x (toks_chars ts) -> In x (pending m)) /\
  (forall x, In x (pending m') -> x = c \/ In x (pending m)).
Proof.
  intros Hc Hm H. destruct m as [| acc | acc [hi |] | |]; try discriminate;
    cbn [Json.lex_step] in H.
  - apply start_plain in H as (Hp & Ht & Hx). rewrite Ht.
    repeat split; auto; intros x [].
  - destruct (Json.atom_char c).
    + inversion H; subst. repeat split; auto; intros x [].
    + destruct (Json.atom_of (rev acc)) as [v |] eqn:Ea; [| discriminate].
      destruct (Json.start c) as [[ts0 m0] |] eqn:Es; [| discriminate].
      inversion H; subst. apply start_plain in Es as (Hp & Ht & Hx).
      unfold toks_chars in *. cbn [flat_map tok_chars].
      rewrite (atom_of_chars _ _ Ea), Ht. repeat split; auto.
  - destruct (char_eqb c dquote).
    + inversion H; subst. unfold toks_chars.
      cbn [flat_map tok_chars Json.flush pending app]. repeat split; auto.
      * intros x Hx. rewrite app_nil_r in Hx. now apply in_rev.
      * intros x [].
    + destruct (char_eqb c backslash) eqn:Eb.
      * unfold char_eqb in Eb. apply N.eqb_eq in Eb. contradiction.
      * destruct (c <? 32)%N; [discriminate |]. inversion H; subst.
        cbn [Json.flush pending]. repeat split; auto.
        -- intros x [].
        -- intros x [<- | Hx]; auto.
Qed.

(** Without a backslash in the text, the characters of the string tokens are
    characters of the text. *)
Lemma lex_chars (s : pystr) :
  forall (m : Json.mode) (toks : list Json.token),
    ~ In backslash s -> plain m = true -> Json.lex m s = Some toks ->
    forall x, In x (toks_chars toks) -> In x s \/ In x (pending m).
Proof.
  induction s as [| c s IH]; intros m toks Hb Hm H x Hx.
  - cbn [Json.lex] in H. destruct m as [| acc | acc [hi |] | |];
      try discriminate; cbn [Json.lex_end] in H.
    + inversion H; subst. destruct Hx.
    + destruct (Json.atom_of (rev acc)) as [v |] eqn:Ea; [| discriminate].
      inversion H; subst. unfold toks_chars in Hx.
      cbn [flat_map tok_chars] in Hx.
      rewrite (atom_of_chars _ _ Ea) in Hx. destruct Hx.
  - cbn [Json.lex] in H.
    destruct (Json.lex_step m c) as [[ts m'] |] eqn:Es; [| discriminate].
    destruct (Json.lex m' s) as [toks' |] eqn:El; [| discriminate].
    inversion H; subst.
    assert (c <> backslash) as Hc by (intros ->; apply Hb; now left).
    destruct (lex_step_plain _ _ _ _ Hc Hm Es) as (Hp & Ht & Hn).
    unfold toks_chars in Hx. rewrite flat_map_app in Hx.
    apply in_app_or in Hx as [Hx | Hx]; [right; now apply Ht |].
    assert (~ In backslash s) as Hb' by (intros Hin; apply Hb; now right).
    destruct (IH _ _ Hb' Hp El x Hx) as [Hin | Hin]; [left; now right |].
    destruct (Hn x Hin) as [-> | Hin']; [left; now left | now right].
Qed.

Lemma loads_chars (s : pystr) (v : value) :
  ~ In backslash s -> Json.loads s = Some v ->
  forall x, In x (value_chars v) -> In x s.
Proof.
  intros Hb H x Hx. unfold Json.loads, Json.tokenize in H.
  destruct (Json.lex Json.Top s) as [ts |] eqn:El; [| discriminate].
  destruct (Json.parse_value (2 * length ts + 1) ts) as [[v' r] | |] eqn:Ep;
    try discriminate.
  destruct r; [| discriminate]. inversion H; subst.
  apply (proj1 (parse_decoded _)) in Ep as (_ & _ & Hv).
  destruct (Hv x Hx) as [Hin | []].
  destruct (lex_chars s Json.Top ts Hb eq_refl El x Hin) as [Hs | []].
  assumption.
Qed.

Lemma replace_char_in (old : char) (new s : pystr) (x : char) :
  In x (replace_char old new s) -> In x new \/ (In x s /\ x <> old).
Proof.
  unfold replace_char. intros H. apply in_flat_map in H as (c & Hc & Hx).
  destruct (char_eqb c old) eqn:E; [now left |].
  destruct Hx as [<- | []]. right. split; [assumption |].
  intros ->. unfold char_eqb in E. now rewrite N.eqb_refl in E.
Qed.

Lemma sub_from_in (r : regex) (repl : pystr) (s : pystr) (x : char) :
  forall k, In x (sub_from r repl k s) -> In x repl \/ In x s.
Proof.
  induction s as [| c s IH]; intros k H; [destruct H |].
  cbn [sub_from] in H. destruct k as [| k].
  - destruct (match_at r (c :: s)) as [[caps rest] |].
    + apply in_app_or in H as [H | H]; [now left |].
      destruct (IH _ H); [now left | right; now right].
    + destruct H as [<- | H]; [right; now left |].
      destruct (IH _ H); [now left | right; now right].
  - destruct (IH _ H); [now left | right; now right].
Qed.

(** Every character of the JSON text is a character of the array text other
    than the two quotes, or one of the characters the script writes. *)
Lemma json_str_of_in (array_content : pystr) (x : char) :
  In x (json_str_of array_content) ->
  x = dquote \/ x = rbrace \/ x = rbracket \/
  (In x array_content /\ x <> ch "'" /\ x <> ch "`").
Proof.
  unfold json_str_of, sub. intros H.
  apply sub_from_in in H as [[<- | []] | H]; [tauto |].
  apply sub_from_in in H as [[<- | []] | H]; [tauto |].
  apply replace_char_in in H as [[<- | []] | [H N2]]; [tauto |].
  apply replace_char_in in H as [[<- | []] | [H N1]]; tauto.
Qed.

(* ================================================================== *)
(** ** When the substitutions leave a text alone *)

Lemma skip_space_split (t : pystr) :
  exists ws, t = ws ++ skip_space t /\ forallb isspace ws = true.
Proof.
  induction t as [| x t (ws & E & Hws)]; [now exists [] |].
  cbn [skip_space]. destruct (isspace x) eqn:Ex.
  - exists (x :: ws). cbn [app forallb]. rewrite Ex, Hws.
    split; [f_equal; exact E | reflexivity].
  - now exists [].
Qed.

Section CommaBefore.

Variable close : char.
Hypothesis close_not_space : isspace close = false.
Hypothesis close_not_comma : char_eqb close (ch ",") = false.

Lemma trailing_at_comma_before (x : char) (t rest : pystr) :
  trailing_at close (x :: t) = Some rest ->
  x = ch "," /\
  exists ws, t = ws ++ close :: rest /\ forallb isspace ws = true.
Proof.
  cbn [trailing_at]. destruct (char_eqb (ch ",") x) eqn:Ex; [| discriminate].
  unfold char_eqb in Ex. apply N.eqb_eq in Ex. subst x.
  destruct (skip_space_split t) as (ws & E & Hws).
  destruct (skip_space t) as [| y rest']; [discriminate |].
  destruct (char_eqb close y) eqn:Ey; [| discriminate].
  unfold char_eqb in Ey. apply N.eqb_eq in Ey. subst y.
  intros H. inversion H; subst rest'. split; [reflexivity |]. now exists ws.
Qed.

Lemma comma_before_trailing_at (ws after : pystr) :
  forallb isspace ws = true ->
  trailing_at close (ch "," :: ws ++ close :: after) = Some after.
Proof.
  intros Hws. cbn [trailing_at].
  replace (char_eqb (ch ",") (ch ",")) with true by reflexivity.
  rewrite (proj2 (skip_space_all ws (close :: after) Hws)).
  cbn [skip_space]. rewrite close_not_space.
  unfold char_eqb. now rewrite N.eqb_refl.
Qed.

Lemma strip_id (s : pystr) :
  ~ comma_before close s -> strip close 0 s = s.
Proof.
  induction s as [| x s IH]; intros Hno; [reflexivity |].
  rewrite strip_cons by assumption.
  destruct (trailing_at close (x :: s)) as [rest |] eqn:E.
  - exfalso. apply Hno.
    apply trailing_at_comma_before in E as (-> & ws & -> & Hws).
    now exists [], ws, rest.
  - f_equal. apply IH. intros (before & ws & after & -> & Hws).
    apply Hno. now exists (x :: before), ws, after.
Qed.

Lemma strip_length_skip (s : pystr) :
  forall k, k <= length s -> length (strip close k s) + k <= length s.
Proof.
  induction s as [| x s IH]; intros k Hk.
  - cbn [length] in *. replace k with 0 by lia. reflexivity.
  - destruct k as [| k].
    + rewrite strip_cons by assumption.
      destruct (trailing_at close (x :: s)) as [rest |] eqn:E.
      * apply trailing_at_length in E.
        cbn [length] in *.
        pose proof (IH (length s - length rest) ltac:(lia)). lia.
      * cbn [length]. pose proof (IH 0 ltac:(lia)). lia.
    + change (strip close (S k) (x :: s)) with (strip close k s).
      cbn [length] in *. pose proof (IH k ltac:(lia)). lia.
Qed.

Lemma strip_shortens (s : pystr) :
  comma_before close s -> length (strip close 0 s) < length s.
Proof.
  intros (before & ws & after & -> & Hws).
  induction before as [| y before IH]; cbn [app].
  - rewrite strip_cons by assumption.
    rewrite (comma_before_trailing_at ws after Hws).
    assert (Ht : length (ws ++ close :: after)
                 = length ws + S (length after))
      by (rewrite length_app; reflexivity).
    pose proof (strip_length_skip (ws ++ close :: after)
                  (length (ws ++ close :: after) - length after)
                  ltac:(lia)) as Hl.
    remember (ws ++ close :: after) as t eqn:Et.
    cbn [length]. lia.
  - rewrite strip_cons by assumption.
    destruct (trailing_at close (y :: before ++ ch "," :: ws ++ close :: after))
      as [rest |] eqn:E.
    + pose proof (trailing_at_length close _ _ E) as Hr.
      pose proof (strip_length_skip
                    (before ++ ch "," :: ws ++ close :: after)
                    (length (before ++ ch "," :: ws ++ close :: after)
                     - length rest) ltac:(lia)) as Hl.
      cbn [length] in *. lia.
    + cbn [length]. lia.
Qed.

End CommaBefore.

Lemma requote_id (s : pystr) :
  ~ In (ch "'") s -> ~ In (ch "`") s -> requote s = s.
Proof.
  intros H1 H2. unfold requote.
  assert (Hf : forall c, ~ In c s ->
                         forallb (fun x => negb (char_eqb x c)) s = true).
  { intros c Hc. apply forallb_forall. intros x Hx.
    apply negb_true_iff. unfold char_eqb. apply N.eqb_neq.
    intros ->. contradiction. }
  rewrite (replace_char_other (ch "'")) by now apply Hf.
  now apply replace_char_other, Hf.
Qed.

Lemma json_str_of_length (s : pystr) :
  length (json_str_of s) <= length s /\
  (comma_before rbrace (requote s) \/
   comma_before rbracket (strip rbrace 0 (requote s)) ->
   length (json_str_of s) < length s).
Proof.
  rewrite json_str_of_unfold.
  assert (Hq : length (requote s) = length s).
  { unfold requote, replace_char. induction s as [| x s IH]; [reflexivity |].
    cbn [flat_map]. destruct (char_eqb x (ch "'")); cbn [app flat_map].
    - replace (char_eqb dquote (ch "`")) with false by reflexivity.
      cbn [app length]. now rewrite IH.
    - destruct (char_eqb x (ch "`")); cbn [app length]; now rewrite IH. }
  pose proof (strip_length_skip rbrace eq_refl eq_refl (requote s) 0
                ltac:(lia)) as H1.
  pose proof (strip_length_skip rbracket eq_refl eq_refl
                (strip rbrace 0 (requote s)) 0 ltac:(lia)) as H2.
  split; [lia |]. intros [H | H].
  - apply (strip_shortens rbrace eq_refl eq_refl) in H. lia.
  - apply (strip_shortens rbracket eq_refl eq_refl) in H. lia.
Qed.

(** X10.  Lines 43 to 47 leave a text as it is exactly when it holds no
    single quote, no backtick, and no comma that is followed, after optional
    white space, by a closing brace or bracket; the text they produce is
    never longer than the one they read. *)
Theorem normalization_fixes_clean (array_content : pystr) :
  (json_str_of array_content = array_content <-> clean array_content) /\
  length (json_str_of array_content) <= length array_content.
Proof.
  split; [| apply json_str_of_length]. split.
  - intros E.
    assert (H1 : ~ In (ch "'") array_content).
    { intros Hin. rewrite <- E in Hin.
      apply json_str_of_in in Hin
        as [H | [H | [H | (_ & H & _)]]]; try discriminate H.
      now apply H. }
    assert (H2 : ~ In (ch "`") array_content).
    { intros Hin. rewrite <- E in Hin.
      apply json_str_of_in in Hin
        as [H | [H | [H | (_ & _ & H)]]]; try discriminate H.
      now apply H. }
    pose proof (requote_id _ H1 H2) as Hq.
    pose proof (proj2 (json_str_of_length array_content)) as Hl.
    rewrite Hq, E in Hl.
    assert (H3 : ~ comma_before rbrace array_content)
      by (intros H; specialize (Hl (or_introl H)); lia).
    rewrite (strip_id rbrace eq_refl eq_refl _ H3) in Hl.
    assert (H4 : ~ comma_before rbracket array_content)
      by (intros H; specialize (Hl (or_intror H)); lia).
    now repeat split.
  - intros (H1 & H2 & H3 & H4).
    rewrite json_str_of_unfold, (requote_id _ H1 H2).
    rewrite (strip_id rbrace eq_refl eq_refl _ H3).
    now apply (strip_id rbracket eq_refl eq_refl).
Qed.

(** X10 on a strictly valid text and on the array of the example document,
    whose single quotes are replaced. *)
Lemma normalization_fixes_clean_witness :
  clean (u "[1, 2]") /\
  ~ clean example_array /\
  length (json_str_of example_array) <= length example_array.
Proof.
  split; [| split].
  - apply (proj1 (proj1 (normalization_fixes_clean (u "[1, 2]")))).
    vm_compute. reflexivity.
  - intros H.
    apply (proj2 (proj1 (normalization_fixes_clean example_array))) in H.
    vm_compute in H. discriminate H.
  - apply (proj2 (normalization_fixes_clean example_array)).
Defined.

(* ================================================================== *)
(** ** Where a quote in a decoded string comes from *)

Lemma hex_code_from_snoc (ds : pystr) (c : char) :
  forall acc,
    hex_code_from acc (ds ++ [c]) =
    match hex_code_from acc ds with
    | Some a =>
        match Json.hex_val c with
        | Some v => Some (16 * a + v)%N
        | None => None
        end
    | None => None
    end.
Proof.
  induction ds as [| d ds IH]; intros acc; cbn [app hex_code_from].
  - destruct (Json.hex_val c); reflexivity.
  - destruct (Json.hex_val d); [apply IH | reflexivity].
Qed.

Lemma hex_code_digits (ds : pystr) :
  forall acc x d,
    hex_code_from acc ds = Some x -> In d ds -> Json.hex_val d <> None.
Proof.
  induction ds as [| d0 ds IH]; intros acc x d H Hd; [destruct Hd |].
  cbn [hex_code_from] in H.
  destruct (Json.hex_val d0) as [v |] eqn:E; [| discriminate].
  destruct Hd as [<- | Hd]; [congruence | now apply (IH _ _ _ H)].
Qed.

Lemma start_tracked (x : char) (full pre : pystr) (c : char)
      (ts : list Json.token) (m' : Json.mode) :
  In c full -> Json.start c = Some (ts, m') ->
  tracked x full pre m' /\ toks_chars ts = [].
Proof.
  intros Hc H. apply start_plain in H as (Hp & Ht & Hx).
  split; [| assumption].
  destruct m' as [| acc | acc [hi |] | |]; try discriminate; cbn [tracked];
    try exact I.
  intros Hin. left. cbn [Json.flush] in Hin. cbn [pending] in Hx.
  now rewrite (Hx x Hin).
Qed.

Lemma join_surrogates_big (h l : N) : (65536 <= Json.join_surrogates h l)%N.
Proof. unfold Json.join_surrogates. lia. Qed.

(** One character of the text: what the string under construction gains
    is that character, the character of a two-letter escape, or the code of
    an escape spelled with four digits. *)
Lemma lex_step_tracked (x : char) (full pre rest : pystr) (c : char)
      (m m' : Json.mode) (ts : list Json.token) :
  (forall y, Json.escape_char y <> Some x) -> (x < 65536)%N ->
  full = pre ++ c :: rest ->
  tracked x full pre m -> Json.lex_step m c = Some (ts, m') ->
  tracked x full (pre ++ [c]) m' /\
  (In x (toks_chars ts) -> In x full \/ spelled x full).
Proof.
  intros Hesc Hlow Hfull Ht H.
  assert (Hc : In c full)
    by (rewrite Hfull; apply in_or_app; right; now left).
  destruct m as [| acc | acc hi | acc hi | acc hi code cnt];
    cbn [Json.lex_step] in H.
  - destruct (start_tracked x full (pre ++ [c]) c ts m' Hc H) as [T E].
    split; [exact T |]. rewrite E. intros [].
  - destruct (Json.atom_char c).
    + inversion H; subst ts m'. split; [exact I | intros []].
    + destruct (Json.atom_of (rev acc)) as [v |] eqn:Ea; [| discriminate].
      destruct (Json.start c) as [[ts0 m0] |] eqn:Es; [| discriminate].
      inversion H; subst ts m'.
      destruct (start_tracked x full (pre ++ [c]) c ts0 m0 Hc Es) as [T E].
      split; [exact T |]. unfold toks_chars in *. cbn [flat_map tok_chars].
      rewrite (atom_of_chars _ _ Ea), E. intros [].
  - cbn [tracked] in Ht. destruct (char_eqb c dquote).
    + inversion H; subst ts m'. split; [exact I |].
      unfold toks_chars. cbn [flat_map tok_chars]. rewrite app_nil_r.
      intros Hin. apply Ht. now apply in_rev.
    + destruct (char_eqb c backslash) eqn:Eb.
      * inversion H; subst ts m'. split; [| intros []]. cbn [tracked].
        split; [exact Ht |]. exists pre.
        unfold char_eqb in Eb. apply N.eqb_eq in Eb. now subst c.
      * destruct (c <? 32)%N; [discriminate |]. inversion H; subst ts m'.
        split; [| intros []]. cbn [tracked]. unfold carries.
        cbn [Json.flush]. intros [<- | Hin]; [now left | now apply Ht].
  - cbn [tracked] in Ht. destruct Ht as [Hcar [p0 Hpre]].
    destruct (char_eqb c (ch "u")) eqn:Eu.
    + inversion H; subst ts m'. split; [| intros []]. cbn [tracked].
      split; [exact Hcar |]. exists p0, [].
      unfold char_eqb in Eu. apply N.eqb_eq in Eu. subst c.
      rewrite Hpre, <- app_assoc. repeat split.
    + destruct (Json.escape_char c) as [e |] eqn:Ee; [| discriminate].
      inversion H; subst ts m'. split; [| intros []]. cbn [tracked].
      unfold carries. cbn [Json.flush].
      intros [<- | Hin]; [exfalso; now apply (Hesc c) | now apply Hcar].
  - cbn [tracked] in Ht.
    destruct Ht as [Hcar (p0 & ds & Hpre & Hlen & Hcode)].
    destruct (Json.hex_val c) as [d |] eqn:Ed; [| discriminate].
    remember (16 * code + d)%N as k eqn:Ek.
    assert (Hsnoc : hex_code (ds ++ [c]) = Some k).
    { unfold hex_code in *. now rewrite hex_code_from_snoc, Hcode, Ed, Ek. }
    assert (Hpre' : pre ++ [c] = p0 ++ backslash :: ch "u" :: ds ++ [c])
      by (rewrite Hpre, <- app_assoc; reflexivity).
    destruct (Nat.eqb cnt 3) eqn:E3.
    + apply Nat.eqb_eq in E3. inversion H; subst ts m'.
      split; [| intros []].
      assert (Hsp : k = x -> spelled x full).
      { intros <-. exists p0, (ds ++ [c]), rest. split; [| split].
        - rewrite Hfull, Hpre, <- !app_assoc. reflexivity.
        - rewrite length_app. cbn [length]. lia.
        - exact Hsnoc. }
      unfold Json.decoded, Json.fresh.
      destruct hi as [h |].
      * destruct (Json.is_low k).
        -- cbn [tracked]. unfold carries. cbn [Json.flush].
           intros [E | Hin].
           ++ pose proof (join_surrogates_big h k). lia.
           ++ apply Hcar. cbn [Json.flush]. now right.
        -- destruct (Json.is_high k); cbn [tracked];
             unfold carries; cbn [Json.flush];
             (intros [E | Hin]; [right; now apply Hsp | now apply Hcar]).
      * destruct (Json.is_high k); cbn [tracked];
          unfold carries; cbn [Json.flush];
          (intros [E | Hin]; [right; now apply Hsp | now apply Hcar]).
    + inversion H; subst ts m'. split; [| intros []]. cbn [tracked].
      split; [exact Hcar |]. exists p0, (ds ++ [c]).
      split; [exact Hpre' | split; [| exact Hsnoc]].
      rewrite length_app. cbn [length]. lia.
Qed.

Lemma lex_tracked (x : char) :
  (forall y, Json.escape_char y <> Some x) -> (x < 65536)%N ->
  forall (s pre : pystr) (m : Json.mode) (toks : list Json.token),
    tracked x (pre ++ s) pre m -> Json.lex m s = Some toks ->
    In x (toks_chars toks) -> In x (pre ++ s) \/ spelled x (pre ++ s).
Proof.
  intros Hesc Hlow. induction s as [| c s IH]; intros pre m toks Ht H Hx.
  - cbn [Json.lex] in H. destruct m as [| acc | acc hi | |];
      try discriminate; cbn [Json.lex_end] in H.
    + inversion H; subst. destruct Hx.
    + destruct (Json.atom_of (rev acc)) as [v |] eqn:Ea; [| discriminate].
      inversion H; subst. unfold toks_chars in Hx.
      cbn [flat_map tok_chars] in Hx.
      rewrite (atom_of_chars _ _ Ea) in Hx. destruct Hx.
  - cbn [Json.lex] in H.
    destruct (Json.lex_step m c) as [[ts m'] |] eqn:Es; [| discriminate].
    destruct (Json.lex m' s) as [toks' |] eqn:El; [| discriminate].
    inversion H; subst.
    destruct (lex_step_tracked x (pre ++ c :: s) pre s c m m' ts
                Hesc Hlow eq_refl Ht Es) as [Ht' Hts].
    unfold toks_chars in Hx. rewrite flat_map_app in Hx.
    apply in_app_or in Hx as [Hx | Hx]; [now apply Hts |].
    replace (pre ++ c :: s) with ((pre ++ [c]) ++ s) in *
      by (now rewrite <- app_assoc).
    now apply (IH (pre ++ [c]) m' toks').
Qed.

(** A decoded value holds the character [x], one that no two-letter escape
    stands for, only where the text holds it or spells it with four
    digits. *)
Lemma loads_spelled (x : char) (s : pystr) (v : value) :
  (forall y, Json.escape_char y <> Some x) -> (x < 65536)%N ->
  Json.loads s = Some v -> In x (value_chars v) ->
  In x s \/ spelled x s.
Proof.
  intros Hesc Hlow H Hx. unfold Json.loads, Json.tokenize in H.
  destruct (Json.lex Json.Top s) as [ts |] eqn:El; [| discriminate].
  destruct (Json.parse_value (2 * length ts + 1) ts) as [[v' r] | |] eqn:Ep;
    try discriminate.
  destruct r; [| discriminate]. inversion H; subst.
  apply (proj1 (parse_decoded _)) in Ep as (_ & _ & Hv).
  destruct (Hv x Hx) as [Hin | []].
  exact (lex_tracked x Hesc Hlow s [] Json.Top ts I El Hin).
Qed.

Lemma quote_no_escape (x : char) :
  x = ch "'" \/ x = ch "`" ->
  (forall y, Json.escape_char y <> Some x) /\ (x < 65536)%N.
Proof.
  intros Hx. split; [| destruct Hx as [-> | ->]; reflexivity].
  intros y. unfold Json.escape_char.
  repeat match goal with
         | |- context [if ?b then _ else _] => destruct b
         end;
    destruct Hx as [-> | ->]; discriminate.
Qed.

(** *** An escape in the JSON text stood in the array text *)

Lemma contains_cons_inv (e s : pystr) (y : char) :
  contains e (y :: s) -> starts_with e (y :: s) \/ contains e s.
Proof.
  intros ([| b before] & after & E).
  - left. now exists after.
  - right. cbn [app] in E. injection E as _ E. now exists before, after.
Qed.

Lemma contains_cons (e s : pystr) (y : char) :
  contains e s -> contains e (y :: s).
Proof. intros (before & after & ->). now exists (y :: before), after. Qed.

Lemma starts_contains (e s : pystr) : starts_with e s -> contains e s.
Proof. intros [rest ->]. now exists [], rest. Qed.

Lemma contains_app_r (e a s : pystr) : contains e s -> contains e (a ++ s).
Proof.
  intros (before & after & ->). exists (a ++ before), after.
  now rewrite <- app_assoc.
Qed.

Section EscapeSurvives.

Variable close : char.
Hypothesis close_not_space : isspace close = false.
Hypothesis close_not_comma : char_eqb close (ch ",") = false.

Variable e : pystr.
Hypothesis e_not_empty : e <> [].
Hypothesis e_without_close : ~ In close e.

Lemma starts_strip (p s : pystr) :
  ~ In close p -> starts_with p (strip close 0 s) -> starts_with p s.
Proof.
  revert s. induction p as [| a p IH]; intros s Hp [rest E];
    [now exists s |].
  destruct s as [| x t]; [discriminate |].
  rewrite strip_cons in E by assumption.
  destruct (trailing_at close (x :: t)) as [r |].
  - injection E as E _. exfalso. apply Hp. now left.
  - injection E as -> E.
    destruct (IH t) as [rest' ->];
      [intros Hin; apply Hp; now right | now exists rest |].
    now exists rest'.
Qed.

Lemma contains_strip_length (n : nat) :
  forall s, length s <= n ->
            contains e (strip close 0 s) -> contains e s.
Proof.
  induction n as [| n IH]; intros s Hn H.
  - destruct s; [| cbn [length] in Hn; lia].
    destruct H as (before & after & E). exfalso. apply e_not_empty.
    change (strip close 0 []) with (@nil char) in E.
    symmetry in E. apply app_eq_nil in E as [_ E].
    now apply app_eq_nil in E as [E _].
  - destruct s as [| x t]; [apply (IH []); [cbn [length]; lia | exact H] |].
    rewrite strip_cons in H by assumption.
    destruct (trailing_at close (x :: t)) as [r |] eqn:Et.
    + apply trailing_at_comma_before in Et as (-> & ws & -> & Hws).
      replace (length (ws ++ close :: r) - length r)
        with (length (ws ++ [close])) in H
        by (rewrite !length_app; cbn [length]; lia).
      replace (ws ++ close :: r) with ((ws ++ [close]) ++ r) in H
        by (now rewrite <- app_assoc).
      rewrite strip_skip in H.
      apply contains_cons_inv in H as [[rest E] | H].
      * exfalso. destruct e as [| a e']; [now apply e_not_empty |].
        injection E as E _. apply e_without_close. now left.
      * apply contains_cons. apply contains_app_r. apply contains_cons.
        apply IH; [| exact H].
        cbn [length] in Hn. rewrite length_app in Hn. cbn [length] in Hn.
        lia.
    + apply contains_cons_inv in H as [H | H].
      * apply starts_contains. apply starts_strip; [assumption |].
        now rewrite strip_cons, Et by assumption.
      * apply contains_cons. apply IH; [cbn [length] in Hn; lia | exact H].
Qed.

Lemma contains_strip (s : pystr) :
  contains e (strip close 0 s) -> contains e s.
Proof. now apply (contains_strip_length (length s)). Qed.

End EscapeSurvives.

Lemma requote_cons_any (x : char) (t : pystr) :
  requote (x :: t)
  = (if (char_eqb x (ch "'") || char_eqb x (ch "`"))%bool then dquote else x)
      :: requote t.
Proof.
  unfold requote, replace_char. cbn [flat_map].
  destruct (char_eqb x (ch "'")) eqn:E1; cbn [app flat_map orb].
  - reflexivity.
  - destruct (char_eqb x (ch "`")); reflexivity.
Qed.

Lemma starts_requote (p s : pystr) :
  ~ In dquote p -> starts_with p (requote s) -> starts_with p s.
Proof.
  revert s. induction p as [| a p IH]; intros s Hp [rest E];
    [now exists s |].
  destruct s as [| x t]; [discriminate |].
  rewrite requote_cons_any in E.
  destruct (char_eqb x (ch "'") || char_eqb x (ch "`"))%bool;
    injection E as Ea E.
  - exfalso. apply Hp. subst a. now left.
  - subst a. destruct (IH t) as [rest' ->];
      [intros Hin; apply Hp; now right | now exists rest |].
    now exists rest'.
Qed.

Lemma contains_requote (p s : pystr) :
  ~ In dquote p -> p <> [] -> contains p (requote s) -> contains p s.
Proof.
  intros Hp Hne. induction s as [| x t IH]; intros H.
  - destruct H as (before & after & E). exfalso. apply Hne.
    change (requote []) with (@nil char) in E.
    symmetry in E. apply app_eq_nil in E as [_ E].
    now apply app_eq_nil in E as [E _].
  - rewrite requote_cons_any in H.
    apply contains_cons_inv in H as [H | H].
    + apply starts_contains, starts_requote; [assumption |].
      now rewrite requote_cons_any.
    + apply contains_cons. now apply IH.
Qed.

(** The substitutions neither write an escape nor join two pieces of the
    text into one: an escape in the JSON text stood in the array text. *)
Lemma spelled_json_str_of (x : char) (array_content : pystr) :
  spelled x (json_str_of array_content) -> spelled x array_content.
Proof.
  intros (before & ds & after & E & Hlen & Hcode).
  set (esc := backslash :: ch "u" :: ds).
  assert (Hd : forall c, In c esc -> c <> dquote /\ c <> rbrace /\
                                     c <> rbracket).
  { intros c [<- | [<- | Hc]]; [repeat split; discriminate ..|].
    pose proof (hex_code_digits ds 0 x c Hcode Hc) as Hh.
    repeat split; intros ->; now apply Hh. }
  assert (Hc : contains esc (json_str_of array_content)).
  { exists before, after. rewrite E. unfold esc. cbn [app]. reflexivity. }
  rewrite json_str_of_unfold in Hc.
  apply (contains_strip rbracket eq_refl eq_refl esc) in Hc;
    [| discriminate
     | intros Hin; destruct (Hd _ Hin) as (? & ? & ?); congruence].
  apply (contains_strip rbrace eq_refl eq_refl esc) in Hc;
    [| discriminate
     | intros Hin; destruct (Hd _ Hin) as (? & ? & ?); congruence].
  apply contains_requote in Hc;
    [| intros Hin; destruct (Hd _ Hin) as (? & ? & ?); congruence
     | discriminate].
  destruct Hc as (b' & a' & ->). exists b', ds, a'.
  unfold esc. cbn [app]. auto.
Qed.

(** C10, as the script has it.  Every single quote and every backtick of the
    array text is replaced before the decoding: the JSON text holds neither
    character.  So a string of the returned list holds a single quote or a
    backtick only where the array it comes from spells that character as an
    escape, with a backslash, the letter u and the four digits of its code:
    the replacement does not touch the escape, and the decoder turns it into
    the character. *)
Theorem quotes_replaced_before_decoding (con : console) :
  (forall array_content x,
      In x (json_str_of array_content) -> x <> ch "'" /\ x <> ch "`") /\
  (forall fs order file_path st urls_to_check st' html_content,
      extract_urls_from_js con fs order file_path st
      = (Ret urls_to_check, st') ->
      fs file_path = Some html_content ->
      forall s x,
        In (VStr s) urls_to_check -> In x s ->
        x = ch "'" \/ x = ch "`" ->
        exists array_name array_content,
          In [array_name; array_content]
             (findall js_array_pattern html_content) /\
          contributes array_content (VStr s) /\
          spelled x array_content).
Proof.
  split.
  - intros content x H.
    apply json_str_of_in in H as [-> | [-> | [-> | (_ & H1 & H2)]]];
      try (split; discriminate). now split.
  - intros fs order file_path st l st' doc H Hfs s x Hs Hx Hq.
    apply extract_sound in H as (doc' & Hfs' & _ & Hsound).
    assert (doc' = doc) as -> by congruence.
    destruct (Hsound _ Hs) as (name & content & Hin & Hc).
    exists name, content. split; [exact Hin | split; [exact Hc |]].
    destruct Hc as (data & items & item & field & Hd & He & Hi & _ & Hf & _).
    assert (Hv : In x (value_chars data)).
    { eapply elements_chars; eauto.
      destruct item; try discriminate. cbn [field_of] in Hf.
      eapply dict_get_chars; eauto. }
    destruct (quote_no_escape x Hq) as [Hesc Hlow].
    destruct (loads_spelled x _ _ Hesc Hlow Hd Hv) as [Hlit | Hsp].
    + exfalso. apply json_str_of_in in Hlit
        as [E | [E | [E | (_ & N1 & N2)]]];
        destruct Hq as [-> | ->]; try discriminate; congruence.
    + now apply spelled_json_str_of.
Qed.

(** The page whose URL spells a single quote as an escape. *)
Lemma escaped_quote_extraction :
  extract_urls_from_js utf8_console (single_file escaped_quote_doc)
    insertion_order HTML_FILE_PATH initial
  = (Ret [VStr (u "https://good.example/a'b")],
     State [SayParsing HTML_FILE_PATH; SayFoundArrays 1; SayFoundUrls 1]
           [VStr (u "https://good.example/a'b")]).
Proof. vm_compute. reflexivity. Qed.

(** C10 on that page: the single quote of its URL is spelled in its
    array. *)
Lemma quotes_replaced_before_decoding_witness :
  In (ch "'") (u "https://good.example/a'b") /\
  exists array_name array_content,
    In [array_name; array_content]
       (findall js_array_pattern escaped_quote_doc) /\
    contributes array_content (VStr (u "https://good.example/a'b")) /\
    spelled (ch "'") array_content.
Proof.
  assert (Hx : In (ch "'") (u "https://good.example/a'b"))
    by (vm_compute; tauto).
  split; [exact Hx |].
  apply (proj2 (quotes_replaced_before_decoding utf8_console)
           (single_file escaped_quote_doc) insertion_order HTML_FILE_PATH
           initial _ _ escaped_quote_doc escaped_quote_extraction eq_refl
           (u "https://good.example/a'b") (ch "'")).
  - left. reflexivity.
  - exact Hx.
  - left. reflexivity.
Defined.

(** C10 as stated fails: the escape of the single quote is not a quote
    character of the array text, so the replacement leaves it alone, and
    [json.loads] decodes it to a single quote in the URL. *)
Lemma escaped_quote_reaches_urls :
  extract_urls_from_js utf8_console (single_file escaped_quote_doc)
    insertion_order HTML_FILE_PATH initial
  = (Ret [VStr (u "https://good.example/a'b")],
     State [SayParsing HTML_FILE_PATH; SayFoundArrays 1; SayFoundUrls 1]
           [VStr (u "https://good.example/a'b")]) /\
  In (ch "'") (u "https://good.example/a'b").
Proof.
  split; [vm_compute; reflexivity |]. vm_compute. tauto.
Qed.

(* ================================================================== *)
(** ** Further properties of [check_link] *)

Lemma failed_not_ok (rest : pystr) : u "FAILED: " ++ rest <> OK.
Proof. discriminate. Qed.

(** X1.  [check_link] answers "OK" exactly when a response arrived with a
    status code below 400.  Every other answer begins with "FAILED: "; for
    an exception that is no [RequestException] it is
    "FAILED: An unexpected error occurred ({e})". *)
Theorem check_link_ok_iff (url : value) (s : session) (st : state) :
  (check_link url s st = (Ret OK, st) <->
   exists r, head s url = inl r /\ (status_code r < 400)%Z) /\
  (check_link url s st <> (Ret OK, st) ->
   exists rest, check_link url s st = (Ret (u "FAILED: " ++ rest), st)) /\
  (forall e, head s url = inr e -> is_RequestException e = false ->
             check_link url s st =
             (Ret (u "FAILED: An unexpected error occurred ("
                     ++ exn_str e ++ u ")"), st)).
Proof.
  rewrite check_link_cases.
  destruct (head s url) as [r | e] eqn:Eh.
  - destruct (Z.leb_spec 400 (status_code r)) as [Hge | Hlt].
    + split; [split |].
      * intros H. inversion H.
      * intros (r' & E & Hlt). inversion E; subst. lia.
      * split; [| discriminate]. intros _.
        exists (u "Status " ++ str_of_Z (status_code r)). reflexivity.
    + split; [split |].
      * intros _. eauto.
      * reflexivity.
      * split; [| discriminate]. intros H. now contradiction H.
  - split; [split |].
    + destruct (is_RequestException e); intros H; inversion H.
    + intros (r & E & _). discriminate.
    + split.
      * intros _. destruct (is_RequestException e); eexists; reflexivity.
      * intros e' E Hreq. inversion E; subst. now rewrite Hreq.
Qed.

(** X1 on the example network. *)
Lemma check_link_ok_iff_witness :
  (exists r, head example_session (VStr (u "https://good.example")) = inl r
             /\ (status_code r < 400)%Z) /\
  (exists rest,
      check_link (VStr (u "https://bad.example")) example_session initial
      = (Ret (u "FAILED: " ++ rest), initial)) /\
  check_link (VInt 5) example_session initial
  = (Ret (u "FAILED: An unexpected error occurred (Invalid URL)"), initial).
Proof.
  split; [| split].
  - apply (proj1 (proj1 (check_link_ok_iff
                           (VStr (u "https://good.example")) example_session
                           initial))).
    vm_compute. reflexivity.
  - apply (proj1 (proj2 (check_link_ok_iff
                           (VStr (u "https://bad.example")) example_session
                           initial))).
    vm_compute. discriminate.
  - apply (proj2 (proj2 (check_link_ok_iff (VInt 5) example_session initial))
             (Exn (OtherException (u "MissingSchema")) (u "Invalid URL"))).
    + reflexivity.
    + reflexivity.
Defined.

(* ================================================================== *)
(** ** The matcher only finds what the pattern describes *)

Lemma strip_prefix_app (l s rest : pystr) :
  strip_prefix l s = Some rest -> s = l ++ rest.
Proof.
  revert s. induction l as [| a l IH]; intros s H; cbn [strip_prefix] in H.
  - now inversion H.
  - destruct s as [| b s]; [discriminate |].
    destruct (char_eqb a b) eqn:E; [| discriminate].
    unfold char_eqb in E. apply N.eqb_eq in E. subst b.
    cbn [app]. f_equal. now apply IH.
Qed.

Lemma firstn_length_app (pre rest : pystr) :
  firstn (length (pre ++ rest) - length rest) (pre ++ rest) = pre.
Proof.
  rewrite length_app, Nat.add_sub.
  rewrite firstn_app, Nat.sub_diag, firstn_all. cbn [firstn].
  apply app_nil_r.
Qed.

Lemma re_match_sound (r : regex) :
  forall (R : Type) (k : pystr -> list pystr -> option R) (s : pystr)
         (caps : list pystr) (x : R),
    re_match r k s caps = Some x ->
    exists pre rest g,
      s = pre ++ rest /\ matches r pre g /\ k rest (caps ++ g) = Some x.
Proof.
  induction r as [l | c | a IHa b IHb | a IHa b IHb | c | c | a IHa];
    intros R k s caps x H.
  - cbn [re_match] in H.
    destruct (strip_prefix l s) as [rest |] eqn:E; [| discriminate].
    exists l, rest, []. rewrite app_nil_r.
    split; [now apply strip_prefix_app | split; [constructor | assumption]].
  - cbn [re_match] in H. destruct s as [| y s]; [discriminate |].
    destruct (in_class c y) eqn:E; [| discriminate].
    exists [y], s, []. rewrite app_nil_r.
    split; [reflexivity | split; [now constructor | assumption]].
  - cbn [re_match] in H.
    apply IHa in H as (p1 & r1 & g1 & -> & M1 & H).
    apply IHb in H as (p2 & r2 & g2 & -> & M2 & H).
    exists (p1 ++ p2), r2, (g1 ++ g2). rewrite !app_assoc in *.
    split; [reflexivity | split; [now constructor | assumption]].
  - cbn [re_match] in H. unfold or_else in H.
    destruct (re_match a k s caps) as [y |] eqn:E.
    + inversion H; subst. apply IHa in E as (p & r & g & -> & M & E).
      exists p, r, g. split; [reflexivity | split; [now apply M_AltL |]].
      assumption.
    + apply IHb in H as (p & r & g & -> & M & H).
      exists p, r, g. split; [reflexivity | split; [now apply M_AltR |]].
      assumption.
  - cbn [re_match] in H.
    assert (exists pre rest, s = pre ++ rest /\
                             forallb (in_class c) pre = true /\
                             k rest caps = Some x) as (pre & rest & -> & F & E).
    { revert H. induction s as [| y s IH]; intros H.
      - exists [], []. auto.
      - destruct (in_class c y) eqn:Ey.
        + unfold or_else in H.
          match type of H with
          | match ?l with _ => _ end = _ => destruct l as [z |] eqn:El
          end.
          * inversion H; subst. destruct (IH El) as (pre & rest & -> & F & E).
            exists (y :: pre), rest. cbn [forallb app]. rewrite Ey. auto.
          * exists [], (y :: s). auto.
        + exists [], (y :: s). auto. }
    exists pre, rest, []. rewrite app_nil_r.
    split; [reflexivity | split; [now constructor | assumption]].
  - cbn [re_match] in H.
    assert (exists pre rest, s = pre ++ rest /\
                             forallb (in_class c) pre = true /\
                             k rest caps = Some x) as (pre & rest & -> & F & E).
    { revert H. induction s as [| y s IH]; intros H; unfold or_else in H.
      - destruct (k [] caps) eqn:E; [| discriminate]. inversion H; subst.
        exists [], []. auto.
      - destruct (k (y :: s) caps) eqn:E.
        + inversion H; subst. exists [], (y :: s). auto.
        + destruct (in_class c y) eqn:Ey; [| discriminate].
          destruct (IH H) as (pre & rest & -> & F & E').
          exists (y :: pre), rest. cbn [forallb app]. rewrite Ey. auto. }
    exists pre, rest, []. rewrite app_nil_r.
    split; [reflexivity | split; [now constructor | assumption]].
  - cbn [re_match] in H.
    apply IHa in H as (p & r & g & -> & M & H).
    rewrite firstn_length_app in H.
    exists p, r, (g ++ [p]). rewrite app_assoc.
    split; [reflexivity | split; [now constructor | assumption]].
Qed.

(** Non-greedy [.*?] hands the input to what follows at the first position
    where what follows succeeds. *)
Lemma lazy_any_first {R} (k : pystr -> list pystr -> option R)
      (t : pystr) (caps : list pystr) (x : R) :
  re_match (LazyStar CAny) k t caps = Some x ->
  exists mid rest,
    t = mid ++ rest /\ k rest caps = Some x /\
    forall m1 m2, mid = m1 ++ m2 -> m2 <> [] -> k (m2 ++ rest) caps = None.
Proof.
  cbn [re_match]. induction t as [| y t IH]; intros H; unfold or_else in H.
  - destruct (k [] caps) eqn:E; [| discriminate]. inversion H; subst.
    exists [], []. repeat split; auto.
    intros m1 m2 E'. symmetry in E'. apply app_eq_nil in E' as [_ ->].
    intros Hne. now elim Hne.
  - destruct (k (y :: t) caps) eqn:E.
    + inversion H; subst. exists [], (y :: t). repeat split; auto.
      intros m1 m2 E'. symmetry in E'. apply app_eq_nil in E' as [_ ->].
      intros Hne. now elim Hne.
    + cbn [in_class] in H. destruct (IH H) as (mid & rest & -> & Hk & Hmin).
      exists (y :: mid), rest. repeat split; auto.
      intros m1 m2 E' Hne. destruct m1 as [| z m1]; cbn [app] in E'.
      * subst m2. exact E.
      * inversion E'; subst. now apply (Hmin m1 m2).
Qed.

Lemma at_terminator_inv (s : pystr) :
  at_terminator s = true -> exists rest, s = u "];" ++ rest.
Proof.
  unfold at_terminator.
  destruct (strip_prefix (u "];") s) as [rest |] eqn:E; [| discriminate].
  intros _. exists rest. apply strip_prefix_app. exact E.
Qed.

Lemma at_terminator_app (m rest rest' : pystr) :
  m <> [] ->
  at_terminator (m ++ u "];" ++ rest) = at_terminator (m ++ u "];" ++ rest').
Proof.
  intros Hne. destruct m as [| a [| b m]]; [contradiction | |];
    unfold at_terminator; cbn [u map list_ascii_of_string strip_prefix app].
  - destruct (char_eqb (ch "]") a); reflexivity.
  - destruct (char_eqb (ch "]") a); [| reflexivity].
    destruct (char_eqb (ch ";") b); reflexivity.
Qed.

(** The second group and the semicolon: the bracketed text runs from the
    opening bracket to the first closing bracket that a semicolon follows. *)
Lemma match_array_text (s : pystr) (caps caps' : list pystr) (rest : pystr) :
  re_match (Seq (Group (Seq (Lit (u "[")) (Seq (LazyStar CAny) (Lit (u "]")))))
                (Lit (u ";")))
           (fun rest caps => Some (caps, rest)) s caps = Some (caps', rest) ->
  exists mid,
    s = u "[" ++ mid ++ u "];" ++ rest /\
    caps' = caps ++ [u "[" ++ mid ++ u "]"] /\
    forall m1 m2, mid = m1 ++ m2 -> m2 <> [] ->
                  at_terminator (m2 ++ u "];") = false.
Proof.
  intros H. rewrite re_match_Seq in H. cbn [re_match] in H.
  destruct (strip_prefix (u "[") s) as [t |] eqn:E; [| discriminate].
  apply strip_prefix_app in E. subst s.
  apply (lazy_any_first
           (fun t' caps0 =>
              match strip_prefix (u "]") t' with
              | Some s1 =>
                  match strip_prefix (u ";") s1 with
                  | Some rest1 =>
                      Some (caps0 ++ [firstn (length (u "[" ++ t) - length s1)
                                             (u "[" ++ t)], rest1)
                  | None => None
                  end
              | None => None
              end)) in H.
  destruct H as (mid & r & -> & Hk & Hmin).
  destruct (strip_prefix (u "]") r) as [s1 |] eqn:E1; [| discriminate].
  destruct (strip_prefix (u ";") s1) as [rest1 |] eqn:E2; [| discriminate].
  apply strip_prefix_app in E1, E2. subst r s1.
  assert (F : firstn (length (u "[" ++ mid ++ u "]" ++ u ";" ++ rest1)
                      - length (u ";" ++ rest1))
                     (u "[" ++ mid ++ u "]" ++ u ";" ++ rest1)
              = u "[" ++ mid ++ u "]").
  { replace (u "[" ++ mid ++ u "]" ++ u ";" ++ rest1)
      with ((u "[" ++ mid ++ u "]") ++ (u ";" ++ rest1))
      by (now rewrite <- !app_assoc).
    apply firstn_length_app. }
  rewrite F in Hk. injection Hk as Hc Hr. subst caps' rest1.
  exists mid. split; [reflexivity | split; [reflexivity |]].
  intros m1 m2 E Hne.
  specialize (Hmin m1 m2 E Hne).
  replace (m2 ++ u "];") with (m2 ++ u "];" ++ [])
    by (now rewrite (app_nil_r (u "];"))).
  rewrite (at_terminator_app m2 [] rest Hne).
  unfold at_terminator.
  change (u "];") with (u "]" ++ u ";").
  destruct (strip_prefix (u "]" ++ u ";") (m2 ++ (u "]" ++ u ";") ++ rest))
    as [q |] eqn:Eq; [| reflexivity].
  exfalso. apply strip_prefix_app in Eq.
  change ((u "]" ++ u ";") ++ rest) with (u "]" ++ u ";" ++ rest) in Eq.
  rewrite Eq in Hmin. discriminate Hmin.
Qed.

Ltac inv_matches H := inversion H; subst; clear H.

Lemma matches_Lit_inv (l s : pystr) (g : list pystr) :
  matches (Lit l) s g -> s = l /\ g = [].
Proof. intros H. inv_matches H. auto. Qed.

Lemma matches_Star_inv (c : cclass) (s : pystr) (g : list pystr) :
  matches (Star c) s g -> forallb (in_class c) s = true /\ g = [].
Proof. intros H. inv_matches H. auto. Qed.

Lemma matches_Plus_inv (c : cclass) (s : pystr) (g : list pystr) :
  matches (Plus c) s g ->
  s <> [] /\ forallb (in_class c) s = true /\ g = [].
Proof.
  unfold Plus. intros H. inversion H as [| | a b s1 s2 g1 g2 Ha Hb | | | | |].
  subst. inv_matches Ha. inv_matches Hb.
  cbn [app forallb]. repeat split; [discriminate |].
  apply andb_true_intro. auto.
Qed.

Lemma matches_name_inv (a b s : pystr) (g : list pystr) :
  matches (Group (Alt (Lit a) (Lit b))) s g ->
  (s = a \/ s = b) /\ g = [s].
Proof.
  intros H. inversion H as [| | | | | | | r s' g' Hr]. subst.
  inversion Hr as [| | | a' b' s' g'' Hl | a' b' s' g'' Hl | | |]; subst;
    apply matches_Lit_inv in Hl as [-> ->]; auto.
Qed.

(** One match of the declaration pattern, read off the text. *)
Lemma match_at_array (s : pystr) (caps : list pystr) (rest : pystr) :
  match_at js_array_pattern s = Some (caps, rest) ->
  exists ws1 name ws2 ws3 mid,
    s = u "const" ++ ws1 ++ name ++ ws2 ++ u "=" ++ ws3
          ++ u "[" ++ mid ++ u "];" ++ rest /\
    caps = [name; u "[" ++ mid ++ u "]"] /\
    (name = u "institutes" \/ name = u "jobBoards") /\
    ws1 <> [] /\
    forallb isspace ws1 = true /\ forallb isspace ws2 = true /\
    forallb isspace ws3 = true /\
    forall m1 m2, mid = m1 ++ m2 -> m2 <> [] ->
                  at_terminator (m2 ++ u "];") = false.
Proof.
  unfold match_at, js_array_pattern. intros H.
  rewrite re_match_Seq in H.
  apply re_match_sound in H as (p1 & r1 & g1 & -> & M1 & H).
  rewrite re_match_Seq in H.
  apply re_match_sound in H as (p2 & r2 & g2 & -> & M2 & H).
  rewrite re_match_Seq in H.
  apply re_match_sound in H as (p3 & r3 & g3 & -> & M3 & H).
  rewrite re_match_Seq in H.
  apply re_match_sound in H as (p4 & r4 & g4 & -> & M4 & H).
  rewrite re_match_Seq in H.
  apply re_match_sound in H as (p5 & r5 & g5 & -> & M5 & H).
  rewrite re_match_Seq in H.
  apply re_match_sound in H as (p6 & r6 & g6 & -> & M6 & H).
  apply match_array_text in H as (mid & -> & -> & Hmin).
  apply matches_Lit_inv in M1 as [-> ->].
  apply matches_Plus_inv in M2 as (Hne & Hs2 & ->).
  apply matches_name_inv in M3 as [Hn ->].
  apply matches_Star_inv in M4 as [Hs4 ->].
  apply matches_Lit_inv in M5 as [-> ->].
  apply matches_Star_inv in M6 as [Hs6 ->].
  exists p2, p3, p4, p6, mid.
  repeat split; auto.
Qed.

Lemma strip_prefix_same (l rest : pystr) :
  strip_prefix l (l ++ rest) = Some rest.
Proof.
  induction l as [| a l IH]; cbn [strip_prefix app]; [reflexivity |].
  unfold char_eqb. now rewrite N.eqb_refl.
Qed.

Lemma or_else_left {R} (a b : option R) : a <> None -> or_else a b <> None.
Proof. destruct a; [discriminate | contradiction]. Qed.

Lemma or_else_right {R} (a b : option R) : b <> None -> or_else a b <> None.
Proof. destruct a; [discriminate | auto]. Qed.

(** The matcher finds a match wherever the pattern describes one (it may
    be another match than the one described, but it does not fail). *)
Lemma re_match_complete (r : regex) (pre : pystr) (g : list pystr) :
  matches r pre g ->
  forall (R : Type) (k : pystr -> list pystr -> option R) (rest : pystr)
         (caps : list pystr),
    (forall c, k rest c <> None) -> re_match r k (pre ++ rest) caps <> None.
Proof.
  induction 1 as [l | c x Hx | a b s1 s2 g1 g2 _ IH1 _ IH2 | a b s g _ IH
                  | a b s g _ IH | c s Hs | c s Hs | a s g _ IH];
    intros R k rest caps Hk.
  - rewrite re_match_Lit, strip_prefix_same. apply Hk.
  - cbn [re_match app]. rewrite Hx. apply Hk.
  - rewrite re_match_Seq, <- app_assoc. apply IH1.
    intros c. now apply IH2.
  - cbn [re_match]. apply or_else_left. now apply IH.
  - cbn [re_match]. apply or_else_right. now apply IH.
  - cbn [re_match]. induction s as [| y s IHs]; cbn [app].
    + destruct rest as [| x rest']; [apply Hk |].
      destruct (in_class c x); [apply or_else_right |]; apply Hk.
    + cbn [forallb] in Hs. apply andb_prop in Hs as [Hy Hs].
      rewrite Hy. apply or_else_left. now apply IHs.
  - cbn [re_match]. induction s as [| y s IHs]; cbn [app].
    + destruct rest as [| x rest']; apply or_else_left; apply Hk.
    + cbn [forallb] in Hs. apply andb_prop in Hs as [Hy Hs].
      rewrite Hy. apply or_else_right. now apply IHs.
  - cbn [re_match]. apply IH. intros c. apply Hk.
Qed.

Lemma match_at_complete (r : regex) (pre rest : pystr) (g : list pystr) :
  matches r pre g -> match_at r (pre ++ rest) <> None.
Proof.
  intros H. unfold match_at. apply (re_match_complete _ _ _ H).
  discriminate.
Qed.

Lemma findall_from_in (r : regex) (caps : list pystr) :
  forall (s : pystr) (skip : nat),
    In caps (findall_from r skip s) ->
    exists before suffix rest,
      s = before ++ suffix /\ match_at r suffix = Some (caps, rest).
Proof.
  induction s as [| x s IH]; intros skip H; cbn [findall_from] in H.
  - destruct H.
  - assert (Hrec : forall n, In caps (findall_from r n s) ->
                             exists before suffix rest,
                               x :: s = before ++ suffix /\
                               match_at r suffix = Some (caps, rest)).
    { intros n Hn. destruct (IH n Hn) as (before & suffix & rest & -> & E).
      now exists (x :: before), suffix, rest. }
    destruct skip as [| n]; [| now apply (Hrec n)].
    destruct (match_at r (x :: s)) as [[caps' rest] |] eqn:E;
      [| now apply (Hrec 0)].
    destruct H as [<- | H]; [| now apply Hrec in H].
    now exists [], (x :: s), rest.
Qed.

Lemma findall_nil_no_match (r : regex) :
  forall (before suffix : pystr),
    findall_from r 0 (before ++ suffix) = [] -> suffix <> [] ->
    match_at r suffix = None.
Proof.
  induction before as [| x before IH]; intros suffix H Hne; cbn [app] in H.
  - destruct suffix as [| y suffix]; [contradiction |].
    cbn [findall_from] in H.
    destruct (match_at r (y :: suffix)) as [[caps rest] |];
      [discriminate | reflexivity].
  - cbn [findall_from] in H.
    destruct (match_at r (x :: before ++ suffix)) as [[caps rest] |];
      [discriminate |].
    now apply IH.
Qed.

Lemma forallb_any (s : pystr) : forallb (in_class CAny) s = true.
Proof. induction s; [reflexivity | assumption]. Qed.

Lemma declaration_matches (name text decl : pystr) :
  declaration name text decl ->
  exists g, matches js_array_pattern decl g.
Proof.
  intros (ws1 & ws2 & ws3 & mid & -> & -> & Hn & Hne & H1 & H2 & H3).
  destruct ws1 as [| x ws1]; [contradiction |].
  cbn [forallb] in H1. apply andb_prop in H1 as [Hx H1].
  eexists. unfold js_array_pattern.
  apply M_Seq; [constructor |].
  change (x :: ws1) with ([x] ++ ws1). rewrite <- (app_assoc [x]).
  rewrite (app_assoc [x] ws1).
  apply M_Seq; [apply M_Seq; [now constructor | now constructor] |].
  apply M_Seq.
  { apply M_Group. destruct Hn as [-> | ->];
      [apply M_AltL | apply M_AltR]; constructor. }
  apply M_Seq; [now constructor |].
  apply M_Seq; [constructor |].
  apply M_Seq; [now constructor |].
  apply M_Seq; [| constructor].
  apply M_Group. apply M_Seq; [constructor |].
  apply M_Seq; [| constructor]. apply M_LazyStar, forallb_any.
Qed.

Lemma match_at_declaration (s : pystr) (caps : list pystr) (rest : pystr) :
  match_at js_array_pattern s = Some (caps, rest) ->
  exists name text decl,
    s = decl ++ rest /\ caps = [name; text] /\
    declaration name text decl /\ ends_at_first_terminator text.
Proof.
  intros H. apply match_at_array in H
    as (ws1 & name & ws2 & ws3 & mid & -> & -> & Hn & Hne & H1 & H2 & H3
        & Hmin).
  exists name, (u "[" ++ mid ++ u "]"),
    (u "const" ++ ws1 ++ name ++ ws2 ++ u "=" ++ ws3
       ++ (u "[" ++ mid ++ u "]") ++ u ";").
  split; [| split; [reflexivity | split]].
  - now rewrite <- !app_assoc.
  - now exists ws1, ws2, ws3, mid.
  - intros mid' m1 m2 E. cbn [u map list_ascii_of_string app] in E.
    injection E as E. apply app_inv_tail in E. subst mid'. apply Hmin.
Qed.

Lemma found_declares (html_content : pystr) (found : list pystr) :
  In found (findall js_array_pattern html_content) -> declares html_content.
Proof.
  intros Hin.
  apply findall_from_in in Hin as (before & suffix & rest & -> & Hm).
  apply match_at_declaration in Hm as (name & text & decl & -> & _ & D & _).
  now exists before, name, text, decl, rest.
Qed.

Lemma findall_declares (html_content : pystr) :
  findall js_array_pattern html_content = [] <-> ~ declares html_content.
Proof.
  split.
  - intros E (before & name & text & decl & after & -> & D).
    assert (Hne : decl ++ after <> []).
    { destruct D as (ws1 & ws2 & ws3 & mid & -> & _). discriminate. }
    apply (findall_nil_no_match _ _ _ E) in Hne.
    destruct (declaration_matches _ _ _ D) as [g M].
    now apply (match_at_complete _ _ after _ M).
  - intros Hno. destruct (findall js_array_pattern html_content)
      as [| b bs] eqn:E; [reflexivity |].
    exfalso. apply Hno.
    assert (Hin : In b (findall js_array_pattern html_content))
      by (rewrite E; now left).
    apply findall_from_in in Hin as (before & suffix & rest & -> & Hm).
    apply match_at_declaration in Hm
      as (name & text & decl & -> & _ & D & _).
    now exists before, name, text, decl, rest.
Qed.

(** X2.  Every element of [found_arrays] (line 31) is a pair of a name and
    a text: the name is institutes or jobBoards, the text is bracketed, the
    page holds the declaration of that name with that text, and the text
    stops at the first closing bracket that a semicolon follows, whatever
    the brackets inside it mean. *)
Theorem found_arrays_shape (html_content : pystr) (found : list pystr) :
  In found (findall js_array_pattern html_content) ->
  exists name text before decl after,
    found = [name; text] /\
    html_content = before ++ decl ++ after /\
    declaration name text decl /\
    ends_at_first_terminator text.
Proof.
  intros Hin.
  apply findall_from_in in Hin as (before & suffix & rest & -> & Hm).
  apply match_at_declaration in Hm as (name & text & decl & -> & -> & D & T).
  now exists name, text, before, decl, rest.
Qed.

(** X2 on the page whose second array holds a stray bracket: the text found
    stops at the first bracket that a semicolon follows. *)
Lemma found_arrays_shape_witness :
  In [u "jobBoards"; u "[{'url':'https://bad.example'}, ]]"]
     (findall js_array_pattern half_broken_doc) /\
  exists name text before decl after,
    [u "jobBoards"; u "[{'url':'https://bad.example'}, ]]"] = [name; text] /\
    half_broken_doc = before ++ decl ++ after /\
    declaration name text decl /\
    ends_at_first_terminator text.
Proof.
  assert (H : In [u "jobBoards"; u "[{'url':'https://bad.example'}, ]]"]
                 (findall js_array_pattern half_broken_doc))
    by (vm_compute; right; left; reflexivity).
  split; [exact H |].
  exact (found_arrays_shape half_broken_doc _ H).
Defined.

(** X3.  With the page at hand, the extraction stops at line 35 exactly
    when the page holds no declaration of one of the two arrays: without one
    it prints the complaint and exits with status 1, and with one it does
    not exit at all.  (The first line names the file: a console that cannot
    write the name ends the call there, in [UnicodeEncodeError].) *)
Theorem no_arrays_iff_no_declaration (con : console) (fs : filesystem)
        (order : set_order) (file_path html_content : pystr) (st : state) :
  fs file_path = Some html_content ->
  (~ declares html_content ->
   extract_urls_from_js con fs order file_path st
   = if printable con (SayParsing file_path)
     then (Exit 1,
           State (stdout st ++ [SayParsing file_path; SayNoArrays]) [])
     else (Raise (Exn UnicodeEncodeError []), st))
  /\
  (declares html_content ->
   forall c st',
     extract_urls_from_js con fs order file_path st <> (Exit c, st')).
Proof.
  intros Hfs. rewrite extract_cases, Hfs.
  destruct (printable con (SayParsing file_path));
    [| split; [reflexivity | discriminate]].
  cbv zeta. split.
  - intros Hno. apply findall_declares in Hno. rewrite Hno.
    now rewrite <- app_assoc.
  - intros Hd c st'.
    destruct (findall js_array_pattern html_content) as [| b bs] eqn:E.
    + apply findall_declares in E. contradiction.
    + destruct (for_each (b :: bs) (process_array con) _)
        as [[[] | e | c'] st1] eqn:R; try discriminate.
      now apply found_arrays_no_exit in R.
Qed.

(** X3 on a page without arrays and on the example document. *)
Lemma no_arrays_iff_no_declaration_witness :
  extract_urls_from_js utf8_console (single_file (u "<html></html>"))
    insertion_order HTML_FILE_PATH initial
  = (Exit 1,
     State (stdout initial ++ [SayParsing HTML_FILE_PATH; SayNoArrays]) [])
  /\
  forall c st',
    extract_urls_from_js utf8_console (single_file example_doc)
      insertion_order HTML_FILE_PATH initial <> (Exit c, st').
Proof.
  split.
  - apply (proj1 (no_arrays_iff_no_declaration utf8_console
                    (single_file (u "<html></html>")) insertion_order
                    HTML_FILE_PATH (u "<html></html>") initial eq_refl)).
    apply findall_declares. vm_compute. reflexivity.
  - apply (proj2 (no_arrays_iff_no_declaration utf8_console
                    (single_file example_doc) insertion_order
                    HTML_FILE_PATH example_doc initial eq_refl)).
    apply (found_declares example_doc [u "institutes"; example_array]).
    vm_compute. left. reflexivity.
Defined.

(* ================================================================== *)
(** ** What the text of a found array decodes to *)

Lemma json_str_of_bracket (mid : pystr) :
  exists rest, json_str_of (u "[" ++ mid ++ u "]") = ch "[" :: rest.
Proof.
  rewrite json_str_of_unfold. cbn [u map list_ascii_of_string app].
  rewrite requote_cons by reflexivity.
  rewrite (strip_cons_plain rbrace) by reflexivity.
  rewrite (strip_cons_plain rbracket) by reflexivity.
  now eexists.
Qed.

Lemma parse_elems_list (n : nat) :
  forall ts acc v r,
    Json.parse_elems n ts acc = Json.POk (v, r) -> exists l, v = VList l.
Proof.
  induction n as [| n IH]; intros ts acc v r H; [discriminate |].
  cbn [Json.parse_elems] in H.
  destruct (Json.parse_value n ts) as [[w [| t r']] | |]; try discriminate.
  destruct t; try discriminate.
  - inversion H; subst. now eexists.
  - now apply IH in H.
Qed.

Lemma parse_bracket_list (n : nat) (ts : list Json.token) (v : value)
      (r : list Json.token) :
  Json.parse_value n (Json.TLBracket :: ts) = Json.POk (v, r) ->
  exists l, v = VList l.
Proof.
  destruct n as [| n]; [discriminate |]. cbn [Json.parse_value].
  destruct ts as [| t ts].
  - intros H. now apply parse_elems_list in H.
  - destruct t; intros H;
      first [ inversion H; subst; now eexists
            | now apply parse_elems_list in H ].
Qed.

Lemma loads_bracket (rest : pystr) (data : value) :
  Json.loads (ch "[" :: rest) = Some data -> exists items, data = VList items.
Proof.
  unfold Json.loads, Json.tokenize.
  change (Json.lex Json.Top (ch "[" :: rest))
    with (option_map (app [Json.TLBracket]) (Json.lex Json.Top rest)).
  destruct (Json.lex Json.Top rest) as [ts |]; cbn [option_map app];
    [| discriminate].
  destruct (Json.parse_value _ _) as [[v [| t r]] | |] eqn:E;
    try discriminate.
  intros H. inversion H; subst. now apply parse_bracket_list in E.
Qed.

Lemma found_text_decodes_to_list (mid : pystr) (data : value) :
  Json.loads (json_str_of (u "[" ++ mid ++ u "]")) = Some data ->
  exists items, data = VList items.
Proof.
  destruct (json_str_of_bracket mid) as [rest ->]. apply loads_bracket.
Qed.

Lemma findall_pairs (html_content : pystr) (found : list pystr) :
  In found (findall js_array_pattern html_content) ->
  exists name mid, found = [name; u "[" ++ mid ++ u "]"].
Proof.
  intros Hin.
  apply findall_from_in in Hin as (before & suffix & rest & -> & Hm).
  apply match_at_array in Hm as (ws1 & name & ws2 & ws3 & mid & _ & -> & _).
  now exists name, mid.
Qed.

(** The console can write the warning of every found array. *)
Lemma findall_printable (con : console) (html_content : pystr)
      (array_name array_content : pystr) :
  In [array_name; array_content] (findall js_array_pattern html_content) ->
  printable con (SayWarning array_name) = true.
Proof.
  intros Hin.
  apply findall_from_in in Hin as (before & suffix & rest & -> & Hm).
  apply match_at_array in Hm
    as (ws1 & name & ws2 & ws3 & mid & _ & E & Hn & _).
  injection E as -> _. now apply array_name_printable.
Qed.

(* ================================================================== *)
(** ** How the loops of the extraction end *)

Lemma for_each_ret_all {A} (l : list A) (body : A -> M unit) :
  forall st st',
    for_each l body st = (Ret tt, st') ->
    forall x, In x l -> exists st1 st2, body x st1 = (Ret tt, st2).
Proof.
  induction l as [| y l IH]; intros st st' H x Hx; [destruct Hx |].
  cbn [for_each] in H. unfold bind in H.
  destruct (body y st) as [[[] | e | c] st1] eqn:E; try discriminate.
  destruct Hx as [<- | Hx]; [now exists st, st1 |].
  now apply (IH _ _ H).
Qed.

Lemma for_each_all_ret {A} (l : list A) (body : A -> M unit) :
  (forall x st, In x l -> exists st', body x st = (Ret tt, st')) ->
  forall st, exists st', for_each l body st = (Ret tt, st').
Proof.
  induction l as [| y l IH]; intros Hb st; cbn [for_each].
  - now exists st.
  - unfold bind. destruct (Hb y st (or_introl eq_refl)) as [st1 ->].
    apply IH. intros x st2 Hx. apply Hb. now right.
Qed.

Lemma for_each_raise_some {A} (l : list A) (body : A -> M unit) :
  forall st e st',
    for_each l body st = (Raise e, st') ->
    exists x st1, In x l /\ body x st1 = (Raise e, st').
Proof.
  induction l as [| y l IH]; intros st e st' H; [discriminate |].
  cbn [for_each] in H. unfold bind in H.
  destruct (body y st) as [[[] | e1 | c] st1] eqn:E; try discriminate.
  - apply IH in H as (x & st2 & Hx & Hb). exists x, st2.
    split; [now right | assumption].
  - inversion H; subst. exists y, st. split; [now left | assumption].
Qed.

Lemma for_each_stdout {A} (lines : A -> list event) (l : list A)
      (body : A -> M unit) :
  (forall x st st', In x l -> body x st = (Ret tt, st') ->
                    stdout st' = stdout st ++ lines x) ->
  forall st st',
    for_each l body st = (Ret tt, st') ->
    stdout st' = stdout st ++ flat_map lines l.
Proof.
  induction l as [| y l IH]; intros Hb st st' H; cbn [for_each] in H.
  - inversion H; subst. cbn [flat_map]. now rewrite app_nil_r.
  - unfold bind in H.
    destruct (body y st) as [[[] | e | c] st1] eqn:E; try discriminate.
    apply IH in H; [| intros x s1 s2 Hx; apply Hb; now right].
    rewrite H, (Hb y st st1 (or_introl eq_refl) E).
    cbn [flat_map]. now rewrite app_assoc.
Qed.

(** Lines 52 to 55 for one field name, case by case. *)
Lemma add_field_outcome (item : value) (field : pystr) (st : state) :
  add_field item field st =
  match item with
  | VDict d =>
      match dict_get field d with
      | Some v => if truthy v then urls_add v st else (Ret tt, st)
      | None => (Ret tt, st)
      end
  | VStr s =>
      if str_contains field s
      then (Raise (Exn TypeError
                     (u "string indices must be integers, not 'str'")), st)
      else (Ret tt, st)
  | VList l =>
      if existsb (is_str field) l
      then (Raise (Exn TypeError
                     (u "list indices must be integers or slices, not str")),
            st)
      else (Ret tt, st)
  | _ => (Raise (Exn TypeError (u "argument of type '" ++ type_name item
                                  ++ u "' is not iterable")), st)
  end.
Proof.
  destruct item as [| b | z | f | s | l | d];
    cbv [add_field bind py_in py_getitem ret type_error raise];
    try reflexivity.
  - now destruct (str_contains field s).
  - now destruct (existsb (is_str field) l).
  - destruct (dict_get field d) as [v |]; [| reflexivity].
    now destruct (truthy v).
Qed.

Lemma urls_add_outcome (v : value) (st : state) :
  (hashable v /\ exists st', urls_add v st = (Ret tt, st') /\
                             stdout st' = stdout st) \/
  (~ hashable v /\ exists msg, urls_add v st = (Raise (Exn TypeError msg), st)).
Proof.
  unfold urls_add, hashable. destruct (hash_key v) as [k |].
  - left. split; [now exists k |].
    destruct (set_mem k (urls st)); eexists; split; reflexivity.
  - right. split; [intros [k E]; discriminate | now eexists].
Qed.

Lemma add_field_returns (item : value) (field : pystr) (st : state) :
  field_ok item field ->
  exists st', add_field item field st = (Ret tt, st') /\
              stdout st' = stdout st.
Proof.
  intros Hok. rewrite add_field_outcome.
  destruct item as [| b | z | f | s | l | d]; cbn [field_ok] in Hok;
    try contradiction.
  - rewrite Hok. now exists st.
  - rewrite Hok. now exists st.
  - destruct (dict_get field d) as [v |]; [| now exists st].
    destruct (truthy v) eqn:T; [| now exists st].
    destruct (urls_add_outcome v st) as [[_ H] | [N _]]; [exact H |].
    exfalso. now apply N, Hok.
Qed.

Lemma add_field_ret_ok (item : value) (field : pystr) (st st' : state) :
  add_field item field st = (Ret tt, st') -> field_ok item field.
Proof.
  rewrite add_field_outcome.
  destruct item as [| b | z | f | s | l | d]; cbn [field_ok];
    try discriminate.
  - now destruct (str_contains field s).
  - now destruct (existsb (is_str field) l).
  - intros H v E T. rewrite E, T in H.
    destruct (urls_add_outcome v st) as [[Hh _] | [_ [msg Hr]]];
      [exact Hh |].
    rewrite Hr in H. discriminate.
Qed.

Lemma add_field_raises (item : value) (field : pystr) (st : state)
      (e : exn) (st' : state) :
  add_field item field st = (Raise e, st') -> is_TypeError e.
Proof.
  rewrite add_field_outcome. unfold is_TypeError.
  destruct item as [| b | z | f | s | l | d];
    try (intros H; inversion H; reflexivity).
  - destruct (str_contains field s); intros H; inversion H; reflexivity.
  - destruct (existsb (is_str field) l); intros H; inversion H; reflexivity.
  - destruct (dict_get field d) as [v |]; [| discriminate].
    destruct (truthy v); [| discriminate].
    destruct (urls_add_outcome v st) as [[_ (s1 & -> & _)] | [_ [msg ->]]];
      intros H; inversion H; reflexivity.
Qed.

Lemma add_field_silent (item : value) (field : pystr) :
  silent (add_field item field).
Proof.
  intros st r st'. rewrite add_field_outcome.
  assert (Hu : forall v, urls_add v st = (r, st') -> stdout st' = stdout st).
  { intros v. destruct (urls_add_outcome v st)
      as [[_ (s1 & -> & Hs)] | [_ [msg ->]]]; intros H; inversion H; subst;
      auto. }
  destruct item as [| b | z | f | s | l | d];
    try (intros H; inversion H; reflexivity).
  - destruct (str_contains field s); intros H; inversion H; reflexivity.
  - destruct (existsb (is_str field) l); intros H; inversion H; reflexivity.
  - destruct (dict_get field d) as [v |];
      [| intros H; inversion H; reflexivity].
    destruct (truthy v); [apply Hu | intros H; inversion H; reflexivity].
Qed.

Lemma item_body_returns (item : value) (st : state) :
  accepted item ->
  exists st', item_body item st = (Ret tt, st') /\ stdout st' = stdout st.
Proof.
  intros [H1 H2]. unfold item_body, bind.
  destruct (add_field_returns item (u "url") st H1) as (st1 & -> & E1).
  destruct (add_field_returns item (u "homepageUrl") st1 H2) as (st2 & -> & E2).
  exists st2. split; [reflexivity | congruence].
Qed.

Lemma item_body_ret_accepted (item : value) (st st' : state) :
  item_body item st = (Ret tt, st') -> accepted item.
Proof.
  unfold item_body, bind. intros H.
  destruct (add_field item (u "url") st) as [[[] | e | c] st1] eqn:E1;
    try discriminate.
  split; [now apply add_field_ret_ok in E1 | now apply add_field_ret_ok in H].
Qed.

Lemma item_body_raises (item : value) (st : state) (e : exn) (st' : state) :
  item_body item st = (Raise e, st') -> is_TypeError e.
Proof.
  unfold item_body, bind. intros H.
  destruct (add_field item (u "url") st) as [[[] | e1 | c] st1] eqn:E1;
    try discriminate.
  - now apply add_field_raises in H.
  - inversion H; subst. now apply add_field_raises in E1.
Qed.

Lemma item_body_silent (item : value) : silent (item_body item).
Proof.
  intros st r st'. unfold item_body, bind. intros H.
  destruct (add_field item (u "url") st) as [[[] | e1 | c] st1] eqn:E1.
  - apply add_field_silent in E1, H. congruence.
  - inversion H; subst. now apply add_field_silent in E1.
  - inversion H; subst. now apply add_field_silent in E1.
Qed.

Lemma for_each_silent {A} (l : list A) (body : A -> M unit) :
  (forall x, In x l -> silent (body x)) -> silent (for_each l body).
Proof.
  intros Hb st r st' H.
  apply (for_each_invariant (fun s => stdout s = stdout st) l body)
    with (st := st) (r := r); auto.
  intros x s1 r1 s2 Hx E I. apply (Hb x Hx) in E. congruence.
Qed.

(** One round of the loop over the found arrays, for a text that decodes:
    the decoded value is a list, and the round is the loop over its
    elements. *)
Lemma process_array_list (con : console) (array_name mid : pystr)
      (data : value) :
  Json.loads (json_str_of (u "[" ++ mid ++ u "]")) = Some data ->
  exists items,
    data = VList items /\
    forall st, process_array con [array_name; u "[" ++ mid ++ u "]"] st
               = for_each items item_body st.
Proof.
  intros E. destruct (found_text_decodes_to_list _ _ E) as [items ->].
  exists items. split; [reflexivity |]. intros st.
  now rewrite (process_array_decoded _ _ _ _ _ E).
Qed.

Lemma process_array_returns (con : console) (array_name mid : pystr)
      (st : state) :
  printable con (SayWarning array_name) = true ->
  (forall items item,
      Json.loads (json_str_of (u "[" ++ mid ++ u "]")) = Some (VList items) ->
      In item items -> accepted item) ->
  exists st', process_array con [array_name; u "[" ++ mid ++ u "]"] st
              = (Ret tt, st').
Proof.
  intros Hname Hok.
  destruct (Json.loads (json_str_of (u "[" ++ mid ++ u "]")))
    as [data |] eqn:E.
  - destruct (process_array_list con array_name mid data E)
      as (items & -> & ->).
    apply for_each_all_ret. intros item st1 Hin.
    destruct (item_body_returns item st1 (Hok items item eq_refl Hin))
      as (st2 & H & _).
    now exists st2.
  - rewrite (process_array_decode_error _ _ _ _ Hname E). now eexists.
Qed.

Lemma process_array_ret_accepted (con : console) (array_name mid : pystr)
      (st st' : state) (items : list value) (item : value) :
  process_array con [array_name; u "[" ++ mid ++ u "]"] st = (Ret tt, st') ->
  Json.loads (json_str_of (u "[" ++ mid ++ u "]")) = Some (VList items) ->
  In item items -> accepted item.
Proof.
  intros H E Hin.
  destruct (process_array_list con array_name mid _ E)
    as (items' & Ei & Hp).
  injection Ei as <-. rewrite Hp in H.
  destruct (for_each_ret_all _ _ _ _ H item Hin) as (s1 & s2 & Hb).
  now apply item_body_ret_accepted in Hb.
Qed.

Lemma process_array_raises (con : console) (array_name mid : pystr)
      (st : state) (e : exn) (st' : state) :
  printable con (SayWarning array_name) = true ->
  process_array con [array_name; u "[" ++ mid ++ u "]"] st = (Raise e, st') ->
  is_TypeError e.
Proof.
  intros Hname.
  destruct (Json.loads (json_str_of (u "[" ++ mid ++ u "]")))
    as [data |] eqn:E.
  - destruct (process_array_list con array_name mid data E)
      as (items & -> & ->).
    intros H. apply for_each_raise_some in H as (item & s1 & _ & H).
    now apply item_body_raises in H.
  - rewrite (process_array_decode_error _ _ _ _ Hname E). discriminate.
Qed.

Lemma process_array_stdout (con : console) (array_name mid : pystr)
      (st st' : state) :
  process_array con [array_name; u "[" ++ mid ++ u "]"] st = (Ret tt, st') ->
  stdout st' = stdout st ++ warning_lines [array_name; u "[" ++ mid ++ u "]"].
Proof.
  unfold warning_lines.
  destruct (Json.loads (json_str_of (u "[" ++ mid ++ u "]")))
    as [data |] eqn:E.
  - destruct (process_array_list con array_name mid data E)
      as (items & -> & ->).
    intros H. rewrite app_nil_r.
    apply (for_each_silent items item_body) in H; [exact H |].
    intros item _. apply item_body_silent.
  - destruct (printable con (SayWarning array_name)) eqn:Hname.
    + rewrite (process_array_decode_error _ _ _ _ Hname E).
      intros H. inversion H; subst. reflexivity.
    + rewrite (process_array_warning_refused _ _ _ _ Hname E). discriminate.
Qed.

(** An exception that leaves the extraction: a [TypeError] of lines 52
    to 55, or the first line refused by the console. *)
Lemma extract_raises (con : console) (fs : filesystem) (order : set_order)
      (file_path : pystr) (st : state) (e : exn) (st' : state) :
  extract_urls_from_js con fs order file_path st = (Raise e, st') ->
  is_TypeError e \/
  (printable con (SayParsing file_path) = false /\
   e = Exn UnicodeEncodeError []).
Proof.
  rewrite extract_cases.
  destruct (printable con (SayParsing file_path));
    [| intros H; inversion H; now right].
  cbv zeta.
  destruct (fs file_path) as [html_content |]; [| discriminate].
  destruct (findall js_array_pattern html_content) as [| b bs] eqn:E;
    [discriminate |].
  destruct (for_each (b :: bs) (process_array con) _)
    as [[[] | e1 | c] st1] eqn:R; try discriminate.
  intros H. inversion H; subst. left.
  apply for_each_raise_some in R as (found & s1 & Hin & R).
  rewrite <- E in Hin.
  destruct (findall_pairs _ _ Hin) as (name & mid & ->).
  apply (process_array_raises con name mid s1 e _
           (findall_printable con _ _ _ Hin) R).
Qed.

(* ================================================================== *)
(** ** Further properties of the extraction *)

(** X12.  The value that line 49 decodes from a found array is a list, so
    the loop of line 51 runs through the elements of a JSON array and never
    through the characters of a string or the keys of an object: the text of
    a found array starts with a bracket, and the substitutions leave that
    bracket in place. *)
Theorem decoded_array_is_list (html_content array_name array_content : pystr)
        (data : value) :
  In [array_name; array_content] (findall js_array_pattern html_content) ->
  Json.loads (json_str_of array_content) = Some data ->
  exists items, data = VList items /\ elements data = Some items.
Proof.
  intros Hin E.
  destruct (findall_pairs _ _ Hin) as (name & mid & Ep).
  injection Ep as <- ->.
  destruct (found_text_decodes_to_list _ _ E) as [items ->].
  now exists items.
Qed.

(** X12 on the example document. *)
Lemma decoded_array_is_list_witness :
  In [u "institutes"; example_array] (findall js_array_pattern example_doc) /\
  Json.loads (json_str_of example_array) = Some example_data /\
  exists items,
    example_data = VList items /\ elements example_data = Some items.
Proof.
  assert (Hin : In [u "institutes"; example_array]
                   (findall js_array_pattern example_doc))
    by (vm_compute; left; reflexivity).
  assert (Hl : Json.loads (json_str_of example_array) = Some example_data)
    by (vm_compute; reflexivity).
  split; [exact Hin | split; [exact Hl |]].
  exact (decoded_array_is_list example_doc _ _ _ Hin Hl).
Defined.

(** X4.  When the extraction returns its list, the file was there, the
    page holds a declaration of one of the two arrays, and every element of
    every found array whose text decodes was accepted by lines 52 to 55: a
    record whose [url] and [homepageUrl] values, where present and true, can
    be put in a set, or a string or list without the two field names in
    it. *)
Theorem returned_extraction_accepted (con : console) (fs : filesystem)
        (order : set_order) (file_path : pystr) (st : state)
        (urls_to_check : list value) (st' : state) :
  extract_urls_from_js con fs order file_path st = (Ret urls_to_check, st') ->
  exists html_content,
    fs file_path = Some html_content /\
    declares html_content /\
    forall array_name array_content items item,
      In [array_name; array_content]
         (findall js_array_pattern html_content) ->
      Json.loads (json_str_of array_content) = Some (VList items) ->
      In item items -> accepted item.
Proof.
  intros H.
  apply extract_ret_inv in H
    as (html_content & st1 & Hfs & Hne & Hrun & _ & _).
  exists html_content. split; [exact Hfs | split].
  - destruct (findall js_array_pattern html_content) as [| b bs] eqn:E;
      [contradiction |].
    apply (found_declares html_content b). rewrite E. now left.
  - intros name text items item Hin Hl Hitem.
    destruct (for_each_ret_all _ _ _ _ Hrun _ Hin) as (s1 & s2 & Hp).
    destruct (findall_pairs _ _ Hin) as (name' & mid & Ep).
    injection Ep as <- ->.
    exact (process_array_ret_accepted _ _ _ _ _ _ _ Hp Hl Hitem).
Qed.

(** X4 on the example document: the extraction returns, so the page holds
    a declaration and every element is accepted. *)
Lemma returned_extraction_accepted_witness :
  exists html_content,
    single_file example_doc HTML_FILE_PATH = Some html_content /\
    declares html_content /\
    forall array_name array_content items item,
      In [array_name; array_content]
         (findall js_array_pattern html_content) ->
      Json.loads (json_str_of array_content) = Some (VList items) ->
      In item items -> accepted item.
Proof.
  exact (returned_extraction_accepted utf8_console
           (single_file example_doc) insertion_order HTML_FILE_PATH initial
           _ _ example_extraction).
Defined.

(** X5.  No exception of a class the script handles leaves [main]: not
    [FileNotFoundError], which line 21 turns into [sys.exit]; not
    [json.JSONDecodeError], which line 56 reports before the loop goes on;
    and not [KeyError], since every subscript of lines 52 to 55 is guarded
    by its membership test. *)
Theorem handled_errors_never_escape (con : console) (fs : filesystem)
        (order : set_order) (s : session) (st : state) (e : exn)
        (st' : state) :
  main con fs order s st = (Raise e, st') ->
  exn_class_of e <> FileNotFoundError /\
  exn_class_of e <> JSONDecodeError /\
  exn_class_of e <> KeyError.
Proof.
  rewrite main_cases.
  destruct (extract_urls_from_js con fs order HTML_FILE_PATH st)
    as [[l | e1 | c] st1] eqn:E; try discriminate.
  - destruct (forallb (printable con) (run_lines s l)).
    + destruct (broken_of s l); discriminate.
    + intros H. inversion H; subst. repeat split; discriminate.
  - intros H. inversion H; subst.
    apply extract_raises in E as [T | [_ ->]].
    + unfold is_TypeError in T. rewrite T. repeat split; discriminate.
    + repeat split; discriminate.
Qed.

(** X5 on a page whose array holds [null]: the exception that leaves [main]
    is a [TypeError]. *)
Lemma handled_errors_never_escape_witness :
  main utf8_console (single_file (u "const institutes = [null];"))
       insertion_order example_session initial
  = (Raise (Exn TypeError (u "argument of type 'NoneType' is not iterable")),
     State [SayParsing HTML_FILE_PATH; SayFoundArrays 1] []) /\
  TypeError <> FileNotFoundError /\
  TypeError <> JSONDecodeError /\
  TypeError <> KeyError.
Proof.
  assert (H : main utf8_console
                   (single_file (u "const institutes = [null];"))
                   insertion_order example_session initial
              = (Raise (Exn TypeError
                          (u "argument of type 'NoneType' is not iterable")),
                 State [SayParsing HTML_FILE_PATH; SayFoundArrays 1] []))
    by (vm_compute; reflexivity).
  split; [exact H |].
  exact (handled_errors_never_escape _ _ _ _ _ _ _ H).
Defined.

(** X6.  The console of an extraction that returns: the heading, the number
    of arrays found, for every found array whose text does not decode the
    warning with its name and the error details, in the order of the page,
    and the number of URLs, which is the length of the list returned. *)
Theorem extraction_console (con : console) (fs : filesystem) (order : set_order)
        (file_path : pystr) (st : state) (urls_to_check : list value)
        (st' : state) :
  extract_urls_from_js con fs order file_path st = (Ret urls_to_check, st') ->
  exists html_content,
    fs file_path = Some html_content /\
    stdout st' =
    stdout st
      ++ [SayParsing file_path;
          SayFoundArrays (length (findall js_array_pattern html_content))]
      ++ flat_map warning_lines (findall js_array_pattern html_content)
      ++ [SayFoundUrls (length urls_to_check)].
Proof.
  intros H.
  apply extract_ret_inv in H
    as (html_content & st1 & Hfs & Hne & Hrun & -> & ->).
  exists html_content. split; [exact Hfs |].
  apply for_each_stdout with (lines := warning_lines) in Hrun.
  - cbn [stdout] in *. rewrite Hrun.
    rewrite (Permutation_length (iter_set_perm order (urls st1))).
    now rewrite <- !app_assoc.
  - intros found s1 s2 Hin Hp.
    destruct (findall_pairs _ _ Hin) as (name & mid & ->).
    now apply (process_array_stdout con).
Qed.

(** X6 on the page whose second array does not decode. *)
Lemma extraction_console_witness :
  extract_urls_from_js utf8_console (single_file half_broken_doc) insertion_order
    HTML_FILE_PATH initial
  = (Ret [VStr (u "https://good.example"); VStr (u "https://slow.example")],
     State [SayParsing HTML_FILE_PATH; SayFoundArrays 3;
            SayWarning (u "jobBoards");
            SayErrorDetails (Exn JSONDecodeError []);
            SayFoundUrls 2]
           [VStr (u "https://good.example"); VStr (u "https://slow.example")])
  /\
  exists html_content,
    single_file half_broken_doc HTML_FILE_PATH = Some html_content /\
    [SayParsing HTML_FILE_PATH; SayFoundArrays 3;
     SayWarning (u "jobBoards"); SayErrorDetails (Exn JSONDecodeError []);
     SayFoundUrls 2] =
    stdout initial
      ++ [SayParsing HTML_FILE_PATH;
          SayFoundArrays (length (findall js_array_pattern html_content))]
      ++ flat_map warning_lines (findall js_array_pattern html_content)
      ++ [SayFoundUrls
            (length [VStr (u "https://good.example");
                     VStr (u "https://slow.example")])].
Proof.
  assert (H : extract_urls_from_js utf8_console (single_file half_broken_doc)
                insertion_order HTML_FILE_PATH initial
              = (Ret [VStr (u "https://good.example");
                      VStr (u "https://slow.example")],
                 State [SayParsing HTML_FILE_PATH; SayFoundArrays 3;
                        SayWarning (u "jobBoards");
                        SayErrorDetails (Exn JSONDecodeError []);
                        SayFoundUrls 2]
                       [VStr (u "https://good.example");
                        VStr (u "https://slow.example")]))
    by (vm_compute; reflexivity).
  split; [exact H |].
  exact (extraction_console _ _ _ _ _ _ _ H).
Defined.

(* ================================================================== *)
(** ** Further properties of [main] *)

Lemma extract_exit_one (con : console) (fs : filesystem) (order : set_order)
      (file_path : pystr) (st : state) (c : Z) (st' : state) :
  extract_urls_from_js con fs order file_path st = (Exit c, st') -> c = 1%Z.
Proof.
  rewrite extract_cases.
  destruct (printable con (SayParsing file_path)); [| discriminate].
  cbv zeta.
  destruct (fs file_path) as [html_content |];
    [| intros H; now inversion H].
  destruct (findall js_array_pattern html_content) as [| b bs];
    [intros H; now inversion H |].
  destruct (for_each (b :: bs) (process_array con) _)
    as [[[] | e1 | c1] st1] eqn:R; try discriminate.
  now apply found_arrays_no_exit in R.
Qed.

(** X7.  A run that ends with status 0 certifies the links: the extraction
    returned its list, every URL of the list checks as "OK", and the report
    on the console holds every URL of the list with that result.  (A missing
    file, a page without arrays, an exception and a broken link all give
    another status.) *)
Theorem zero_status_certifies (con : console) (fs : filesystem)
        (order : set_order) (s : session) :
  exit_status (fst (run_main con fs order s)) = 0%Z ->
  exists urls_to_check st1,
    extract_urls_from_js con fs order HTML_FILE_PATH initial
    = (Ret urls_to_check, st1) /\
    (forall url, In url urls_to_check -> link_status s url = OK) /\
    report (stdout (snd (run_main con fs order s)))
    = map (fun url => (url, OK)) urls_to_check.
Proof.
  unfold run_main. rewrite main_cases.
  destruct (extract_urls_from_js con fs order HTML_FILE_PATH initial)
    as [[l | e | c] st1] eqn:E; cbn [fst snd exit_status stdout].
  - destruct (forallb (printable con) (run_lines s l)) eqn:Hp;
      [| discriminate].
    destruct (broken_of s l) as [| b bl] eqn:Eb; [| discriminate].
    intros _. exists l, st1. split; [reflexivity |].
    assert (Hok : forall url, In url l -> link_status s url = OK)
      by (now apply broken_of_nil_iff).
    split; [exact Hok |].
    rewrite (shown_all _ _ Hp).
    rewrite (report_quiet_app _ _ (proj1 (extract_quiet _ _ _ _ _ _ E))).
    unfold run_lines. destruct l as [| url rest]; [reflexivity |].
    unfold enumerate.
    rewrite report_check_lines, (report_quiet _ (summary_quiet _)).
    rewrite app_nil_r. apply map_ext_in. intros x Hx.
    now rewrite (Hok x Hx).
  - discriminate.
  - intros ->. now apply extract_exit_one in E.
Qed.

(** X7 on a page whose only link works. *)
Lemma zero_status_certifies_witness :
  exit_status
    (fst (run_main utf8_console (single_file good_doc) insertion_order
            example_session)) = 0%Z /\
  exists urls_to_check st1,
    extract_urls_from_js utf8_console (single_file good_doc)
      insertion_order HTML_FILE_PATH initial
    = (Ret urls_to_check, st1) /\
    (forall url, In url urls_to_check ->
                 link_status example_session url = OK) /\
    report (stdout (snd (run_main utf8_console (single_file good_doc)
                           insertion_order example_session)))
    = map (fun url => (url, OK)) urls_to_check.
Proof.
  assert (H : exit_status
                (fst (run_main utf8_console (single_file good_doc)
                        insertion_order example_session)) = 0%Z)
    by (vm_compute; reflexivity).
  split; [exact H |].
  exact (zero_status_certifies _ _ _ _ H).
Defined.

Lemma failures_report (s : session) (l : list value) :
  failures (map (fun url => (url, link_status s url)) l) = broken_of s l.
Proof.
  unfold failures, broken_of, is_broken.
  induction l as [| url l IH]; [reflexivity |].
  cbn [map filter flat_map snd].
  destruct (negb (pystr_eqb (link_status s url) OK)); cbn [app];
    now rewrite IH.
Qed.

Lemma report_of_run (s : session) (n : nat) (l : list value)
      (out : list event) (broken_links : list (value * pystr)) :
  Forall (fun ev => is_checking ev = false) out ->
  report (out ++ flat_map (check_lines s n) (enumerate l)
              ++ summary broken_links)
  = map (fun url => (url, link_status s url)) l.
Proof.
  intros Hq. rewrite (report_quiet_app _ _ Hq). unfold enumerate.
  rewrite report_check_lines, (report_quiet _ (summary_quiet broken_links)).
  apply app_nil_r.
Qed.

(** X8.  In a run that does not end in an exception, the script prints
    after the checks the closing block for the failing entries of its
    report, as read off the console: the completion line, then the line that
    all links work when no entry failed, and otherwise the number of failed
    entries and one line for each of them, with URL and reason, in the order
    of the report. *)
Theorem summary_lists_failures (con : console) (fs : filesystem)
        (order : set_order) (s : session) (urls_to_check : list value)
        (st1 : state) :
  extract_urls_from_js con fs order HTML_FILE_PATH initial
  = (Ret urls_to_check, st1) ->
  urls_to_check <> [] ->
  (forall e, fst (run_main con fs order s) <> Raise e) ->
  stdout (snd (run_main con fs order s))
  = stdout st1
      ++ flat_map (check_lines s (length urls_to_check))
                  (enumerate urls_to_check)
      ++ summary (failures (report (stdout (snd (run_main con fs order s))))).
Proof.
  intros E Hne. unfold run_main. rewrite main_cases, E.
  cbn [fst snd stdout]. intros Hrun.
  destruct (forallb (printable con) (run_lines s urls_to_check)) eqn:Hp;
    [| now elim (Hrun (Exn UnicodeEncodeError []))].
  rewrite (shown_all _ _ Hp). unfold run_lines.
  destruct urls_to_check as [| url rest]; [contradiction |].
  rewrite report_of_run by (now apply (extract_quiet _ _ _ _ _ _ E)).
  now rewrite failures_report.
Qed.

(** X8 on the example document, whose second link is broken. *)
Lemma summary_lists_failures_witness :
  extract_urls_from_js utf8_console (single_file example_doc)
    insertion_order HTML_FILE_PATH initial
  = (Ret example_urls,
     State [SayParsing HTML_FILE_PATH; SayFoundArrays 1; SayFoundUrls 2]
           example_urls) /\
  example_urls <> [] /\
  fst (run_main utf8_console (single_file example_doc) insertion_order
         example_session) = Exit 1 /\
  stdout (snd (run_main utf8_console (single_file example_doc)
                 insertion_order example_session))
  = [SayParsing HTML_FILE_PATH; SayFoundArrays 1; SayFoundUrls 2]
      ++ flat_map (check_lines example_session (length example_urls))
                  (enumerate example_urls)
      ++ summary (failures (report (stdout (snd (run_main utf8_console
                    (single_file example_doc) insertion_order
                    example_session))))).
Proof.
  assert (Hne : example_urls <> []) by discriminate.
  assert (Hx : fst (run_main utf8_console (single_file example_doc)
                      insertion_order example_session) = Exit 1)
    by (vm_compute; reflexivity).
  split; [exact example_extraction | split; [exact Hne | split]];
    [exact Hx |].
  apply (summary_lists_failures utf8_console _ _ example_session _ _
           example_extraction Hne).
  intros e He. rewrite Hx in He. discriminate.
Defined.

Lemma progress_app (l1 l2 : list event) :
  progress (l1 ++ l2) = progress l1 ++ progress l2.
Proof.
  induction l1 as [| ev l1 IH]; [reflexivity |].
  destruct ev; cbn [app progress]; now rewrite ?IH.
Qed.

Lemma progress_quiet (l : list event) :
  Forall (fun ev => is_checking ev = false) l -> progress l = [].
Proof.
  induction 1 as [| ev l Hev _ IH]; [reflexivity |].
  destruct ev; cbn [progress]; try exact IH. discriminate.
Qed.

Lemma progress_check_lines (s : session) (n : nat) (l : list value) :
  forall k,
    progress (flat_map (check_lines s n) (combine (seq k (length l)) l))
    = map (fun p => (fst p, n, snd p)) (combine (seq (k + 1) (length l)) l).
Proof.
  induction l as [| url l IH]; intros k; [reflexivity |].
  cbn [length seq combine flat_map map check_lines fst snd app].
  assert (Hc : forall i m v tail,
             progress (SayChecking i m v :: tail) = (i, m, v) :: progress tail)
    by reflexivity.
  rewrite Hc.
  assert (Hs : forall ev tail, is_checking ev = false ->
                               progress (ev :: tail) = progress tail)
    by (intros ev tail Hev; destruct ev; try reflexivity; discriminate).
  rewrite Hs by (destruct (is_broken s url); reflexivity).
  rewrite IH. reflexivity.
Qed.

(** The "Checking" lines on a console that shows the lines up to the first
    refused one. *)
Lemma progress_shown (con : console) (s : session) (n : nat)
      (l : list value) :
  forall (k : nat) (tail : list event),
    Forall (fun ev => is_checking ev = false) tail ->
    exists j,
      j <= length l /\
      progress (shown con (flat_map (check_lines s n)
                             (combine (seq k (length l)) l) ++ tail))
      = firstn j (map (fun p => (fst p, n, snd p))
                      (combine (seq (k + 1) (length l)) l)).
Proof.
  induction l as [| url l IH]; intros k tail Hq.
  - exists 0. split; [reflexivity |]. cbn [length seq combine flat_map app].
    apply progress_quiet. now apply shown_quiet.
  - cbn [length seq combine flat_map check_lines fst snd app shown map].
    destruct (printable con (SayChecking (k + 1) n url));
      [| exists 0; split; [apply Nat.le_0_l | reflexivity]].
    cbn [progress].
    destruct (printable con (if is_broken s url
                             then SayStatus (link_status s url) else SayOK)).
    + destruct (IH (S k) tail Hq) as (j & Hj & E).
      exists (S j). split; [lia |]. cbn [firstn].
      replace (progress
                 ((if is_broken s url
                   then SayStatus (link_status s url) else SayOK)
                    :: shown con
                         (flat_map (check_lines s n)
                            (combine (seq (S k) (length l)) l) ++ tail)))
        with (progress
                (shown con
                   (flat_map (check_lines s n)
                      (combine (seq (S k) (length l)) l) ++ tail)))
        by (now destruct (is_broken s url)).
      rewrite E. reflexivity.
    + exists 1. split; [lia |]. cbn [firstn progress]. reflexivity.
Qed.

(** X9.  The "Checking" lines of a run are numbered from 1 on, without a
    gap, each announces the length of the list as the total, and they run
    through the head of the list in its order; in a run that does not end in
    an exception they run through the whole list. *)
Theorem progress_numbering (con : console) (fs : filesystem)
        (order : set_order) (s : session) (urls_to_check : list value)
        (st1 : state) :
  extract_urls_from_js con fs order HTML_FILE_PATH initial
  = (Ret urls_to_check, st1) ->
  (exists j,
      j <= length urls_to_check /\
      progress (stdout (snd (run_main con fs order s)))
      = firstn j
          (map (fun p => (fst p, length urls_to_check, snd p))
               (combine (seq 1 (length urls_to_check)) urls_to_check))) /\
  ((forall e, fst (run_main con fs order s) <> Raise e) ->
   progress (stdout (snd (run_main con fs order s)))
   = map (fun p => (fst p, length urls_to_check, snd p))
         (combine (seq 1 (length urls_to_check)) urls_to_check)).
Proof.
  intros E. unfold run_main. rewrite main_cases, E.
  cbn [fst snd stdout].
  pose proof (proj1 (extract_quiet _ _ _ _ _ _ E)) as Hq.
  rewrite progress_app, (progress_quiet _ Hq). cbn [app]. split.
  - unfold run_lines, enumerate. destruct urls_to_check as [| url rest].
    + exists 0. split; [reflexivity |]. cbn [shown].
      now destruct (printable con SayNoUrls).
    + apply (progress_shown con s _ (url :: rest) 0), summary_quiet.
  - intros Hrun.
    destruct (forallb (printable con) (run_lines s urls_to_check)) eqn:Hp;
      [| now elim (Hrun (Exn UnicodeEncodeError []))].
    rewrite (shown_all _ _ Hp). unfold run_lines, enumerate.
    destruct urls_to_check as [| url rest]; [reflexivity |].
    rewrite progress_app, (progress_quiet _ (summary_quiet _)),
      progress_check_lines.
    now rewrite app_nil_r.
Qed.

(** X9 on the example document. *)
Lemma progress_numbering_witness :
  extract_urls_from_js utf8_console (single_file example_doc)
    insertion_order HTML_FILE_PATH initial
  = (Ret example_urls,
     State [SayParsing HTML_FILE_PATH; SayFoundArrays 1; SayFoundUrls 2]
           example_urls) /\
  progress (stdout (snd (run_main utf8_console (single_file example_doc)
                           insertion_order example_session)))
  = map (fun p => (fst p, length example_urls, snd p))
        (combine (seq 1 (length example_urls)) example_urls).
Proof.
  split; [exact example_extraction |].
  apply (proj2 (progress_numbering utf8_console _ _ example_session _ _
                  example_extraction)).
  intros e He. vm_compute in He. discriminate.
Defined.

(* ================================================================== *)
(** ** The list of URLs as a set *)

Lemma urls_add_hashable (v : value) (st : state) (r : result unit)
      (st' : state) :
  urls_add v st = (r, st') ->
  Forall hashable (urls st) -> Forall hashable (urls st').
Proof.
  unfold urls_add. destruct (hash_key v) as [k |] eqn:E.
  - destruct (set_mem k (urls st)); intros H; inversion H; subst; auto.
    cbn [urls]. intros Hf. apply Forall_app. split; [exact Hf |].
    constructor; [now exists k | constructor].
  - intros H. inversion H; subst. auto.
Qed.

Lemma add_field_hashable (item : value) (field : pystr) (st : state)
      (r : result unit) (st' : state) :
  add_field item field st = (r, st') ->
  Forall hashable (urls st) -> Forall hashable (urls st').
Proof.
  rewrite add_field_outcome.
  destruct item as [| b | z | f | s | l | d];
    try (intros H; inversion H; subst; now auto).
  - destruct (str_contains field s); intros H; inversion H; subst; auto.
  - destruct (existsb (is_str field) l); intros H; inversion H; subst; auto.
  - destruct (dict_get field d) as [v |];
      [| intros H; inversion H; subst; now auto].
    destruct (truthy v); [apply urls_add_hashable |].
    intros H; inversion H; subst; auto.
Qed.

Lemma item_body_hashable (item : value) (st : state) (r : result unit)
      (st' : state) :
  item_body item st = (r, st') ->
  Forall hashable (urls st) -> Forall hashable (urls st').
Proof.
  unfold item_body, bind. intros H Hf.
  destruct (add_field item (u "url") st) as [[[] | e1 | c] st1] eqn:E1.
  - apply add_field_hashable in E1; [| exact Hf].
    now apply add_field_hashable in H.
  - inversion H; subst. now apply add_field_hashable in E1.
  - inversion H; subst. now apply add_field_hashable in E1.
Qed.

Lemma process_array_hashable (con : console) (array_name mid : pystr)
      (st : state) (r : result unit) (st' : state) :
  process_array con [array_name; u "[" ++ mid ++ u "]"] st = (r, st') ->
  Forall hashable (urls st) -> Forall hashable (urls st').
Proof.
  destruct (Json.loads (json_str_of (u "[" ++ mid ++ u "]")))
    as [data |] eqn:E.
  - destruct (process_array_list con array_name mid data E)
      as (items & -> & ->).
    intros H Hf.
    apply (for_each_invariant (fun s => Forall hashable (urls s))
             items item_body) with (st := st) (r := r); auto.
    intros item s1 r1 s2 _. apply item_body_hashable.
  - destruct (printable con (SayWarning array_name)) eqn:Hname.
    + rewrite (process_array_decode_error _ _ _ _ Hname E).
      intros H. inversion H; subst. auto.
    + rewrite (process_array_warning_refused _ _ _ _ Hname E).
      intros H. inversion H; subst. auto.
Qed.

(** X11.  The list the extraction returns is the content of a set: every
    element is a value that can be a set element, and no two elements are
    equal as Python compares them (so [1], [1.0] and [True] never stand
    side by side in it). *)
Theorem url_list_is_a_set (con : console) (fs : filesystem) (order : set_order)
        (file_path : pystr) (st : state) (urls_to_check : list value)
        (st' : state) :
  extract_urls_from_js con fs order file_path st = (Ret urls_to_check, st') ->
  Forall hashable urls_to_check /\ NoDup (map hash_key urls_to_check).
Proof.
  intros H.
  apply extract_ret_inv in H
    as (html_content & st1 & Hfs & Hne & Hrun & -> & _).
  pose proof (iter_set_perm order (urls st1)) as Hp.
  split.
  - apply (Permutation_Forall (Permutation_sym Hp)).
    apply (for_each_invariant (fun s => Forall hashable (urls s))
             _ _) with (2 := Hrun); [| constructor].
    intros found s1 r1 s2 Hin.
    destruct (findall_pairs _ _ Hin) as (name & mid & ->).
    apply process_array_hashable.
  - apply (Permutation_NoDup (Permutation_map hash_key (Permutation_sym Hp))).
    apply found_arrays_steps in Hrun as [Hs _].
    apply (step_nodup _ _ _ Hs). constructor.
Qed.

(** X11 on the example document. *)
Lemma url_list_is_a_set_witness :
  extract_urls_from_js utf8_console (single_file example_doc) insertion_order
    HTML_FILE_PATH initial
  = (Ret example_urls,
     State [SayParsing HTML_FILE_PATH; SayFoundArrays 1; SayFoundUrls 2]
           example_urls) /\
  Forall hashable example_urls /\ NoDup (map hash_key example_urls).
Proof.
  split; [exact example_extraction |].
  exact (url_list_is_a_set _ _ _ _ _ _ _ example_extraction).
Defined.
